(** * A shallow embedding of the idb adaptation core (build/idb.js)

    The library turns IndexedDB's event-driven handles into promise-based,
    identity-stable wrappers.  The embedding keeps the source's structure:
    the four WeakMaps, the mutable trap chain, the per-name method caches,
    promises with their state, the event-listener registry of the native
    handles, and the storage engine itself as an abstract interface. *)

From Stdlib Require Import ZArith.
From stdpp Require Import base decidable option list strings gmap.

Open Scope string_scope.

(** ** Values *)

(** The native interfaces the source tests with [instanceof], plus native
    functions and any other host object. *)
Inductive kind :=
  | KDatabase | KObjectStore | KIndex | KCursor | KTransaction | KRequest
  | KFunction | KOther.

(** A native object: its interface never changes, its number is its identity. *)
Record handle := Handle { hkind : kind; hid : nat }.

(** Property keys: strings, or symbols such as [Symbol.asyncIterator]. *)
Inductive prop := PStr (s : string) | PSym (n : nat).

Definition Symbol_asyncIterator : prop := PSym 0.

(** The trap sets the source builds with [addTraps]: the base set and the two
    extensions layered over an older set. *)
Inductive traps :=
  | BaseTraps
  | DatabaseExtras (oldTraps : traps)
  | IteratorTraps (oldTraps : traps).

(** JavaScript values.  An object created by the library carries the number
    of its allocation (its identity) and the variables its closure captured. *)
Inductive value :=
  | VUndefined
  | VNull
  | VBool (b : bool)
  | VNum (n : Z)
  | VNaN                                   (* the number that is not equal to itself *)
  | VStr (s : string)
  | VStrings (l : list string)              (* a DOMStringList *)
  | VError (name : string)                  (* an error raised by the runtime *)
  | VNative (h : handle)
  | VProxy (id : nat) (target : handle) (t : traps)   (* new Proxy(value, idbProxyTraps) *)
  | VPromise (id : nat)
  | VWrappedFn (id : nat) (func : value)    (* wrapFunction, general closure *)
  | VAdvanceFn (id : nat) (func : value)    (* wrapFunction, cursor-advance closure *)
  | VReadMethod (id : nat) (name : string)  (* getMethod, read closure *)
  | VWriteMethod (id : nat) (name : string) (* getMethod, write closure *)
  | VFacade (id : nat) (cursor : value)     (* new Proxy(cursor, cursorIteratorTraps) *)
  | VFacadeFn (id : nat) (name : string)    (* methodMap[prop] *)
  | VIterate.                               (* the function iterate *)

#[global] Instance kind_eq_dec : EqDecision kind.
Proof. solve_decision. Defined.
#[global] Instance handle_eq_dec : EqDecision handle.
Proof. solve_decision. Defined.
#[global] Instance prop_eq_dec : EqDecision prop.
Proof. solve_decision. Defined.
#[global] Instance traps_eq_dec : EqDecision traps.
Proof. solve_decision. Defined.
#[global] Instance value_eq_dec : EqDecision value.
Proof. solve_decision. Defined.

(** [ToBoolean]. *)
Definition truthy (v : value) : bool :=
  match v with
  | VUndefined | VNull | VNaN => false
  | VBool b => b
  | VNum n => negb (Z.eqb n 0)
  | VStr s => negb (String.eqb s "")
  | _ => true
  end.

(** [typeof value === 'function']. *)
Definition is_function (v : value) : bool :=
  match v with
  | VNative h => bool_decide (hkind h = KFunction)
  | VWrappedFn _ _ | VAdvanceFn _ _ | VReadMethod _ _ | VWriteMethod _ _
  | VFacadeFn _ _ | VIterate => true
  | _ => false
  end.

(** Whether [v] is an object (a function is one); only an object can be
    the key of a WeakMap. *)
Definition is_object (v : value) : bool :=
  match v with
  | VUndefined | VNull | VBool _ | VNum _ | VNaN | VStr _ => false
  | _ => true
  end.

(** [a !== b]: identity, except that NaN differs from itself. *)
Definition strict_ne (a b : value) : bool :=
  bool_decide (a <> b) || bool_decide (a = VNaN).

(** [value instanceof K]: a proxy answers with its target's prototype. *)
Fixpoint instance_of (v : value) (k : kind) : bool :=
  match v with
  | VNative h => bool_decide (hkind h = k)
  | VProxy _ h _ => bool_decide (hkind h = k)
  | VFacade _ c => instance_of c k
  | _ => false
  end.

Definition instanceOfAny (object : value) (constructors : list kind) : bool :=
  existsb (instance_of object) constructors.

Definition idbProxyableTypes : list kind :=
  [KDatabase; KObjectStore; KIndex; KCursor; KTransaction].

(** ** Outcomes *)

(** A call returns, throws, or leaves what the embedding covers (a proxy
    whose target is itself a proxy, a property read on a promise, ...). *)
Inductive outcome (A : Type) :=
  | Ret (a : A)
  | Throw (e : value)
  | Unsupported.
Arguments Ret {A} a.
Arguments Throw {A} e.
Arguments Unsupported {A}.

Definition TypeError : value := VError "TypeError".

(** ** The storage engine *)

(** What the library asks of IndexedDB: reading a property of a native
    object, the [in] test, calling a native function with a receiver, and the
    three functions of [IDBCursor.prototype] that advance a cursor. *)
Class Engine := {
  world : Type;
  native_get : world -> handle -> prop -> value;
  native_has : world -> handle -> prop -> bool;
  native_call : handle -> value -> list value -> world -> outcome value * world;
  cursor_proto : string -> value;
}.

(** ** Promises and listeners *)

Inductive pstate :=
  | Pending
  | Resolved (v : value)      (* resolve(v) was called first *)
  | Rejected (e : value).     (* reject(e) was called first *)

(** The one reaction the library attaches: the [then] callback of
    [promisifyRequest] that remembers which request produced a cursor. *)
Inductive reaction := RCacheCursor (request : value).

Record promise := Promise { pst : pstate; reactions : list reaction }.

(** The listener closures of [promisifyRequest] and
    [cacheDonePromiseForTransaction]; each captures its target and promise. *)
Inductive listener :=
  | LSuccess (request : handle) (p : nat)
  | LError (request : handle) (p : nat)
  | LComplete (tx : handle) (p : nat)
  | LTxError (tx : handle) (p : nat).

Record registration :=
  Registration { r_target : handle; r_type : string; r_listener : listener }.

#[global] Instance pstate_eq_dec : EqDecision pstate.
Proof. solve_decision. Defined.
#[global] Instance reaction_eq_dec : EqDecision reaction.
Proof. solve_decision. Defined.
#[global] Instance listener_eq_dec : EqDecision listener.
Proof. solve_decision. Defined.
#[global] Instance registration_eq_dec : EqDecision registration.
Proof. solve_decision. Defined.

(** ** WeakMaps keyed by object identity *)

Definition wmap := list (value * value).

Fixpoint wm_get (k : value) (m : wmap) : option value :=
  match m with
  | [] => None
  | (k', v) :: m' => if decide (k = k') then Some v else wm_get k m'
  end.

Definition wm_has (k : value) (m : wmap) : bool := bool_decide (is_Some (wm_get k m)).

Definition wm_set (k v : value) (m : wmap) : wmap := (k, v) :: m.

Definition wm_delete (k : value) (m : wmap) : wmap :=
  filter (fun kv => kv.1 <> k) m.

(** [map.get(k)]: [undefined] when the key is absent. *)
Definition or_undefined (o : option value) : value := default VUndefined o.

(** A [Map] or plain object keyed by strings. *)
Fixpoint sm_get (k : string) (m : list (string * value)) : option value :=
  match m with
  | [] => None
  | (k', v) :: m' => if decide (k = k') then Some v else sm_get k m'
  end.

Section Library.
Context `{E : Engine}.

(** ** The module's state *)

Record state := State {
  next_id : nat;                              (* allocation counter *)
  engine : world;                             (* the engine's own state *)
  cursorRequestMap : wmap;
  transactionDoneMap : wmap;
  transformCache : wmap;
  reverseTransformCache : wmap;
  idbProxyTraps : traps;
  cachedMethods : list (string * value);
  methodMap : list (string * value);
  advanceResults : wmap;
  proxiedCursorToOriginal : wmap;
  promises : gmap nat promise;
  listeners : list registration;
  jobs : list (reaction * value);             (* pending promise reactions *)
}.

Definition with_next_id n s :=
  State n (engine s) (cursorRequestMap s) (transactionDoneMap s) (transformCache s)
    (reverseTransformCache s) (idbProxyTraps s) (cachedMethods s) (methodMap s)
    (advanceResults s) (proxiedCursorToOriginal s) (promises s) (listeners s) (jobs s).
Definition with_engine w s :=
  State (next_id s) w (cursorRequestMap s) (transactionDoneMap s) (transformCache s)
    (reverseTransformCache s) (idbProxyTraps s) (cachedMethods s) (methodMap s)
    (advanceResults s) (proxiedCursorToOriginal s) (promises s) (listeners s) (jobs s).
Definition with_cursorRequestMap m s :=
  State (next_id s) (engine s) m (transactionDoneMap s) (transformCache s)
    (reverseTransformCache s) (idbProxyTraps s) (cachedMethods s) (methodMap s)
    (advanceResults s) (proxiedCursorToOriginal s) (promises s) (listeners s) (jobs s).
Definition with_transactionDoneMap m s :=
  State (next_id s) (engine s) (cursorRequestMap s) m (transformCache s)
    (reverseTransformCache s) (idbProxyTraps s) (cachedMethods s) (methodMap s)
    (advanceResults s) (proxiedCursorToOriginal s) (promises s) (listeners s) (jobs s).
Definition with_transformCache m s :=
  State (next_id s) (engine s) (cursorRequestMap s) (transactionDoneMap s) m
    (reverseTransformCache s) (idbProxyTraps s) (cachedMethods s) (methodMap s)
    (advanceResults s) (proxiedCursorToOriginal s) (promises s) (listeners s) (jobs s).
Definition with_reverseTransformCache m s :=
  State (next_id s) (engine s) (cursorRequestMap s) (transactionDoneMap s) (transformCache s)
    m (idbProxyTraps s) (cachedMethods s) (methodMap s)
    (advanceResults s) (proxiedCursorToOriginal s) (promises s) (listeners s) (jobs s).
Definition with_idbProxyTraps t s :=
  State (next_id s) (engine s) (cursorRequestMap s) (transactionDoneMap s) (transformCache s)
    (reverseTransformCache s) t (cachedMethods s) (methodMap s)
    (advanceResults s) (proxiedCursorToOriginal s) (promises s) (listeners s) (jobs s).
Definition with_cachedMethods m s :=
  State (next_id s) (engine s) (cursorRequestMap s) (transactionDoneMap s) (transformCache s)
    (reverseTransformCache s) (idbProxyTraps s) m (methodMap s)
    (advanceResults s) (proxiedCursorToOriginal s) (promises s) (listeners s) (jobs s).
Definition with_methodMap m s :=
  State (next_id s) (engine s) (cursorRequestMap s) (transactionDoneMap s) (transformCache s)
    (reverseTransformCache s) (idbProxyTraps s) (cachedMethods s) m
    (advanceResults s) (proxiedCursorToOriginal s) (promises s) (listeners s) (jobs s).
Definition with_advanceResults m s :=
  State (next_id s) (engine s) (cursorRequestMap s) (transactionDoneMap s) (transformCache s)
    (reverseTransformCache s) (idbProxyTraps s) (cachedMethods s) (methodMap s)
    m (proxiedCursorToOriginal s) (promises s) (listeners s) (jobs s).
Definition with_proxiedCursorToOriginal m s :=
  State (next_id s) (engine s) (cursorRequestMap s) (transactionDoneMap s) (transformCache s)
    (reverseTransformCache s) (idbProxyTraps s) (cachedMethods s) (methodMap s)
    (advanceResults s) m (promises s) (listeners s) (jobs s).
Definition with_promises m s :=
  State (next_id s) (engine s) (cursorRequestMap s) (transactionDoneMap s) (transformCache s)
    (reverseTransformCache s) (idbProxyTraps s) (cachedMethods s) (methodMap s)
    (advanceResults s) (proxiedCursorToOriginal s) m (listeners s) (jobs s).
Definition with_listeners l s :=
  State (next_id s) (engine s) (cursorRequestMap s) (transactionDoneMap s) (transformCache s)
    (reverseTransformCache s) (idbProxyTraps s) (cachedMethods s) (methodMap s)
    (advanceResults s) (proxiedCursorToOriginal s) (promises s) l (jobs s).
Definition with_jobs j s :=
  State (next_id s) (engine s) (cursorRequestMap s) (transactionDoneMap s) (transformCache s)
    (reverseTransformCache s) (idbProxyTraps s) (cachedMethods s) (methodMap s)
    (advanceResults s) (proxiedCursorToOriginal s) (promises s) (listeners s) j.

(** The state when the module has been loaded over engine state [w]: empty
    maps, and the trap chain after the two [addTraps] calls of the file. *)
Definition loaded (w : world) : state :=
  State 0 w [] [] [] [] (IteratorTraps (DatabaseExtras BaseTraps)) [] [] [] [] ∅ [] [].

(** ** A state-and-exception monad *)

Definition M (A : Type) : Type := state -> outcome A * state.

Definition ret {A} (a : A) : M A := fun s => (Ret a, s).
Definition throw {A} (e : value) : M A := fun s => (Throw e, s).
Definition unsupported {A} : M A := fun s => (Unsupported, s).
Definition bind {A B} (m : M A) (f : A -> M B) : M B :=
  fun s => match m s with
           | (Ret a, s') => f a s'
           | (Throw e, s') => (Throw e, s')
           | (Unsupported, s') => (Unsupported, s')
           end.
Definition gets {A} (f : state -> A) : M A := fun s => (Ret (f s), s).
Definition modify (f : state -> state) : M unit := fun s => (Ret tt, f s).

Notation "'let*' x ':=' m 'in' k" := (bind m (fun x => k))
  (at level 10, x name, m at level 100, k at level 200).

(** A fresh object identity. *)
Definition fresh : M nat :=
  fun s => (Ret (next_id s), with_next_id (S (next_id s)) s).

(** ** Listeners and promises *)

(** [target.addEventListener(type, l)]: a listener already registered for
    the type is not registered twice. *)
Definition addEventListener (target : handle) (type : string) (l : listener) : M unit :=
  modify (fun s =>
    let r := Registration target type l in
    if bool_decide (r ∈ listeners s) then s
    else with_listeners (listeners s ++ [r]) s).

Definition removeEventListener (target : handle) (type : string) (l : listener) : M unit :=
  modify (fun s =>
    with_listeners (filter (fun r => r <> Registration target type l) (listeners s)) s).

(** [new Promise(...)]: pending, no reaction yet. *)
Definition new_promise : M nat :=
  let* p := fresh in
  let* _ := modify (fun s => with_promises (<[p := Promise Pending []]> (promises s)) s) in
  ret p.

(** [promise.then(cb)] for the library's own callback. *)
Definition add_reaction (p : nat) (r : reaction) : M unit :=
  modify (fun s =>
    match promises s !! p with
    | Some (Promise Pending rs) =>
        with_promises (<[p := Promise Pending (rs ++ [r])]> (promises s)) s
    | Some (Promise (Resolved v) rs) =>
        with_jobs (jobs s ++ [(r, v)]) s
    | _ => s
    end).

(** [resolve(v)]: only the first call on a pending promise counts; its
    reactions are queued.  (A promise resolved with another promise would
    follow it; the results of requests are never promises.) *)
Definition resolve (p : nat) (v : value) : M unit :=
  modify (fun s =>
    match promises s !! p with
    | Some (Promise Pending rs) =>
        with_jobs (jobs s ++ map (fun r => (r, v)) rs)
          (with_promises (<[p := Promise (Resolved v) []]> (promises s)) s)
    | _ => s
    end).

(** [reject(e)]. *)
Definition reject (p : nat) (e : value) : M unit :=
  modify (fun s =>
    match promises s !! p with
    | Some (Promise Pending rs) =>
        with_promises (<[p := Promise (Rejected e) []]> (promises s)) s
    | _ => s
    end).

Definition promise_state (s : state) (p : nat) : option pstate :=
  pst <$> promises s !! p.

(** ** wrap and unwrap (build/idb.js, lines 26-166) *)

(** [map.set(key, ...)] on a WeakMap throws a TypeError when the key is not
    an object. *)
Definition weak_set (key : value) (update : state -> state) : M unit :=
  if is_object key then modify update else throw TypeError.

Definition cursorAdvanceMethods : list value :=
  [cursor_proto "advance"; cursor_proto "continue"; cursor_proto "continuePrimaryKey"].

Definition promisifyRequest (request : value) : M value :=
  match request with
  | VNative r =>
      let* p := new_promise in
      let* _ := addEventListener r "success" (LSuccess r p) in
      let* _ := addEventListener r "error" (LError r p) in
      let* _ := add_reaction p (RCacheCursor request) in
      let* _ := modify (fun s => with_reverseTransformCache
                            (wm_set (VPromise p) request (reverseTransformCache s)) s) in
      ret (VPromise p)
  | _ => unsupported
  end.

Definition cacheDonePromiseForTransaction (tx : value) : M unit :=
  let* has := gets (fun s => wm_has tx (transactionDoneMap s)) in
  if has : bool then ret tt
  else match tx with
       | VNative t =>
           let* done_ := new_promise in
           let* _ := addEventListener t "complete" (LComplete t done_) in
           let* _ := addEventListener t "error" (LTxError t done_) in
           let* _ := addEventListener t "abort" (LTxError t done_) in
           modify (fun s => with_transactionDoneMap
                              (wm_set tx (VPromise done_) (transactionDoneMap s)) s)
       | _ => unsupported
       end.

Definition wrapFunction (func : value) : M value :=
  let* id := fresh in
  if bool_decide (func ∈ cursorAdvanceMethods)
  then ret (VAdvanceFn id func)
  else ret (VWrappedFn id func).

Definition transformCachableValue (v : value) : M value :=
  if is_function v then wrapFunction v
  else
    let* _ := (if instance_of v KTransaction then cacheDonePromiseForTransaction v else ret tt) in
    if instanceOfAny v idbProxyableTypes
    then match v with
         | VNative h =>
             let* id := fresh in
             let* t := gets idbProxyTraps in
             ret (VProxy id h t)
         | _ => unsupported
         end
    else ret v.

Definition wrap (v : value) : M value :=
  if instance_of v KRequest then promisifyRequest v
  else
    let* cached := gets (fun s => wm_get v (transformCache s)) in
    match cached with
    | Some w => ret w
    | None =>
        let* newValue := transformCachableValue v in
        let* _ := (if strict_ne newValue v
            then
              let* _ := weak_set v (fun s =>
                          with_transformCache (wm_set v newValue (transformCache s)) s) in
              weak_set newValue (fun s =>
                with_reverseTransformCache (wm_set newValue v (reverseTransformCache s)) s)
            else ret tt) in
        ret newValue
    end.

Definition unwrap (v : value) (s : state) : value :=
  or_undefined (wm_get v (reverseTransformCache s)).

(** ** Calling wrapped functions (wrapFunction's closures, lines 108-133) *)

(** [func.apply(receiver, args)] on the native function a wrapper captured. *)
Definition apply_native (func receiver : value) (args : list value) : M value :=
  match func with
  | VNative f =>
      fun s => let (r, w) := native_call f receiver args (engine s) in (r, with_engine w s)
  | _ => unsupported
  end.

(** [f.apply(this, args)] where [f] is a wrapper made by [wrapFunction], a
    native function, or not callable at all. *)
Definition invoke (f this : value) (args : list value) : M value :=
  match f with
  | VAdvanceFn _ func =>
      let* originalCursor := gets (unwrap this) in
      let* _ := apply_native func originalCursor args in
      let* request := gets (fun s => or_undefined (wm_get this (cursorRequestMap s))) in
      wrap request
  | VWrappedFn _ func =>
      let* originalParent := gets (unwrap this) in
      let* value := apply_native func originalParent args in
      wrap value
  | VNative h =>
      if bool_decide (hkind h = KFunction) then apply_native f this args
      else throw TypeError
  | VReadMethod _ _ | VWriteMethod _ _ | VFacadeFn _ _ | VIterate => unsupported
  | _ => throw TypeError
  end.

(** ** The trap chain (lines 84-107, 203-260, 297-311) *)

(** [list[i]] for a DOMStringList. *)
Definition js_index (v : value) (i : nat) : M value :=
  match v with
  | VUndefined | VNull => throw TypeError
  | VStrings l => ret (match l !! i with Some s => VStr s | None => VUndefined end)
  | _ => unsupported
  end.

Definition native_read (target : handle) (p : prop) : M value :=
  gets (fun s => native_get (engine s) target p).

(** [idbProxyTraps.get] of the base set.  [recv_get] reads a property of the
    receiver, for [receiver.objectStore]. *)
Definition base_get (recv_get : value -> prop -> M value)
    (target : handle) (p : prop) (receiver : value) : M value :=
  if bool_decide (hkind target = KTransaction) && bool_decide (p = PStr "done")
  then gets (fun s => or_undefined (wm_get (VNative target) (transactionDoneMap s)))
  else if bool_decide (hkind target = KTransaction) && bool_decide (p = PStr "store")
  then
    let* names := native_read target (PStr "objectStoreNames") in
    let* second := js_index names 1 in
    if truthy second then ret VUndefined
    else
      let* objectStore := recv_get receiver (PStr "objectStore") in
      let* names0 := native_read target (PStr "objectStoreNames") in
      let* first := js_index names0 0 in
      invoke objectStore receiver [first]
  else
    let* v := native_read target p in
    wrap v.

Definition base_has (w : world) (target : handle) (p : prop) : bool :=
  if bool_decide (hkind target = KTransaction)
     && (bool_decide (p = PStr "done") || bool_decide (p = PStr "store"))
  then true
  else native_has w target p.

Definition potentialDatabaseExtra (w : world) (target : handle) (p : prop) : bool :=
  bool_decide (hkind target = KDatabase)
  && negb (native_has w target p)
  && match p with PStr _ => true | PSym _ => false end.

Definition baseReadMethods : list string := ["get"; "getKey"; "getAll"; "getAllKeys"; "count"].
Definition readMethods : list string :=
  baseReadMethods ++ map (fun n => n +:+ "FromIndex") baseReadMethods.
Definition writeMethods : list string := ["put"; "add"; "delete"; "clear"].

Definition getMethod (name : string) : M value :=
  if bool_decide (name ∈ readMethods)
  then let* id := fresh in ret (VReadMethod id name)
  else if bool_decide (name ∈ writeMethods)
  then let* id := fresh in ret (VWriteMethod id name)
  else ret VUndefined.

Definition prop_in (p : prop) (names : list string) : bool :=
  match p with PStr s => bool_decide (s ∈ names) | PSym _ => false end.

Definition extras_get (old_get : M value) (target : handle) (p : prop) : M value :=
  let* w := gets engine in
  if negb (potentialDatabaseExtra w target p) then old_get
  else match p with
       | PSym _ => old_get
       | PStr name =>
           let* cachedMethod := gets (fun s => or_undefined (sm_get name (cachedMethods s))) in
           if truthy cachedMethod then ret cachedMethod
           else
             let* method := getMethod name in
             if truthy method
             then
               let* _ := modify (fun s => with_cachedMethods ((name, method) :: cachedMethods s) s) in
               ret method
             else old_get
       end.

Definition isIteratorProp (target : handle) (p : prop) : bool :=
  (bool_decide (p = Symbol_asyncIterator)
   && bool_decide (hkind target ∈ [KIndex; KObjectStore; KCursor]))
  || (bool_decide (p = PStr "iterate")
      && bool_decide (hkind target ∈ [KIndex; KObjectStore])).

Fixpoint traps_get (recv_get : value -> prop -> M value) (t : traps)
    (target : handle) (p : prop) (receiver : value) : M value :=
  match t with
  | BaseTraps => base_get recv_get target p receiver
  | DatabaseExtras oldTraps =>
      extras_get (traps_get recv_get oldTraps target p receiver) target p
  | IteratorTraps oldTraps =>
      if isIteratorProp target p then ret VIterate
      else traps_get recv_get oldTraps target p receiver
  end.

Fixpoint traps_has (t : traps) (w : world) (target : handle) (p : prop) : bool :=
  match t with
  | BaseTraps => base_has w target p
  | DatabaseExtras oldTraps =>
      (potentialDatabaseExtra w target p && (prop_in p readMethods || prop_in p writeMethods))
      || traps_has oldTraps w target p
  | IteratorTraps oldTraps =>
      isIteratorProp target p || traps_has oldTraps w target p
  end.

Definition addTraps (callback : traps -> traps) : M unit :=
  modify (fun s => with_idbProxyTraps (callback (idbProxyTraps s)) s).

(** ** Property reads *)

(** [v[p]] on a wrapped handle, a native object, or nothing. *)
Definition member (recv_get : value -> prop -> M value) (v : value) (p : prop) : M value :=
  match v with
  | VProxy _ target t => traps_get recv_get t target p v
  | VNative h => native_read h p
  | VUndefined | VNull => throw TypeError
  | _ => unsupported
  end.

(** The read of [receiver.objectStore] nested in a read of [store]: its
    property is not [store], so it never nests again. *)
Definition member_nested : value -> prop -> M value :=
  member (fun _ _ => unsupported).

Definition advanceMethodProps : list string := ["continue"; "continuePrimaryKey"; "advance"].

(** [cursorIteratorTraps.get] (lines 266-278). *)
Definition facade_get (target : value) (p : prop) : M value :=
  match p with
  | PStr name =>
      if bool_decide (name ∈ advanceMethodProps)
      then
        let* cachedFunc := gets (fun s => or_undefined (sm_get name (methodMap s))) in
        if truthy cachedFunc then ret cachedFunc
        else
          let* id := fresh in
          let* _ := modify (fun s => with_methodMap ((name, VFacadeFn id name) :: methodMap s) s) in
          ret (VFacadeFn id name)
      else member member_nested target p
  | PSym _ => member member_nested target p
  end.

(** [v[p]] for every object the library hands out. *)
Definition js_get (v : value) (p : prop) : M value :=
  match v with
  | VFacade _ target => facade_get target p
  | _ => member member_nested v p
  end.

(** [p in v]. *)
Definition js_has (v : value) (p : prop) (s : state) : outcome bool :=
  match v with
  | VProxy _ target t => Ret (traps_has t (engine s) target p)
  | VNative h => Ret (native_has (engine s) h p)
  | VUndefined | VNull => Throw TypeError
  | _ => Unsupported
  end.

(** ** Convenience methods on a database (getMethod's closures, lines 213-237) *)

(** [s.endsWith(suffix)] and [s.slice(0, -n)]. *)
Definition endsWith (s suffix : string) : bool :=
  let n := String.length s in
  let m := String.length suffix in
  bool_decide (m <= n) && String.eqb (String.substring (n - m) m s) suffix.

Definition slice_end (s : string) (n : nat) : string :=
  String.substring 0 (String.length s - n) s.

(** The closure returned for a read method [name]; [arguments] is
    [storeName, ...args]. *)
Definition read_method (name : string) (this : value) (arguments : list value) : M value :=
  let storeName := hd VUndefined arguments in
  let args := tl arguments in
  let fromIndex := endsWith name "FromIndex" in
  let indexName := if fromIndex then hd VUndefined args else VStr "" in
  let args := if fromIndex then tl args else args in
  let targetFuncName := if fromIndex then slice_end name 9 else name in
  let* transaction := js_get this (PStr "transaction") in
  let* tx := invoke transaction this [storeName] in
  let* store := js_get tx (PStr "store") in
  let* target :=
    (if truthy indexName
     then let* index := js_get store (PStr "index") in
          invoke index store [indexName]
     else ret store) in
  let* func := js_get target (PStr targetFuncName) in
  invoke func target args.

(** The closure returned for a write method [name]. *)
Definition write_method (name : string) (this : value) (arguments : list value) : M value :=
  let storeName := hd VUndefined arguments in
  let args := tl arguments in
  let* transaction := js_get this (PStr "transaction") in
  let* tx := invoke transaction this [storeName; VStr "readwrite"] in
  let* store := js_get tx (PStr "store") in
  let* func := js_get store (PStr name) in
  let* _ := invoke func store args in
  js_get tx (PStr "done").

(** [methodMap[prop]], the advance method of an iteration facade (line 272). *)
Definition facade_advance (name : string) (this : value) (args : list value) : M value :=
  let* original := gets (fun s => or_undefined (wm_get this (proxiedCursorToOriginal s))) in
  let* func := js_get original (PStr name) in
  let* result := invoke func original args in
  let* _ := modify (fun s => with_advanceResults (wm_set this result (advanceResults s)) s) in
  ret VUndefined.

(** [f.apply(this, args)] for every function the library hands out, except
    [iterate], whose generator is stepped by [resume] below. *)
Definition call (f this : value) (args : list value) : M value :=
  match f with
  | VReadMethod _ name => read_method name this args
  | VWriteMethod _ name => write_method name this args
  | VFacadeFn _ name => facade_advance name this args
  | VIterate => unsupported
  | _ => invoke f this args
  end.

(** ** Events (the listener bodies of lines 32-45 and 64-79) *)

Definition run_listener (l : listener) : M unit :=
  match l with
  | LSuccess request p =>
      let* result := native_read request (PStr "result") in
      let* w := wrap result in
      let* _ := resolve p w in
      let* _ := removeEventListener request "success" (LSuccess request p) in
      removeEventListener request "error" (LError request p)
  | LError request p =>
      let* error := native_read request (PStr "error") in
      let* _ := reject p error in
      let* _ := removeEventListener request "success" (LSuccess request p) in
      removeEventListener request "error" (LError request p)
  | LComplete tx p =>
      let* _ := resolve p VUndefined in
      let* _ := removeEventListener tx "complete" (LComplete tx p) in
      let* _ := removeEventListener tx "error" (LTxError tx p) in
      removeEventListener tx "abort" (LTxError tx p)
  | LTxError tx p =>
      let* error := native_read tx (PStr "error") in
      let* _ := reject p error in
      let* _ := removeEventListener tx "complete" (LComplete tx p) in
      let* _ := removeEventListener tx "error" (LTxError tx p) in
      removeEventListener tx "abort" (LTxError tx p)
  end.

(** The [then] callback of [promisifyRequest] (lines 47-53). *)
Definition run_job (j : reaction * value) : M unit :=
  match j with
  | (RCacheCursor request, v) =>
      if instance_of v KCursor
      then modify (fun s => with_cursorRequestMap (wm_set v request (cursorRequestMap s)) s)
      else ret tt
  end.

Fixpoint run_jobs (js : list (reaction * value)) : M unit :=
  match js with
  | [] => ret tt
  | j :: js' => let* _ := run_job j in run_jobs js'
  end.

(** The microtask checkpoint: the queued reactions run, in order. *)
Definition drain : M unit :=
  let* js := gets jobs in
  let* _ := modify (with_jobs []) in
  run_jobs js.

(** A listener that throws does not stop the dispatch. *)
Definition guarded (m : M unit) : M unit :=
  fun s => match m s with
           | (Throw _, s') => (Ret tt, s')
           | r => r
           end.

(** One listener of a dispatch: skipped if it was removed meanwhile; the
    microtask checkpoint follows its callback. *)
Definition fire (target : handle) (type : string) (l : listener) : M unit :=
  let* registered := gets (fun s => bool_decide (Registration target type l ∈ listeners s)) in
  if registered : bool
  then let* _ := guarded (run_listener l) in drain
  else ret tt.

Fixpoint run_listeners (target : handle) (type : string) (ls : list listener) : M unit :=
  match ls with
  | [] => ret tt
  | l :: ls' =>
      let* _ := fire target type l in
      run_listeners target type ls'
  end.

(** The engine fires [type] at [target]: the listeners registered at that
    moment run in registration order, unless removed meanwhile. *)
Definition dispatchEvent (target : handle) (type : string) : M unit :=
  let* ls := gets (fun s =>
    r_listener <$> filter (fun r => r_target r = target /\ r_type r = type) (listeners s)) in
  run_listeners target type ls.

(** ** The cursor iteration generator (iterate, lines 279-296) *)

(** Where the body of [iterate] is suspended. *)
Inductive gstate :=
  | GStart (this : value) (args : list value)          (* not started *)
  | GAwaitOpen (awaited : value)                       (* line 283 *)
  | GYield (proxiedCursor cursor : value)              (* line 291 *)
  | GAwaitAdvance (proxiedCursor awaited : value)      (* line 293 *)
  | GDone.

Inductive gevent :=
  | Yielded (v : value)
  | Waiting
  | Finished.

(** [await v]: nothing yet while a promise is pending. *)
Definition awaited (v : value) (s : state) : option (outcome value) :=
  match v with
  | VPromise p =>
      match promise_state s p with
      | Some (Resolved (VPromise _)) => Some Unsupported
      | Some (Resolved x) => Some (Ret x)
      | Some (Rejected e) => Some (Throw e)
      | Some Pending => None
      | None => Some Unsupported
      end
  | _ => Some (Ret v)
  end.

(** Lines 285-291: from the first cursor to the first [yield]. *)
Definition enter_loop (cursor : value) : M (gstate * gevent) :=
  if negb (truthy cursor) then ret (GDone, Finished)
  else if negb (is_object cursor) then throw TypeError
  else
    let* id := fresh in
    let proxiedCursor := VFacade id cursor in
    let* _ := modify (fun s => with_proxiedCursorToOriginal
                                 (wm_set proxiedCursor cursor (proxiedCursorToOriginal s)) s) in
    ret (GYield proxiedCursor cursor, Yielded proxiedCursor).

(** The body runs from its suspension point to the next one. *)
Definition resume (g : gstate) : M (gstate * gevent) :=
  match g with
  | GStart this args =>
      if instance_of this KCursor then enter_loop this
      else
        let* openCursor := js_get this (PStr "openCursor") in
        let* r := invoke openCursor this args in
        ret (GAwaitOpen r, Waiting)
  | GAwaitOpen a =>
      let* r := gets (awaited a) in
      match r with
      | None => ret (g, Waiting)
      | Some (Ret cursor) => enter_loop cursor
      | Some (Throw e) => throw e
      | Some Unsupported => unsupported
      end
  | GYield proxiedCursor cursor =>
      let* recorded := gets (fun s => or_undefined (wm_get proxiedCursor (advanceResults s))) in
      let* next :=
        (if truthy recorded then ret recorded
         else let* continue := js_get cursor (PStr "continue") in
              invoke continue cursor []) in
      ret (GAwaitAdvance proxiedCursor next, Waiting)
  | GAwaitAdvance proxiedCursor a =>
      let* r := gets (awaited a) in
      match r with
      | None => ret (g, Waiting)
      | Some (Ret cursor) =>
          let* _ := modify (fun s => with_advanceResults
                                       (wm_delete proxiedCursor (advanceResults s)) s) in
          if truthy cursor then ret (GYield proxiedCursor cursor, Yielded proxiedCursor)
          else ret (GDone, Finished)
      | Some (Throw e) => throw e
      | Some Unsupported => unsupported
      end
  | GDone => ret (GDone, Finished)
  end.

(** One step of a generator; an exception ends it. *)
Definition gen_step (g : gstate) (s : state) : gstate * gevent * state :=
  match resume g s with
  | (Ret (g', ev), s') => (g', ev, s')
  | (_, s') => (GDone, Finished, s')
  end.

(** ** Everything that can happen to the module *)

Inductive action :=
  | AWrap (v : value)
  | AGet (v : value) (p : prop)
  | ACall (f this : value) (args : list value)
  | ADispatch (target : handle) (type : string)
  | AResume (g : gstate)
  | AEngine (w : world).                 (* the engine changes by itself *)

Definition exec (a : action) (s : state) : state :=
  match a with
  | AWrap v => (wrap v s).2
  | AGet v p => (js_get v p s).2
  | ACall f this args => (call f this args s).2
  | ADispatch target type => (dispatchEvent target type s).2
  | AResume g => (resume g s).2
  | AEngine w => with_engine w s
  end.

Definition run (acts : list action) (s : state) : state :=
  foldl (fun s a => exec a s) s acts.

(** [wrap] applied to each value in turn; the values it returned. *)
Fixpoint wrap_all (vs : list value) (s : state) : list value * state :=
  match vs with
  | [] => ([], s)
  | v :: vs' =>
      match wrap v s with
      | (Ret w, s1) => let (ws, s2) := wrap_all vs' s1 in (w :: ws, s2)
      | (_, s1) => wrap_all vs' s1
      end
  end.

End Library.

Notation "'let*' x ':=' m 'in' k" := (bind m (fun x => k))
  (at level 10, x name, m at level 100, k at level 200).

(** ** A small storage engine

    A schema-less stand-in for IndexedDB, enough to run the library: native
    objects are numbered as they are created, a transaction remembers its
    scope, requests get their result or error from a table, and every native
    call is logged with its receiver and arguments. *)
Module Sample.

Record sworld := SWorld {
  w_next : nat;
  w_scope : list (nat * list string);      (* transaction number -> store names *)
  w_result : list (nat * value);           (* request number -> result *)
  w_error : list (nat * value);            (* request or transaction number -> error *)
  w_log : list (string * value * list value);
}.

Fixpoint lookup_nat {A} (k : nat) (m : list (nat * A)) : option A :=
  match m with
  | [] => None
  | (k', v) :: m' => if decide (k = k') then Some v else lookup_nat k m'
  end.

Definition method_names : list string :=
  ["transaction"; "objectStore"; "index"; "get"; "getKey"; "getAll"; "getAllKeys";
   "count"; "put"; "add"; "delete"; "clear"; "openCursor";
   "advance"; "continue"; "continuePrimaryKey"].

Fixpoint position (name : string) (l : list string) : option nat :=
  match l with
  | [] => None
  | x :: l' => if decide (name = x) then Some 0 else S <$> position name l'
  end.

(** The native function called [name]; unknown names share one number. *)
Definition fn (name : string) : handle :=
  Handle KFunction (default (length method_names) (position name method_names)).

Definition methods_of (k : kind) : list string :=
  match k with
  | KDatabase => ["transaction"]
  | KTransaction => ["objectStore"]
  | KObjectStore => ["index"; "get"; "getKey"; "getAll"; "getAllKeys"; "count";
                     "put"; "add"; "delete"; "clear"; "openCursor"]
  | KIndex => ["get"; "getKey"; "getAll"; "getAllKeys"; "count"; "openCursor"]
  | KCursor => ["advance"; "continue"; "continuePrimaryKey"]
  | _ => []
  end.

Definition attributes_of (k : kind) : list string :=
  match k with
  | KTransaction => ["objectStoreNames"; "error"]
  | KRequest => ["result"; "error"]
  | _ => []
  end.

Definition s_get (w : sworld) (h : handle) (p : prop) : value :=
  match p with
  | PSym _ => VUndefined
  | PStr name =>
      if bool_decide (name ∈ methods_of (hkind h)) then VNative (fn name)
      else if bool_decide (name = "objectStoreNames") && bool_decide (hkind h = KTransaction)
      then VStrings (default [] (lookup_nat (hid h) (w_scope w)))
      else if bool_decide (name = "result") && bool_decide (hkind h = KRequest)
      then default VUndefined (lookup_nat (hid h) (w_result w))
      else if bool_decide (name = "error")
      then default VNull (lookup_nat (hid h) (w_error w))
      else VUndefined
  end.

Definition s_has (w : sworld) (h : handle) (p : prop) : bool :=
  match p with
  | PSym _ => false
  | PStr name =>
      bool_decide (name ∈ methods_of (hkind h)) || bool_decide (name ∈ attributes_of (hkind h))
  end.

(** [ToString] of a name argument. *)
Definition to_name (v : value) : option string :=
  match v with
  | VStr s => Some s
  | VUndefined => Some "undefined"
  | VNull => Some "null"
  | _ => None
  end.

Definition logged (name : string) (this : value) (args : list value) (w : sworld) : sworld :=
  SWorld (w_next w) (w_scope w) (w_result w) (w_error w) (w_log w ++ [(name, this, args)]).

(** A new native object of kind [k]. *)
Definition create (k : kind) (w : sworld) : outcome value * sworld :=
  (Ret (VNative (Handle k (w_next w))),
   SWorld (S (w_next w)) (w_scope w) (w_result w) (w_error w) (w_log w)).

Definition s_call (f : handle) (this : value) (args : list value) (w : sworld)
    : outcome value * sworld :=
  match method_names !! hid f, this with
  | Some name, VNative h =>
      let w := logged name this args w in
      if negb (bool_decide (name ∈ methods_of (hkind h)))
      then (Throw TypeError, w)
      else if bool_decide (name = "transaction")
      then match hd VUndefined args with
           | VStr n =>
               (Ret (VNative (Handle KTransaction (w_next w))),
                SWorld (S (w_next w)) ((w_next w, [n]) :: w_scope w)
                  (w_result w) (w_error w) (w_log w))
           | VStrings (n :: l) =>
               (Ret (VNative (Handle KTransaction (w_next w))),
                SWorld (S (w_next w)) ((w_next w, n :: l) :: w_scope w)
                  (w_result w) (w_error w) (w_log w))
           | VStrings [] => (Throw (VError "InvalidAccessError"), w)
           | _ => (Throw (VError "NotFoundError"), w)
           end
      else if bool_decide (name = "objectStore")
      then match to_name (hd VUndefined args) with
           | Some n =>
               if bool_decide (n ∈ default [] (lookup_nat (hid h) (w_scope w)))
               then create KObjectStore w
               else (Throw (VError "NotFoundError"), w)
           | None => (Throw (VError "NotFoundError"), w)
           end
      else if bool_decide (name = "index") then create KIndex w
      else if bool_decide (name ∈ ["advance"; "continue"; "continuePrimaryKey"])
      then (Ret VUndefined, w)
      else create KRequest w
  | _, _ => (Throw TypeError, logged "?" this args w)
  end.

Definition indexeddb : Engine := {|
  world := sworld;
  native_get := s_get;
  native_has := s_has;
  native_call := s_call;
  cursor_proto name := VNative (fn name);
|}.

(** A world with a database (number 1), an upgrade transaction (number 2)
    over a database that has no store yet, and transactions over one store
    (number 3) and over two (number 4). *)
Definition db : handle := Handle KDatabase 1.
Definition upgrade_tx : handle := Handle KTransaction 2.
Definition books_tx : handle := Handle KTransaction 3.
Definition library_tx : handle := Handle KTransaction 4.
Definition w0 : sworld :=
  SWorld 5 [(2, []); (3, ["books"]); (4, ["authors"; "books"])] [] [] [].

Definition s0 : @state indexeddb := @loaded indexeddb w0.

End Sample.

(** * Properties *)

(** ** Invariants of the module's state *)

Section Invariants.
Context `{E : Engine}.

(** A library object whose identity was handed out before [n]. *)
Definition allocated (n : nat) (v : value) : Prop :=
  match v with
  | VProxy id _ _ | VPromise id | VWrappedFn id _ | VAdvanceFn id _ => id < n
  | _ => False
  end.

(** [w] is the kind of wrapper [transformCachableValue] builds for [k]. *)
Definition wraps (w k : value) : Prop :=
  match w with
  | VProxy _ h _ => k = VNative h /\ hkind h ∈ idbProxyableTypes
  | VWrappedFn _ f => k = f /\ is_function f = true /\ f ∉ cursorAdvanceMethods
  | VAdvanceFn _ f => k = f /\ is_function f = true /\ f ∈ cursorAdvanceMethods
  | _ => False
  end.

(** [p] is a pending future of request [r], as [promisifyRequest] leaves it. *)
Definition request_promise (s : state) (r : handle) (p : nat) : Prop :=
  wm_get (VPromise p) (reverseTransformCache s) = Some (VNative r)
  /\ promises s !! p = Some (Promise Pending [RCacheCursor (VNative r)]).

(** [p] is the pending completion future of transaction [t]. *)
Definition done_promise (s : state) (t : handle) (p : nat) : Prop :=
  wm_get (VNative t) (transactionDoneMap s) = Some (VPromise p)
  /\ promises s !! p = Some (Promise Pending []).

Definition request_listening (s : state) (r : handle) (p : nat) : Prop :=
  Registration r "success" (LSuccess r p) ∈ listeners s
  /\ Registration r "error" (LError r p) ∈ listeners s.

Definition tx_listening (s : state) (t : handle) (p : nat) : Prop :=
  Registration t "complete" (LComplete t p) ∈ listeners s
  /\ Registration t "error" (LTxError t p) ∈ listeners s
  /\ Registration t "abort" (LTxError t p) ∈ listeners s.

(** A registration is one the library made, and its promise is still pending. *)
Definition reg_ok (s : state) (reg : registration) : Prop :=
  match r_listener reg with
  | LSuccess r p => reg = Registration r "success" (LSuccess r p) /\ request_promise s r p
  | LError r p => reg = Registration r "error" (LError r p) /\ request_promise s r p
  | LComplete t p => reg = Registration t "complete" (LComplete t p) /\ done_promise s t p
  | LTxError t p =>
      (reg = Registration t "error" (LTxError t p) \/ reg = Registration t "abort" (LTxError t p))
      /\ done_promise s t p
  end.

Record wf (s : state) : Prop := {
  wf_cache : forall k w, wm_get k (transformCache s) = Some w ->
    wm_get w (reverseTransformCache s) = Some k /\ wraps w k;
  wf_reverse : forall w k, wm_get w (reverseTransformCache s) = Some k ->
    allocated (next_id s) w;
  wf_request : forall p k, wm_get (VPromise p) (reverseTransformCache s) = Some k ->
    exists r, k = VNative r /\ is_Some (promises s !! p)
              /\ (promise_state s p = Some Pending -> request_listening s r p);
  wf_tx_cached : forall t w, wm_get (VNative t) (transformCache s) = Some w ->
    hkind t = KTransaction -> is_Some (wm_get (VNative t) (transactionDoneMap s));
  wf_done : forall k x, wm_get k (transactionDoneMap s) = Some x ->
    exists t p, k = VNative t /\ x = VPromise p /\ is_Some (promises s !! p)
                /\ (promise_state s p = Some Pending -> tx_listening s t p);
  wf_done_inj : forall t t' p,
    wm_get (VNative t) (transactionDoneMap s) = Some (VPromise p) ->
    wm_get (VNative t') (transactionDoneMap s) = Some (VPromise p) -> t = t';
  wf_listeners : forall reg, reg ∈ listeners s -> reg_ok s reg;
  wf_promises : forall p x, promises s !! p = Some x -> p < next_id s;
  wf_jobs : jobs s = [];
}.

(** What every action of the module preserves of an earlier state. *)
Record grows (s s' : state) : Prop := {
  g_next : next_id s <= next_id s';
  g_cache : forall k w, wm_get k (transformCache s) = Some w ->
    wm_get k (transformCache s') = Some w;
  g_reverse : forall k w, wm_get k (reverseTransformCache s) = Some w ->
    wm_get k (reverseTransformCache s') = Some w;
  g_done : forall k w, wm_get k (transactionDoneMap s) = Some w ->
    wm_get k (transactionDoneMap s') = Some w;
  g_traps : idbProxyTraps s' = idbProxyTraps s;
  g_settled : forall p st, promise_state s p = Some st -> st <> Pending ->
    promise_state s' p = Some st;
}.

(** [m] keeps the invariant and only extends the state. *)
Definition ok {A} (m : M A) : Prop :=
  forall s, wf s -> wf (m s).2 /\ grows s (m s).2.

Definition listener_promise (l : listener) : nat :=
  match l with
  | LSuccess _ p | LError _ p | LComplete _ p | LTxError _ p => p
  end.

(** What a step that fires no event leaves alone: the promises and
    listeners that existed, the queue, the remembered cursor requests. *)
Record calm (s s' : state) : Prop := {
  c_cursor : cursorRequestMap s' = cursorRequestMap s;
  c_jobs : jobs s' = jobs s;
  c_promises : forall p, p < next_id s -> promises s' !! p = promises s !! p;
  c_keep : forall reg, reg ∈ listeners s -> reg ∈ listeners s';
  c_new : forall reg, reg ∈ listeners s' ->
    reg ∈ listeners s \/ next_id s <= listener_promise (r_listener reg);
}.

Definition quiet {A} (m : M A) : Prop :=
  forall s, wf s -> wf (m s).2 /\ grows s (m s).2 /\ calm s (m s).2.

End Invariants.

(** ** States and relations used by the proofs *)

Section Shapes.
Context `{E : Engine}.

(** Two states that agree on everything the invariant reads. *)
Definition same_core (s s' : state) : Prop :=
  next_id s' = next_id s
  /\ transformCache s' = transformCache s
  /\ reverseTransformCache s' = reverseTransformCache s
  /\ transactionDoneMap s' = transactionDoneMap s
  /\ promises s' = promises s
  /\ listeners s' = listeners s
  /\ jobs s' = jobs s
  /\ idbProxyTraps s' = idbProxyTraps s.

(** The state [promisifyRequest] leaves. *)
Definition promisified (r : handle) (s : state) : state :=
  let p := next_id s in
  State (S p) (engine s) (cursorRequestMap s) (transactionDoneMap s) (transformCache s)
    (wm_set (VPromise p) (VNative r) (reverseTransformCache s))
    (idbProxyTraps s) (cachedMethods s) (methodMap s) (advanceResults s)
    (proxiedCursorToOriginal s)
    (<[p := Promise Pending [RCacheCursor (VNative r)]]> (promises s))
    (listeners s ++ [Registration r "success" (LSuccess r p);
                     Registration r "error" (LError r p)])
    (jobs s).

(** The state [cacheDonePromiseForTransaction] leaves for a new transaction. *)
Definition done_added (t : handle) (s : state) : state :=
  let p := next_id s in
  State (S p) (engine s) (cursorRequestMap s)
    (wm_set (VNative t) (VPromise p) (transactionDoneMap s))
    (transformCache s) (reverseTransformCache s)
    (idbProxyTraps s) (cachedMethods s) (methodMap s) (advanceResults s)
    (proxiedCursorToOriginal s)
    (<[p := Promise Pending []]> (promises s))
    (listeners s ++ [Registration t "complete" (LComplete t p);
                     Registration t "error" (LTxError t p);
                     Registration t "abort" (LTxError t p)])
    (jobs s).

(** The state after a fresh wrapper [w] of [v] has been cached both ways. *)
Definition cached_as (v w : value) (s : state) : state :=
  State (S (next_id s)) (engine s) (cursorRequestMap s) (transactionDoneMap s)
    (wm_set v w (transformCache s)) (wm_set w v (reverseTransformCache s))
    (idbProxyTraps s) (cachedMethods s) (methodMap s) (advanceResults s)
    (proxiedCursorToOriginal s) (promises s) (listeners s) (jobs s).

(** The closure [wrapFunction] returns for [func]. *)
Definition function_wrapper (id : nat) (func : value) : value :=
  if bool_decide (func ∈ cursorAdvanceMethods) then VAdvanceFn id func
  else VWrappedFn id func.

(** A state in which promise [p] has just been settled with [st] and every
    listener for it has been removed. *)
Record settled (p : nat) (st : pstate) (s s' : state) : Prop := {
  st_next : next_id s' = next_id s;
  st_cache : transformCache s' = transformCache s;
  st_reverse : reverseTransformCache s' = reverseTransformCache s;
  st_done : transactionDoneMap s' = transactionDoneMap s;
  st_traps : idbProxyTraps s' = idbProxyTraps s;
  st_promises : promises s' = <[p := Promise st []]> (promises s);
  st_jobs : jobs s' = [];
  st_listeners : forall reg, reg ∈ listeners s' <->
    reg ∈ listeners s /\ listener_promise (r_listener reg) <> p;
}.

(** The listeners left once those of [regs] are removed, one by one. *)
Definition unlisten (regs : list registration) (l : list registration) : list registration :=
  foldl (fun l reg => filter (fun r => r <> reg) l) l regs.

(** The registrations made for a transaction's completion future and for a
    request's future. *)
Definition tx_registrations (t : handle) (p : nat) : list registration :=
  [Registration t "complete" (LComplete t p);
   Registration t "error" (LTxError t p);
   Registration t "abort" (LTxError t p)].

Definition request_registrations (r : handle) (p : nat) : list registration :=
  [Registration r "success" (LSuccess r p);
   Registration r "error" (LError r p)].

End Shapes.

(** ** Derived notions used in the statements *)

Section Derived.
Context `{E : Engine}.

(** A property no trap set intercepts: the read falls through to the base
    set, which wraps what the raw handle has. *)
Definition plain_read (w : world) (target : handle) (p : prop) : Prop :=
  isIteratorProp target p = false
  /\ potentialDatabaseExtra w target p = false
  /\ (hkind target = KTransaction -> p <> PStr "done" /\ p <> PStr "store").

(** [objectStoreNames] is a sorted list without duplicates: every name is
    strictly before the next one. *)
Fixpoint sorted_names (names : list string) : bool :=
  match names with
  | n0 :: (n1 :: _) as rest => String.ltb n0 n1 && sorted_names rest
  | _ => true
  end.

(** [names[0]]. *)
Definition first_name (names : list string) : value :=
  match names with
  | n :: _ => VStr n
  | [] => VUndefined
  end.

(** The read the specification describes for an index-suffixed method:
    open a read-only transaction on the store, open the named index on its
    store, call the base method with the remaining arguments. *)
Definition index_read_by_hand (base : string) (this storeName indexName : value)
    (rest : list value) : M value :=
  let* transaction := js_get this (PStr "transaction") in
  let* tx := invoke transaction this [storeName] in
  let* store := js_get tx (PStr "store") in
  let* index := js_get store (PStr "index") in
  let* target := invoke index store [indexName] in
  let* func := js_get target (PStr base) in
  invoke func target rest.

(** A run of one generator: between two steps the consumer and the engine
    may change the state in any way; the values yielded, in order. *)
Fixpoint gen_run (moves : list (state -> state)) (g : gstate) (s : state) : list value :=
  match moves with
  | [] => []
  | move :: moves' =>
      match gen_step g (move s) with
      | (g', Yielded v, s') => v :: gen_run moves' g' s'
      | (g', _, s') => gen_run moves' g' s'
      end
  end.

(** The facade a suspended generator holds. *)
Definition facade_of (g : gstate) : option value :=
  match g with
  | GYield proxiedCursor _ | GAwaitAdvance proxiedCursor _ => Some proxiedCursor
  | _ => None
  end.

Definition is_facade (v : value) : Prop := exists id cursor, v = VFacade id cursor.

End Derived.

(** ** Sample runs *)

Module SampleStore.
Import Sample.

Definition chain : traps := IteratorTraps (DatabaseExtras BaseTraps).

(** The sample module after [wrap] of the one-store transaction, and after
    [wrap] of the upgrade transaction. *)
Definition s_books : @state indexeddb := run [AWrap (VNative books_tx)] s0.
Definition s_upgrade : @state indexeddb := run [AWrap (VNative upgrade_tx)] s0.

(** The sample module after [wrap] of the database. *)
Definition s_db : @state indexeddb := run [AWrap (VNative db)] s0.

(** A request (number 9) whose result is a cursor (number 10): the module
    after [wrap] of the request and its success event. *)
Definition cursor_request : handle := Handle KRequest 9.
Definition first_cursor : handle := Handle KCursor 10.
Definition w_cursor : sworld := SWorld 11 (w_scope w0) [(9, VNative first_cursor)] [] [].
Definition cursor_acts : list (@action indexeddb) :=
  [AWrap (VNative cursor_request); @AEngine indexeddb w_cursor;
   ADispatch cursor_request "success"].
Definition s_cursor : @state indexeddb := run cursor_acts s0.

(** The same request with NaN as its result, as when the record read is
    the number NaN. *)
Definition w_nan : sworld := SWorld 11 (w_scope w0) [(9, VNaN)] [] [].
Definition nan_acts : list (@action indexeddb) :=
  [AWrap (VNative cursor_request); @AEngine indexeddb w_nan].
Definition s_nan : @state indexeddb := run nan_acts s0.

(** The request succeeds once more with the same cursor object ([arrive]),
    or with [null] at the end of the range ([finish]). *)
Definition w_end : sworld := SWorld 11 (w_scope w0) [(9, VNull)] [] [].
Definition arrive : @state indexeddb -> @state indexeddb :=
  exec (ADispatch cursor_request "success").
Definition finish (s : @state indexeddb) : @state indexeddb :=
  arrive (@with_engine indexeddb w_end s).

End SampleStore.

(** ** Invariants of the caches and method tables *)

Section Tables.
Context `{E : Engine}.

(** Two states with the same identity caches and the same method tables. *)
Definition same_tables (s s' : state) : Prop :=
  transformCache s' = transformCache s
  /\ reverseTransformCache s' = reverseTransformCache s
  /\ cachedMethods s' = cachedMethods s
  /\ methodMap s' = methodMap s
  /\ proxiedCursorToOriginal s' = proxiedCursorToOriginal s
  /\ idbProxyTraps s' = idbProxyTraps s.

(** [m] leaves the caches and method tables alone. *)
Definition frame {A} (m : M A) : Prop := forall s, same_tables s (m s).2.

(** [m] does not write the reverse cache. *)
Definition rframe {A} (m : M A) : Prop :=
  forall s, reverseTransformCache (m s).2 = reverseTransformCache s.

(** [m] keeps property [P] of the caches and method tables. *)
Definition inv (P : state -> Prop) {A} (m : M A) : Prop :=
  forall s, wf s -> P s -> P (m s).2.

(** The two identity caches mirror each other, except for the futures of
    requests, which only the reverse cache knows (lines 54-56). *)
Definition mirrored (s : state) : Prop :=
  forall w k, wm_get w (reverseTransformCache s) = Some k ->
    wm_get k (transformCache s) = Some w
    \/ exists p r, w = VPromise p /\ k = VNative r /\ hkind r = KRequest.

(** Every wrapper in the cache was made with the trap chain the module has
    after its two [addTraps] calls. *)
Definition full_chain : traps := IteratorTraps (DatabaseExtras BaseTraps).

Definition chained (s : state) : Prop :=
  idbProxyTraps s = full_chain
  /\ forall k id h t, wm_get k (transformCache s) = Some (VProxy id h t) -> t = full_chain.

(** The closure [getMethod] makes for [name]. *)
Definition method_for (name : string) (m : value) : Prop :=
  (exists id, m = VReadMethod id name /\ name ∈ readMethods)
  \/ (exists id, m = VWriteMethod id name /\ name ∈ writeMethods).

(** Every entry of [cachedMethods] is the closure for its name, and the
    entries [s0] had are still there. *)
Definition methods_from (s0 s : state) : Prop :=
  (forall name m, sm_get name (cachedMethods s) = Some m -> method_for name m)
  /\ (forall name m, sm_get name (cachedMethods s0) = Some m -> method_for name m ->
        sm_get name (cachedMethods s) = Some m).

(** The same for [methodMap], the advance methods of the iteration facades. *)
Definition facade_methods_from (s0 s : state) : Prop :=
  (forall name m, sm_get name (methodMap s) = Some m ->
     exists id, m = VFacadeFn id name /\ name ∈ advanceMethodProps)
  /\ (forall name id, sm_get name (methodMap s0) = Some (VFacadeFn id name) ->
        sm_get name (methodMap s) = Some (VFacadeFn id name)).

(** Every facade is mapped to the cursor it was made for. *)
Definition originals_from (s0 s : state) : Prop :=
  (forall k x, wm_get k (proxiedCursorToOriginal s) = Some x ->
     exists id, k = VFacade id x)
  /\ (forall k x, wm_get k (proxiedCursorToOriginal s0) = Some x ->
        wm_get k (proxiedCursorToOriginal s) = Some x).

End Tables.

(** ** The values [wrap] has returned

    The library once more, with a log: every call of [wrap], whether the
    caller's or one the library makes itself (in a [get] trap, in a wrapper
    function, in a success listener), appends the value it returns.  Nothing
    else writes the log; code that does not reach [wrap] is run as it is. *)

Section Logged.
Context `{E : Engine}.

(** The module's state and the values [wrap] has returned, oldest first. *)
Definition lstate : Type := state * list value.

Definition LM (A : Type) : Type := lstate -> outcome A * lstate.

Definition lret {A} (a : A) : LM A := fun sl => (Ret a, sl).

Definition lbind {A B} (m : LM A) (f : A -> LM B) : LM B :=
  fun sl => match m sl with
            | (Ret a, sl') => f a sl'
            | (Throw e, sl') => (Throw e, sl')
            | (Unsupported, sl') => (Unsupported, sl')
            end.

(** A computation that does not reach [wrap] leaves the log alone. *)
Definition lift {A} (m : M A) : LM A :=
  fun sl => let (o, s') := m sl.1 in (o, (s', sl.2)).

(** [wrap], logging what it returns. *)
Definition wrap_logged (v : value) : LM value :=
  fun sl => match wrap v sl.1 with
            | (Ret x, s') => (Ret x, (s', (sl.2 ++ [x])%list))
            | (o, s') => (o, (s', sl.2))
            end.

Notation "'let!' x ':=' m 'in' k" := (lbind m (fun x => k))
  (at level 10, x name, m at level 100, k at level 200).

Definition invoke_logged (f this : value) (args : list value) : LM value :=
  match f with
  | VAdvanceFn _ func =>
      let! originalCursor := lift (gets (unwrap this)) in
      let! _ := lift (apply_native func originalCursor args) in
      let! request := lift (gets (fun s => or_undefined (wm_get this (cursorRequestMap s)))) in
      wrap_logged request
  | VWrappedFn _ func =>
      let! originalParent := lift (gets (unwrap this)) in
      let! value := lift (apply_native func originalParent args) in
      wrap_logged value
  | _ => lift (invoke f this args)
  end.

Definition base_get_logged (recv_get : value -> prop -> LM value)
    (target : handle) (p : prop) (receiver : value) : LM value :=
  if bool_decide (hkind target = KTransaction) && bool_decide (p = PStr "done")
  then lift (gets (fun s => or_undefined (wm_get (VNative target) (transactionDoneMap s))))
  else if bool_decide (hkind target = KTransaction) && bool_decide (p = PStr "store")
  then
    let! names := lift (native_read target (PStr "objectStoreNames")) in
    let! second := lift (js_index names 1) in
    if truthy second then lret VUndefined
    else
      let! objectStore := recv_get receiver (PStr "objectStore") in
      let! names0 := lift (native_read target (PStr "objectStoreNames")) in
      let! first := lift (js_index names0 0) in
      invoke_logged objectStore receiver [first]
  else
    let! v := lift (native_read target p) in
    wrap_logged v.

Definition extras_get_logged (old_get : LM value) (target : handle) (p : prop) : LM value :=
  let! w := lift (gets engine) in
  if negb (potentialDatabaseExtra w target p) then old_get
  else match p with
       | PSym _ => old_get
       | PStr name =>
           let! cachedMethod := lift (gets (fun s => or_undefined (sm_get name (cachedMethods s)))) in
           if truthy cachedMethod then lret cachedMethod
           else
             let! method := lift (getMethod name) in
             if truthy method
             then
               let! _ := lift (modify (fun s =>
                                 with_cachedMethods ((name, method) :: cachedMethods s) s)) in
               lret method
             else old_get
       end.

Fixpoint traps_get_logged (recv_get : value -> prop -> LM value) (t : traps)
    (target : handle) (p : prop) (receiver : value) : LM value :=
  match t with
  | BaseTraps => base_get_logged recv_get target p receiver
  | DatabaseExtras oldTraps =>
      extras_get_logged (traps_get_logged recv_get oldTraps target p receiver) target p
  | IteratorTraps oldTraps =>
      if isIteratorProp target p then lret VIterate
      else traps_get_logged recv_get oldTraps target p receiver
  end.

Definition member_logged (recv_get : value -> prop -> LM value) (v : value) (p : prop)
    : LM value :=
  match v with
  | VProxy _ target t => traps_get_logged recv_get t target p v
  | _ => lift (member (fun _ _ => unsupported) v p)
  end.

Definition member_nested_logged : value -> prop -> LM value :=
  member_logged (fun _ _ => lift unsupported).

Definition facade_get_logged (target : value) (p : prop) : LM value :=
  match p with
  | PStr name =>
      if bool_decide (name ∈ advanceMethodProps)
      then lift (facade_get target p)
      else member_logged member_nested_logged target p
  | PSym _ => member_logged member_nested_logged target p
  end.

Definition js_get_logged (v : value) (p : prop) : LM value :=
  match v with
  | VFacade _ target => facade_get_logged target p
  | _ => member_logged member_nested_logged v p
  end.

Definition read_method_logged (name : string) (this : value) (arguments : list value)
    : LM value :=
  let storeName := hd VUndefined arguments in
  let args := tl arguments in
  let fromIndex := endsWith name "FromIndex" in
  let indexName := if fromIndex then hd VUndefined args else VStr "" in
  let args := if fromIndex then tl args else args in
  let targetFuncName := if fromIndex then slice_end name 9 else name in
  let! transaction := js_get_logged this (PStr "transaction") in
  let! tx := invoke_logged transaction this [storeName] in
  let! store := js_get_logged tx (PStr "store") in
  let! target :=
    (if truthy indexName
     then let! index := js_get_logged store (PStr "index") in
          invoke_logged index store [indexName]
     else lret store) in
  let! func := js_get_logged target (PStr targetFuncName) in
  invoke_logged func target args.

Definition write_method_logged (name : string) (this : value) (arguments : list value)
    : LM value :=
  let storeName := hd VUndefined arguments in
  let args := tl arguments in
  let! transaction := js_get_logged this (PStr "transaction") in
  let! tx := invoke_logged transaction this [storeName; VStr "readwrite"] in
  let! store := js_get_logged tx (PStr "store") in
  let! func := js_get_logged store (PStr name) in
  let! _ := invoke_logged func store args in
  js_get_logged tx (PStr "done").

Definition facade_advance_logged (name : string) (this : value) (args : list value)
    : LM value :=
  let! original := lift (gets (fun s => or_undefined (wm_get this (proxiedCursorToOriginal s)))) in
  let! func := js_get_logged original (PStr name) in
  let! result := invoke_logged func original args in
  let! _ := lift (modify (fun s => with_advanceResults (wm_set this result (advanceResults s)) s)) in
  lret VUndefined.

Definition call_logged (f this : value) (args : list value) : LM value :=
  match f with
  | VReadMethod _ name => read_method_logged name this args
  | VWriteMethod _ name => write_method_logged name this args
  | VFacadeFn _ name => facade_advance_logged name this args
  | VIterate => lift unsupported
  | _ => invoke_logged f this args
  end.

Definition run_listener_logged (l : listener) : LM unit :=
  match l with
  | LSuccess request p =>
      let! result := lift (native_read request (PStr "result")) in
      let! w := wrap_logged result in
      lift (let* _ := resolve p w in
            let* _ := removeEventListener request "success" (LSuccess request p) in
            removeEventListener request "error" (LError request p))
  | _ => lift (run_listener l)
  end.

Definition guarded_logged (m : LM unit) : LM unit :=
  fun sl => match m sl with
            | (Throw _, sl') => (Ret tt, sl')
            | r => r
            end.

Definition fire_logged (target : handle) (type : string) (l : listener) : LM unit :=
  let! registered := lift (gets (fun s => bool_decide (Registration target type l ∈ listeners s))) in
  if registered : bool
  then let! _ := guarded_logged (run_listener_logged l) in lift drain
  else lret tt.

Fixpoint run_listeners_logged (target : handle) (type : string) (ls : list listener)
    : LM unit :=
  match ls with
  | [] => lret tt
  | l :: ls' =>
      let! _ := fire_logged target type l in
      run_listeners_logged target type ls'
  end.

Definition dispatchEvent_logged (target : handle) (type : string) : LM unit :=
  let! ls := lift (gets (fun s =>
    r_listener <$> filter (fun r => r_target r = target /\ r_type r = type) (listeners s))) in
  run_listeners_logged target type ls.

Definition resume_logged (g : gstate) : LM (gstate * gevent) :=
  match g with
  | GStart this args =>
      if instance_of this KCursor then lift (enter_loop this)
      else
        let! openCursor := js_get_logged this (PStr "openCursor") in
        let! r := invoke_logged openCursor this args in
        lret (GAwaitOpen r, Waiting)
  | GYield proxiedCursor cursor =>
      let! recorded := lift (gets (fun s => or_undefined (wm_get proxiedCursor (advanceResults s)))) in
      let! next :=
        (if truthy recorded then lret recorded
         else let! continue := js_get_logged cursor (PStr "continue") in
              invoke_logged continue cursor []) in
      lret (GAwaitAdvance proxiedCursor next, Waiting)
  | _ => lift (resume g)
  end.

Definition exec_logged (a : action) (sl : lstate) : lstate :=
  match a with
  | AWrap v => (wrap_logged v sl).2
  | AGet v p => (js_get_logged v p sl).2
  | ACall f this args => (call_logged f this args sl).2
  | ADispatch target type => (dispatchEvent_logged target type sl).2
  | AResume g => (resume_logged g sl).2
  | AEngine w => (with_engine w sl.1, sl.2)
  end.

Definition run_logged (acts : list action) (sl : lstate) : lstate :=
  foldl (fun sl a => exec_logged a sl) sl acts.

(** The values [wrap] returned while the module, loaded over [w], did [acts]. *)
Definition produced (acts : list action) (w : world) : list value :=
  (run_logged acts (loaded w, [])).2.

(** The logged computation does what the plain one does. *)
Definition erases {A} (m' : LM A) (m : M A) : Prop :=
  forall s l, ((m' (s, l)).1, (m' (s, l)).2.1) = m s.

(** Every key of the reverse cache is in the log. *)
Definition covered (sl : lstate) : Prop :=
  forall v k, wm_get v (reverseTransformCache sl.1) = Some k -> v ∈ sl.2.

Definition sound {A} (m' : LM A) (m : M A) : Prop :=
  erases m' m /\ forall sl, wf sl.1 -> covered sl -> covered (m' sl).2.

End Logged.

Notation "'let!' x ':=' m 'in' k" := (lbind m (fun x => k))
  (at level 10, x name, m at level 100, k at level 200).

(** * Proofs *)

Section Basics.
Context `{E : Engine}.

Lemma wm_get_set k k' v m :
  wm_get k (wm_set k' v m) = if decide (k = k') then Some v else wm_get k m.
Proof. reflexivity. Qed.

Lemma grows_refl s : grows s s.
Proof. split; auto. Qed.

Lemma grows_trans s1 s2 s3 : grows s1 s2 -> grows s2 s3 -> grows s1 s3.
Proof.
  intros [] []. split; eauto.
  - lia.
  - congruence.
Qed.

Lemma same_core_wf s s' : same_core s s' -> wf s -> wf s'.
Proof.
  intros (Hn & Htc & Hrtc & Htdm & Hp & Hl & Hj & _) [].
  split; unfold promise_state, request_listening, tx_listening, reg_ok,
    request_promise, done_promise in *;
    rewrite ?Hn, ?Htc, ?Hrtc, ?Htdm, ?Hp, ?Hl, ?Hj; auto.
Qed.

Lemma same_core_grows s s' : same_core s s' -> grows s s'.
Proof.
  intros (Hn & Htc & Hrtc & Htdm & Hp & Hl & Hj & Ht).
  split; unfold promise_state; rewrite ?Hn, ?Htc, ?Hrtc, ?Htdm, ?Hp, ?Hl, ?Hj; auto.
Qed.

Lemma ok_ret {A} (a : A) : ok (ret a).
Proof. intros s Hs. split; [done | apply grows_refl]. Qed.

Lemma ok_throw {A} e : ok (@throw _ A e).
Proof. intros s Hs. split; [done | apply grows_refl]. Qed.

Lemma ok_unsupported {A} : ok (@unsupported _ A).
Proof. intros s Hs. split; [done | apply grows_refl]. Qed.

Lemma ok_gets {A} (f : state -> A) : ok (gets f).
Proof. intros s Hs. split; [done | apply grows_refl]. Qed.

Lemma ok_bind {A B} (m : M A) (f : A -> M B) :
  ok m -> (forall a, ok (f a)) -> ok (bind m f).
Proof.
  intros Hm Hf s Hs. unfold bind.
  destruct (Hm s Hs) as [Hw Hg]. destruct (m s) as [[a|e|] s1]; simpl in *; auto.
  destruct (Hf a s1 Hw) as [Hw2 Hg2]. split; [done | by eapply grows_trans].
Qed.

Lemma ok_modify (f : state -> state) :
  (forall s, same_core s (f s)) -> ok (modify f).
Proof.
  intros Hf s Hs. simpl. split; [by eapply same_core_wf | by apply same_core_grows].
Qed.

End Basics.

Ltac unfold_with :=
  unfold with_next_id, with_engine, with_cursorRequestMap, with_transactionDoneMap,
    with_transformCache, with_reverseTransformCache, with_idbProxyTraps,
    with_cachedMethods, with_methodMap, with_advanceResults,
    with_proxiedCursorToOriginal, with_promises, with_listeners, with_jobs in *;
  simpl in *.

Section Wrap.
Context `{E : Engine}.

Lemma bind_eq {A B} (m : M A) (f : A -> M B) s a s1 :
  m s = (Ret a, s1) -> bind m f s = f a s1.
Proof. intros H. unfold bind. by rewrite H. Qed.

Lemma new_promise_eq s :
  new_promise s =
  (Ret (next_id s),
   with_promises (<[next_id s := Promise Pending []]> (promises s))
     (with_next_id (S (next_id s)) s)).
Proof. reflexivity. Qed.

Lemma addEventListener_new t ty l s :
  Registration t ty l ∉ listeners s ->
  addEventListener t ty l s =
  (Ret tt, with_listeners (listeners s ++ [Registration t ty l]) s).
Proof.
  intros H. unfold addEventListener, modify. by rewrite bool_decide_eq_false_2.
Qed.

Lemma listener_fresh s reg :
  wf s -> reg ∈ listeners s ->
  match r_listener reg with
  | LSuccess _ p | LError _ p | LComplete _ p | LTxError _ p => p < next_id s
  end.
Proof.
  intros Hs Hreg. pose proof (wf_listeners s Hs reg Hreg) as Hok.
  unfold reg_ok, request_promise, done_promise in Hok.
  destruct (r_listener reg); destruct Hok as (_ & _ & Hp);
    by apply (wf_promises s Hs) in Hp.
Qed.

Lemma not_registered s t ty l :
  wf s ->
  match l with
  | LSuccess _ p | LError _ p | LComplete _ p | LTxError _ p => next_id s <= p
  end ->
  Registration t ty l ∉ listeners s.
Proof.
  intros Hs Hl Hin. apply (listener_fresh s _ Hs) in Hin. simpl in Hin.
  destruct l; lia.
Qed.

Lemma promisifyRequest_native r s :
  wf s ->
  promisifyRequest (VNative r) s = (Ret (VPromise (next_id s)), promisified r s).
Proof.
  intros Hs. unfold promisifyRequest.
  erewrite bind_eq by apply new_promise_eq.
  erewrite bind_eq.
  2:{ apply addEventListener_new. simpl. apply not_registered; simpl; auto. }
  erewrite bind_eq.
  2:{ apply addEventListener_new. simpl. rewrite elem_of_app. intros [Hin|Hin].
      - revert Hin. apply not_registered; simpl; auto.
      - apply list_elem_of_singleton in Hin. discriminate. }
  unfold add_reaction, modify, bind, ret. simpl. rewrite lookup_insert_eq. simpl.
  unfold promisified. f_equal. unfold_with. f_equal.
  - by rewrite insert_insert_eq.
  - by rewrite <- app_assoc.
Qed.


End Wrap.

Section Wrap.
Context `{E : Engine}.

Lemma allocated_mono n m v : n <= m -> allocated n v -> allocated m v.
Proof. destruct v; simpl; auto; lia. Qed.

Lemma wraps_not_promise w k : wraps w k -> forall p, w <> VPromise p.
Proof. destruct w; simpl; try done. Qed.

Lemma wf_promisified r s : wf s -> wf (promisified r s) /\ grows s (promisified r s).
Proof.
  intros Hs. pose proof Hs as [Hc Hr Hq Ht Hd Hi Hl Hp Hj].
  assert (Hfresh : promises s !! next_id s = None).
  { destruct (promises s !! next_id s) eqn:Heq; [|done]. apply Hp in Heq. lia. }
  assert (Hold : forall p, is_Some (promises s !! p) -> p <> next_id s).
  { intros p [x Hx] ->. congruence. }
  split; [split|split]; unfold promisified; simpl.
  - intros k w Hk. destruct (Hc k w Hk) as [Hw Hwr]. split; [|done].
    case_decide as Heq; [|done].
    by apply wraps_not_promise with (p := next_id s) in Hwr.
  - intros w k. case_decide as Heq.
    + intros _. subst w. simpl. lia.
    + intros Hw. apply Hr in Hw. eapply allocated_mono; [|done]. lia.
  - intros p k. unfold promise_state, request_listening. simpl.
    case_decide as Heq.
    + intros [= <-]. inversion Heq; subst p. exists r. rewrite lookup_insert_eq.
      split; [done|]. split; [by eexists|]. intros _.
      split; rewrite elem_of_app, !elem_of_cons; auto.
    + intros Hk. destruct (Hq p k Hk) as (r0 & -> & Hsome & Hpend).
      exists r0. rewrite lookup_insert_ne by (symmetry; by apply Hold).
      split; [done|]. split; [done|]. intros Hpd. destruct (Hpend Hpd).
      split; apply elem_of_app; by left.
  - done.
  - intros k x Hk. destruct (Hd k x Hk) as (t & p & -> & -> & Hsome & Hpend).
    exists t, p. unfold promise_state, tx_listening in *. simpl.
    rewrite lookup_insert_ne by (symmetry; by apply Hold).
    split; [done|]. split; [done|]. split; [done|]. intros Hpd.
    destruct (Hpend Hpd) as (? & ? & ?). repeat split; apply elem_of_app; by left.
  - done.
  - intros reg. rewrite elem_of_app. intros [Hin|Hin].
    + pose proof (Hl reg Hin) as Hok. unfold reg_ok, request_promise, done_promise in *.
      simpl. destruct (r_listener reg) as [r0 p|r0 p|t p|t p];
        destruct Hok as (Hreg & Hm & Hpr); (split; [done|]);
        rewrite lookup_insert_ne by (symmetry; apply Hold; by eexists);
        (split; [|done]); try done.
      all: case_decide as Heq; [|done]; inversion Heq; subst p;
        exfalso; eapply Hold; [by eexists|done].
    + unfold reg_ok, request_promise. simpl.
      rewrite !elem_of_cons, elem_of_nil in Hin. destruct Hin as [-> | [-> | []]].
      all: simpl; rewrite decide_True by done;
        by rewrite lookup_insert_eq.
  - intros p x. rewrite lookup_insert. case_decide.
    + intros _. subst p. lia.
    + intros Hx. apply Hp in Hx. lia.
  - done.
  - lia.
  - done.
  - intros k w Hk. case_decide as Heq; [|done].
    subst k. apply Hr in Hk. simpl in Hk. lia.
  - done.
  - done.
  - intros p st. unfold promise_state. simpl. intros Hst _.
    rewrite lookup_insert_ne; [done|].
    symmetry. apply Hold. destruct (promises s !! p); [by eexists|done].
Qed.


Lemma wm_has_false k m : wm_get k m = None -> wm_has k m = false.
Proof.
  intros H. unfold wm_has. rewrite H. apply bool_decide_eq_false_2.
  by intros [? ?].
Qed.

Lemma wm_has_true k m v : wm_get k m = Some v -> wm_has k m = true.
Proof. intros H. unfold wm_has. rewrite H. apply bool_decide_eq_true_2. by eexists. Qed.

Lemma cacheDone_native t s :
  wf s -> wm_get (VNative t) (transactionDoneMap s) = None ->
  cacheDonePromiseForTransaction (VNative t) s = (Ret tt, done_added t s).
Proof.
  intros Hs Hnone. unfold cacheDonePromiseForTransaction.
  erewrite bind_eq by reflexivity. simpl. rewrite (wm_has_false _ _ Hnone).
  erewrite bind_eq by apply new_promise_eq.
  erewrite bind_eq.
  2:{ apply addEventListener_new. simpl. apply not_registered; simpl; auto. }
  erewrite bind_eq.
  2:{ apply addEventListener_new. simpl. rewrite elem_of_app, !elem_of_cons, elem_of_nil.
      intros [Hin|[Hin|[]]]; [|discriminate].
      revert Hin. apply not_registered; simpl; auto. }
  erewrite bind_eq.
  2:{ apply addEventListener_new. simpl. rewrite !elem_of_app, !elem_of_cons, !elem_of_nil.
      intros [[Hin|[Hin|[]]]|[Hin|[]]]; [|discriminate..].
      revert Hin. apply not_registered; simpl; auto. }
  unfold modify, done_added. f_equal. unfold_with. f_equal.
  by rewrite <- !app_assoc.
Qed.

Lemma cacheDone_known tx s :
  is_Some (wm_get tx (transactionDoneMap s)) ->
  cacheDonePromiseForTransaction tx s = (Ret tt, s).
Proof.
  intros [v Hv]. unfold cacheDonePromiseForTransaction.
  erewrite bind_eq by reflexivity. simpl. by rewrite (wm_has_true _ _ _ Hv).
Qed.

Lemma wf_done_added t s :
  wf s -> wm_get (VNative t) (transactionDoneMap s) = None ->
  wf (done_added t s) /\ grows s (done_added t s).
Proof.
  intros Hs Hnone. pose proof Hs as [Hc Hr Hq Ht Hd Hi Hl Hp Hj].
  assert (Hold : forall p, is_Some (promises s !! p) -> p <> next_id s).
  { intros p [x Hx] ->. apply Hp in Hx. lia. }
  split; [split|split]; unfold done_added; simpl.
  - done.
  - intros w k Hw. apply Hr in Hw. eapply allocated_mono; [|done]. lia.
  - intros p k Hk. destruct (Hq p k Hk) as (r0 & -> & Hsome & Hpend).
    exists r0. unfold promise_state, request_listening in *. simpl.
    rewrite lookup_insert_ne by (symmetry; by apply Hold).
    split; [done|]. split; [done|]. intros Hpd. destruct (Hpend Hpd).
    split; apply elem_of_app; by left.
  - intros t0 w Hw Hk. case_decide; [by eexists|]. by eapply Ht.
  - intros k x. unfold promise_state, tx_listening. simpl. case_decide as Heq.
    + intros [= <-]. subst k. exists t, (next_id s). rewrite lookup_insert_eq.
      split; [done|]. split; [done|]. split; [by eexists|]. intros _.
      rewrite !elem_of_app, !elem_of_cons. auto 10.
    + intros Hk. destruct (Hd k x Hk) as (t0 & p & -> & -> & Hsome & Hpend).
      exists t0, p. rewrite lookup_insert_ne by (symmetry; by apply Hold).
      split; [done|]. split; [done|]. split; [done|]. intros Hpd.
      destruct (Hpend Hpd) as (? & ? & ?). rewrite !elem_of_app. auto.
  - intros t1 t2 p. repeat case_decide; simplify_eq; try done.
    + intros [= <-] Hx. apply Hd in Hx as (? & ? & ? & ? & Hsome & _). simplify_eq.
      by apply Hold in Hsome.
    + intros Hx [= <-]. apply Hd in Hx as (? & ? & ? & ? & Hsome & _). simplify_eq.
      by apply Hold in Hsome.
    + apply Hi.
  - intros reg. rewrite elem_of_app. intros [Hin|Hin].
    + pose proof (Hl reg Hin) as Hok. unfold reg_ok, request_promise, done_promise in *.
      simpl. destruct (r_listener reg) as [r0 p|r0 p|t0 p|t0 p];
        destruct Hok as (Hreg & Hm & Hpr); (split; [done|]);
        rewrite lookup_insert_ne by (symmetry; apply Hold; by eexists);
        (split; [|done]); try done.
      all: case_decide as Heq; [|done]; congruence.
    + unfold reg_ok, done_promise. simpl.
      rewrite !elem_of_cons, elem_of_nil in Hin.
      destruct Hin as [-> | [-> | [-> | []]]].
      all: simpl; rewrite decide_True by done; rewrite lookup_insert_eq; auto.
  - intros p x. rewrite lookup_insert. case_decide.
    + intros _. subst p. lia.
    + intros Hx. apply Hp in Hx. lia.
  - done.
  - lia.
  - done.
  - done.
  - intros k w Hk. case_decide as Heq; [|done]. congruence.
  - done.
  - intros p st. unfold promise_state. simpl. intros Hst _.
    rewrite lookup_insert_ne; [done|].
    symmetry. apply Hold. destruct (promises s !! p); [by eexists|done].
Qed.

Lemma ok_cacheDone tx : ok (cacheDonePromiseForTransaction tx).
Proof.
  intros s Hs. destruct (wm_get tx (transactionDoneMap s)) eqn:Hget.
  - rewrite cacheDone_known by (by eexists). simpl. split; [done|apply grows_refl].
  - destruct tx; try (unfold cacheDonePromiseForTransaction, bind, gets; simpl;
      rewrite (wm_has_false _ _ Hget); simpl; split; [done|apply grows_refl]).
    rewrite cacheDone_native by done. simpl. by apply wf_done_added.
Qed.

End Wrap.

Section Wrap.
Context `{E : Engine}.

Lemma wf_cached_as v w s :
  wf s -> wm_get v (transformCache s) = None -> wraps w v ->
  ~ allocated (next_id s) w -> allocated (S (next_id s)) w ->
  (forall t, v = VNative t -> hkind t = KTransaction ->
             is_Some (wm_get v (transactionDoneMap s))) ->
  wf (cached_as v w s) /\ grows s (cached_as v w s).
Proof.
  intros Hs Hnone Hwr Hnew Hal Htx. pose proof Hs as [Hc Hr Hq Ht Hd Hi Hl Hp Hj].
  assert (Hrw : forall x, is_Some (wm_get x (reverseTransformCache s)) -> x <> w).
  { intros x [k Hx] ->. by apply Hr in Hx. }
  split; [split|split]; unfold cached_as; simpl.
  - intros k w0. case_decide as Hk.
    + intros [= <-]. subst k. by rewrite decide_True.
    + intros Hk0. destruct (Hc k w0 Hk0) as [Hw0 Hwr0]. split; [|done].
      rewrite decide_False; [done|]. apply Hrw. by eexists.
  - intros w0 k. case_decide as Hk.
    + intros _. by subst w0.
    + intros Hw. apply Hr in Hw. eapply allocated_mono; [|done]. lia.
  - intros p k. rewrite decide_False by (intros Heq; by eapply wraps_not_promise in Hwr).
    apply Hq.
  - intros t w0. case_decide as Hk.
    + intros _ Hkind. rewrite Hk. by apply (Htx t).
    + apply Ht.
  - done.
  - done.
  - intros reg Hin. pose proof (Hl reg Hin) as Hok.
    unfold reg_ok, request_promise, done_promise in *. simpl.
    destruct (r_listener reg);
      rewrite ?decide_False by (intros Heq; by eapply wraps_not_promise in Hwr); done.
  - intros p x Hx. apply Hp in Hx. lia.
  - done.
  - lia.
  - intros k w0 Hk. rewrite decide_False; [done|]. congruence.
  - intros k w0 Hk. rewrite decide_False; [done|]. apply Hrw. by eexists.
  - done.
  - done.
  - done.
Qed.

Lemma no_self_wrap v id : VWrappedFn id v <> v /\ VAdvanceFn id v <> v.
Proof.
  revert id. induction v; intros id0; split; try discriminate.
  - intros [= -> Heq]. by destruct (IHv id) as [H1 _].
  - intros [= -> Heq]. by destruct (IHv id) as [_ H2].
Qed.

Lemma function_not_instance v k : is_function v = true -> k <> KFunction -> instance_of v k = false.
Proof.
  destruct v; simpl; try done.
  intros Hf%bool_decide_eq_true_1 Hk. apply bool_decide_eq_false_2. congruence.
Qed.

Lemma function_wrapper_wraps id f :
  is_function f = true -> wraps (function_wrapper id f) f.
Proof.
  intros Hf. unfold function_wrapper. case_bool_decide; simpl; auto.
Qed.

Lemma wrap_cached v w s :
  instance_of v KRequest = false -> wm_get v (transformCache s) = Some w ->
  wrap v s = (Ret w, s).
Proof. intros Hi Hc. unfold wrap, bind, gets. by rewrite Hi, Hc. Qed.

Lemma strict_ne_true a b : a <> b -> strict_ne a b = true.
Proof. intros H. unfold strict_ne. by rewrite bool_decide_eq_true_2. Qed.

Lemma function_object v : is_function v = true -> is_object v = true.
Proof. by destruct v. Qed.

(** The two [set] calls of [wrap] for an object [v] and its new wrapper [w]. *)
Lemma cache_pair v w s :
  is_object v = true -> is_object w = true ->
  bind (weak_set v (fun s => with_transformCache (wm_set v w (transformCache s)) s))
    (fun _ => weak_set w (fun s =>
       with_reverseTransformCache (wm_set w v (reverseTransformCache s)) s)) s
  = (Ret tt, with_reverseTransformCache (wm_set w v (reverseTransformCache s))
               (with_transformCache (wm_set v w (transformCache s)) s)).
Proof. intros Hv Hw. unfold weak_set, bind, modify. by rewrite Hv, Hw. Qed.

Lemma wrap_function v s :
  is_function v = true -> wm_get v (transformCache s) = None ->
  wrap v s = (Ret (function_wrapper (next_id s) v),
              cached_as v (function_wrapper (next_id s) v) s).
Proof.
  intros Hf Hc. unfold wrap, bind, gets.
  rewrite function_not_instance by done. rewrite Hc.
  unfold transformCachableValue. rewrite Hf. unfold wrapFunction, bind, fresh.
  pose proof (function_object v Hf) as Ho.
  unfold function_wrapper. case_bool_decide; unfold ret; cbn beta iota.
  - rewrite strict_ne_true by apply no_self_wrap. unfold weak_set, modify.
    by rewrite Ho.
  - rewrite strict_ne_true by apply no_self_wrap. unfold weak_set, modify.
    by rewrite Ho.
Qed.

Lemma proxyable_instance h :
  instanceOfAny (VNative h) idbProxyableTypes = bool_decide (hkind h ∈ idbProxyableTypes).
Proof.
  unfold instanceOfAny, idbProxyableTypes. simpl.
  by destruct (hkind h).
Qed.

Lemma proxyable_kinds h :
  hkind h ∈ idbProxyableTypes -> hkind h <> KRequest /\ hkind h <> KFunction.
Proof.
  unfold idbProxyableTypes. rewrite !elem_of_cons, elem_of_nil.
  intuition congruence.
Qed.

Lemma wrap_handle h s :
  hkind h ∈ idbProxyableTypes -> hkind h <> KTransaction ->
  wm_get (VNative h) (transformCache s) = None ->
  wrap (VNative h) s =
  (Ret (VProxy (next_id s) h (idbProxyTraps s)),
   cached_as (VNative h) (VProxy (next_id s) h (idbProxyTraps s)) s).
Proof.
  intros Hk Ht Hc. destruct (proxyable_kinds h Hk) as [Hr Hf].
  unfold wrap, bind, gets. cbn [instance_of]. rewrite bool_decide_eq_false_2 by done.
  rewrite Hc. unfold transformCachableValue. cbn [is_function instance_of].
  rewrite !bool_decide_eq_false_2 by done.
  unfold bind, ret. rewrite proxyable_instance, bool_decide_eq_true_2 by done.
  unfold fresh, gets. cbn [idbProxyTraps with_next_id]. rewrite strict_ne_true by done.
  unfold weak_set, modify. done.
Qed.

Lemma wrap_transaction t s :
  wf s -> hkind t = KTransaction ->
  wm_get (VNative t) (transformCache s) = None ->
  wm_get (VNative t) (transactionDoneMap s) = None ->
  wrap (VNative t) s =
  (Ret (VProxy (S (next_id s)) t (idbProxyTraps s)),
   cached_as (VNative t) (VProxy (S (next_id s)) t (idbProxyTraps s)) (done_added t s)).
Proof.
  intros Hs Hk Hc Hd.
  unfold wrap, bind, gets. cbn [instance_of]. rewrite bool_decide_eq_false_2 by congruence.
  rewrite Hc. unfold transformCachableValue. cbn [is_function instance_of].
  rewrite bool_decide_eq_false_2 by congruence.
  rewrite bool_decide_eq_true_2 by done.
  unfold bind. rewrite cacheDone_native by done.
  rewrite proxyable_instance, bool_decide_eq_true_2
    by (rewrite Hk; unfold idbProxyableTypes; rewrite !elem_of_cons; auto 10).
  unfold fresh, gets, ret. cbn [idbProxyTraps with_next_id done_added].
  rewrite strict_ne_true by done. unfold weak_set, modify. done.
Qed.

Lemma wrap_request r s :
  wf s -> hkind r = KRequest ->
  wrap (VNative r) s = (Ret (VPromise (next_id s)), promisified r s).
Proof.
  intros Hs Hk. unfold wrap. simpl. rewrite bool_decide_eq_true_2 by done.
  by apply promisifyRequest_native.
Qed.

End Wrap.

Section Wrap.
Context `{E : Engine}.

Lemma wrap_transaction_known t s :
  hkind t = KTransaction ->
  wm_get (VNative t) (transformCache s) = None ->
  is_Some (wm_get (VNative t) (transactionDoneMap s)) ->
  wrap (VNative t) s =
  (Ret (VProxy (next_id s) t (idbProxyTraps s)),
   cached_as (VNative t) (VProxy (next_id s) t (idbProxyTraps s)) s).
Proof.
  intros Hk Hc Hd.
  unfold wrap, bind, gets. cbn [instance_of]. rewrite bool_decide_eq_false_2 by congruence.
  rewrite Hc. unfold transformCachableValue. cbn [is_function instance_of].
  rewrite bool_decide_eq_false_2 by congruence.
  rewrite bool_decide_eq_true_2 by done.
  unfold bind. rewrite cacheDone_known by done.
  rewrite proxyable_instance, bool_decide_eq_true_2
    by (rewrite Hk; unfold idbProxyableTypes; rewrite !elem_of_cons; auto 10).
  unfold fresh, gets, ret. cbn [idbProxyTraps with_next_id].
  rewrite strict_ne_true by done. unfold weak_set, modify. done.
Qed.

Lemma strict_ne_same v : v <> VNaN -> strict_ne v v = false.
Proof.
  intros Hv. unfold strict_ne.
  rewrite (bool_decide_eq_false_2 (v <> v)) by (intros Hne; by apply Hne).
  by rewrite bool_decide_eq_false_2.
Qed.

(** Values that are neither wrapped nor recorded: anything but a function,
    a request or a proxyable handle. *)
Lemma wrap_passes h s :
  hkind h ∉ idbProxyableTypes -> hkind h <> KRequest -> hkind h <> KFunction ->
  wm_get (VNative h) (transformCache s) = None ->
  wrap (VNative h) s = (Ret (VNative h), s).
Proof.
  intros Hk Hr Hf Hc.
  unfold wrap, bind, gets. cbn [instance_of]. rewrite bool_decide_eq_false_2 by congruence.
  rewrite Hc. unfold transformCachableValue. cbn [is_function instance_of].
  rewrite bool_decide_eq_false_2 by congruence.
  rewrite bool_decide_eq_false_2.
  2:{ intros Ht. apply Hk. rewrite Ht. unfold idbProxyableTypes.
      rewrite !elem_of_cons. auto 10. }
  unfold bind, ret. rewrite proxyable_instance, bool_decide_eq_false_2 by done.
  by rewrite strict_ne_same.
Qed.

Lemma wrap_inert v s :
  is_function v = false -> (forall h, v <> VNative h) -> (wrap v s).2 = s.
Proof.
  intros Hf Hn. unfold wrap.
  destruct (instance_of v KRequest).
  { unfold promisifyRequest. destruct v; try done. by destruct (Hn h). }
  unfold bind at 1, gets. destruct (wm_get v (transformCache s)); [done|].
  unfold transformCachableValue. rewrite Hf.
  assert (Hdone : forall b : bool,
            (if b then cacheDonePromiseForTransaction v else ret tt) s = (Ret tt, s)
            \/ (if b then cacheDonePromiseForTransaction v else ret tt) s = (Unsupported, s)).
  { intros [|]; [|by left]. unfold cacheDonePromiseForTransaction, bind, gets.
    destruct (wm_has v (transactionDoneMap s)); [by left|].
    destruct v; try (by right). by destruct (Hn h). }
  unfold bind at 1 2.
  destruct (Hdone (instance_of v KTransaction)) as [-> | ->]; [|done].
  destruct (instanceOfAny v idbProxyableTypes).
  { destruct v; try done. by destruct (Hn h). }
  unfold ret. cbn beta iota.
  destruct (decide (v = VNaN)) as [->|Hv]; [done|].
  by rewrite strict_ne_same.
Qed.

(** The four ways [wrap] can leave the state. *)
Lemma wrap_cases v s :
  wf s ->
  (wrap v s).2 = s
  \/ (exists r, v = VNative r /\ hkind r = KRequest
                /\ wrap v s = (Ret (VPromise (next_id s)), promisified r s))
  \/ (exists w, wm_get v (transformCache s) = None /\ wraps w v
                /\ ~ allocated (next_id s) w /\ allocated (S (next_id s)) w
                /\ (forall t, v = VNative t -> hkind t = KTransaction ->
                              is_Some (wm_get v (transactionDoneMap s)))
                /\ wrap v s = (Ret w, cached_as v w s))
  \/ (exists t, v = VNative t /\ hkind t = KTransaction
                /\ wm_get v (transformCache s) = None
                /\ wm_get v (transactionDoneMap s) = None
                /\ wrap v s = (Ret (VProxy (S (next_id s)) t (idbProxyTraps s)),
                               cached_as v (VProxy (S (next_id s)) t (idbProxyTraps s))
                                 (done_added t s))).
Proof.
  intros Hs.
  destruct (is_function v) eqn:Hf.
  { destruct (wm_get v (transformCache s)) eqn:Hc.
    - left. by rewrite (wrap_cached v v0) by (by apply function_not_instance || done).
    - right. right. left. exists (function_wrapper (next_id s) v).
      split; [done|]. split; [by apply function_wrapper_wraps|].
      split; [unfold function_wrapper; case_bool_decide; simpl; lia|].
      split; [unfold function_wrapper; case_bool_decide; simpl; lia|].
      split; [|by apply wrap_function].
      intros t -> Ht. simpl in Hf. apply bool_decide_eq_true_1 in Hf. congruence. }
  destruct v; try (left; by rewrite wrap_inert by done).
  destruct (decide (hkind h = KRequest)) as [Hr|Hr].
  { right. left. exists h. split; [done|]. split; [done|]. by apply wrap_request. }
  destruct (wm_get (VNative h) (transformCache s)) eqn:Hc.
  { left. by rewrite (wrap_cached _ v) by (simpl; by rewrite ?bool_decide_eq_false_2). }
  simpl in Hf. apply bool_decide_eq_false_1 in Hf.
  destruct (decide (hkind h ∈ idbProxyableTypes)) as [Hk|Hk].
  2:{ left. by rewrite wrap_passes by done. }
  destruct (decide (hkind h = KTransaction)) as [Ht|Ht].
  2:{ right. right. left. exists (VProxy (next_id s) h (idbProxyTraps s)).
      repeat split; try done; simpl; try lia;
        try (by intros t [= <-]); by apply wrap_handle. }
  destruct (wm_get (VNative h) (transactionDoneMap s)) eqn:Hd.
  - right. right. left. exists (VProxy (next_id s) h (idbProxyTraps s)).
    repeat split; try done; simpl; try lia;
      try (intros t [= <-] _; by eexists).
    apply wrap_transaction_known; done.
  - right. right. right. exists h. repeat split; try done. by apply wrap_transaction.
Qed.

Lemma ok_wrap v : ok (wrap v).
Proof.
  intros s Hs.
  destruct (wrap_cases v s Hs)
    as [-> | [(r & -> & Hr & ->) | [(w & Hc & Hw & Hn & Ha & Ht & ->)
                                  | (t & -> & Hk & Hc & Hd & ->)]]]; simpl.
  - split; [done|apply grows_refl].
  - by apply wf_promisified.
  - by apply wf_cached_as.
  - destruct (wf_done_added t s Hs Hd) as [Hw Hg].
    assert (Hprox : hkind t ∈ idbProxyableTypes).
    { rewrite Hk. unfold idbProxyableTypes. rewrite !elem_of_cons. auto 10. }
    destruct (wf_cached_as (VNative t) (VProxy (S (next_id s)) t (idbProxyTraps s))
                (done_added t s)) as [Hw2 Hg2]; try done; simpl; try lia;
      try (intros t0 [= <-] _; rewrite decide_True by done; by eexists).
    split; [done|]. by eapply grows_trans.
Qed.

End Wrap.

Section Quiet.
Context `{E : Engine}.

Lemma calm_refl s : calm s s.
Proof. split; auto. Qed.

Lemma calm_trans s1 s2 s3 :
  next_id s1 <= next_id s2 -> calm s1 s2 -> calm s2 s3 -> calm s1 s3.
Proof.
  intros Hn [Hc1 Hj1 Hp1 Hk1 Hn1] [Hc2 Hj2 Hp2 Hk2 Hn2]. split; try congruence; auto.
  - intros p Hp. rewrite Hp2 by lia. auto.
  - intros reg Hreg. destruct (Hn2 reg Hreg) as [?|?]; [auto|right; lia].
Qed.

Lemma same_core_calm s s' :
  same_core s s' -> cursorRequestMap s' = cursorRequestMap s -> calm s s'.
Proof.
  intros (Hn & Htc & Hrtc & Htdm & Hp & Hl & Hj & _) Hc.
  split; rewrite ?Hp, ?Hl; auto.
Qed.

Lemma quiet_ok {A} (m : M A) : quiet m -> ok m.
Proof. intros H s Hs. destruct (H s Hs) as (? & ? & ?). done. Qed.

Lemma quiet_ret {A} (a : A) : quiet (ret a).
Proof. intros s Hs. split; [done|]. split; [apply grows_refl|apply calm_refl]. Qed.

Lemma quiet_throw {A} e : quiet (@throw _ A e).
Proof. intros s Hs. split; [done|]. split; [apply grows_refl|apply calm_refl]. Qed.

Lemma quiet_unsupported {A} : quiet (@unsupported _ A).
Proof. intros s Hs. split; [done|]. split; [apply grows_refl|apply calm_refl]. Qed.

Lemma quiet_gets {A} (f : state -> A) : quiet (gets f).
Proof. intros s Hs. split; [done|]. split; [apply grows_refl|apply calm_refl]. Qed.

Lemma quiet_bind {A B} (m : M A) (f : A -> M B) :
  quiet m -> (forall a, quiet (f a)) -> quiet (bind m f).
Proof.
  intros Hm Hf s Hs. unfold bind.
  destruct (Hm s Hs) as (Hw & Hg & Hc). destruct (m s) as [[a|e|] s1]; simpl in *; auto.
  destruct (Hf a s1 Hw) as (Hw2 & Hg2 & Hc2). split; [done|].
  split; [by eapply grows_trans|]. eapply calm_trans; [|done..]. apply Hg.
Qed.

Lemma quiet_modify (f : state -> state) :
  (forall s, same_core s (f s)) ->
  (forall s, cursorRequestMap (f s) = cursorRequestMap s) ->
  quiet (modify f).
Proof.
  intros Hf Hc s Hs. simpl. split; [by eapply same_core_wf|].
  split; [by apply same_core_grows|by apply same_core_calm].
Qed.

Lemma quiet_fresh : quiet fresh.
Proof.
  intros s Hs. destruct Hs as [Hc Hr Hq Ht Hd Hi Hl Hp Hj]. simpl.
  split; [split|split; split]; simpl; auto.
  - intros w k Hw. apply Hr in Hw. eapply allocated_mono; [|done]. lia.
  - intros p x Hx. apply Hp in Hx. lia.
Qed.

Lemma calm_promisified r s : wf s -> calm s (promisified r s).
Proof.
  intros Hs. split; unfold promisified; simpl; auto.
  - intros p Hp. rewrite lookup_insert_ne; [done|lia].
  - intros reg Hreg. apply elem_of_app. by left.
  - intros reg. rewrite elem_of_app, !elem_of_cons, elem_of_nil.
    intros [?|[->|[->|[]]]]; simpl; auto.
Qed.

Lemma calm_done_added t s : calm s (done_added t s).
Proof.
  split; unfold done_added; simpl; auto.
  - intros p Hp. rewrite lookup_insert_ne; [done|lia].
  - intros reg Hreg. apply elem_of_app. by left.
  - intros reg. rewrite elem_of_app, !elem_of_cons, elem_of_nil.
    intros [?|[->|[->|[->|[]]]]]; simpl; auto.
Qed.

Lemma calm_cached_as v w s : calm s (cached_as v w s).
Proof. split; unfold cached_as; simpl; auto. Qed.

Lemma quiet_wrap v : quiet (wrap v).
Proof.
  intros s Hs. destruct (ok_wrap v s Hs) as [Hw Hg]. split; [done|]. split; [done|].
  destruct (wrap_cases v s Hs)
    as [-> | [(r & -> & Hr & ->) | [(w & Hc & Hw' & Hn & Ha & Ht & ->)
                                  | (t & -> & Hk & Hc & Hd & ->)]]]; simpl.
  - apply calm_refl.
  - by apply calm_promisified.
  - apply calm_cached_as.
  - eapply calm_trans; [|apply calm_done_added|apply calm_cached_as]. simpl. lia.
Qed.

(** [wrap] never touches the engine. *)
Lemma wrap_engine v s : wf s -> engine (wrap v s).2 = engine s.
Proof.
  intros Hs.
  by destruct (wrap_cases v s Hs)
    as [-> | [(r & -> & Hr & ->) | [(w & Hc & Hw' & Hn & Ha & Ht & ->)
                                  | (t & -> & Hk & Hc & Hd & ->)]]].
Qed.

Lemma quiet_apply_native func this args : quiet (apply_native func this args).
Proof.
  intros s Hs. unfold apply_native. destruct func; try apply quiet_unsupported; try done.
  destruct (native_call h this args (engine s)) as [r w]. simpl.
  assert (Hsame : same_core s (with_engine w s)) by (by repeat split).
  split; [by eapply same_core_wf|].
  split; [by apply same_core_grows|by apply same_core_calm].
Qed.

End Quiet.

Create HintDb quiet.
#[global] Hint Resolve quiet_ret quiet_throw quiet_unsupported quiet_gets quiet_fresh
  quiet_wrap quiet_apply_native : quiet.

(** Breaks a monadic program into its steps. *)
Ltac quiet_steps :=
  repeat first
    [ progress eauto with quiet
    | apply quiet_bind; [|intros ?]
    | apply quiet_modify; [intros ?; by repeat split | by intros ?]
    | match goal with
      | |- quiet (if ?b then _ else _) => destruct b
      | |- quiet (match ?x with _ => _ end) => destruct x
      end ].

Section Quiet2.
Context `{E : Engine}.

Lemma quiet_invoke f this args : quiet (invoke f this args).
Proof. unfold invoke. quiet_steps. Qed.

Lemma quiet_js_index v i : quiet (js_index v i).
Proof. unfold js_index. quiet_steps. Qed.

Lemma quiet_native_read h p : quiet (native_read h p).
Proof. unfold native_read. quiet_steps. Qed.

Hint Resolve quiet_invoke quiet_js_index quiet_native_read : quiet.

Lemma quiet_base_get recv_get target p receiver :
  (forall v q, quiet (recv_get v q)) -> quiet (base_get recv_get target p receiver).
Proof. intros Hr. unfold base_get. quiet_steps. Qed.

Lemma quiet_getMethod name : quiet (getMethod name).
Proof. unfold getMethod. quiet_steps. Qed.

Hint Resolve quiet_base_get quiet_getMethod : quiet.

Lemma quiet_extras_get old target p : quiet old -> quiet (extras_get old target p).
Proof. intros Ho. unfold extras_get. quiet_steps. Qed.

Lemma quiet_traps_get recv_get t target p receiver :
  (forall v q, quiet (recv_get v q)) -> quiet (traps_get recv_get t target p receiver).
Proof.
  intros Hr. induction t; simpl.
  - by apply quiet_base_get.
  - by apply quiet_extras_get.
  - quiet_steps.
Qed.

Lemma quiet_member recv_get v p :
  (forall v q, quiet (recv_get v q)) -> quiet (member recv_get v p).
Proof. intros Hr. unfold member. destruct v; quiet_steps. by apply quiet_traps_get. Qed.

Lemma quiet_member_nested v p : quiet (member_nested v p).
Proof. apply quiet_member. intros. apply quiet_unsupported. Qed.

Hint Resolve quiet_member_nested quiet_member : quiet.

Lemma quiet_facade_get target p : quiet (facade_get target p).
Proof. unfold facade_get. quiet_steps. Qed.

Hint Resolve quiet_facade_get : quiet.

Lemma quiet_js_get v p : quiet (js_get v p).
Proof. unfold js_get. destruct v; quiet_steps. Qed.

Hint Resolve quiet_js_get : quiet.

Lemma quiet_read_method name this args : quiet (read_method name this args).
Proof. unfold read_method. quiet_steps. Qed.

Lemma quiet_write_method name this args : quiet (write_method name this args).
Proof. unfold write_method. quiet_steps. Qed.

Lemma quiet_facade_advance name this args : quiet (facade_advance name this args).
Proof. unfold facade_advance. quiet_steps. Qed.

Hint Resolve quiet_read_method quiet_write_method quiet_facade_advance : quiet.

Lemma quiet_call f this args : quiet (call f this args).
Proof. unfold call. destruct f; quiet_steps. Qed.

Lemma quiet_enter_loop cursor : quiet (enter_loop cursor).
Proof. unfold enter_loop. quiet_steps. Qed.

Hint Resolve quiet_enter_loop : quiet.

Lemma quiet_resume g : quiet (resume g).
Proof. unfold resume. destruct g; quiet_steps. Qed.

End Quiet2.

Section Events.
Context `{E : Engine}.

Lemma reg_promise s reg :
  wf s -> reg ∈ listeners s ->
  exists rs, promises s !! listener_promise (r_listener reg) = Some (Promise Pending rs).
Proof.
  intros Hs Hin. pose proof (wf_listeners s Hs reg Hin) as Hok.
  unfold reg_ok, request_promise, done_promise in Hok.
  destruct (r_listener reg); simpl; destruct Hok as (_ & _ & ->); by eexists.
Qed.

Lemma wf_settled p st rs s s' :
  wf s -> promises s !! p = Some (Promise Pending rs) -> st <> Pending ->
  settled p st s s' -> wf s' /\ grows s s'.
Proof.
  intros Hs Hp Hst [Hn Htc Hrtc Htdm Htr Hpr Hj Hl].
  pose proof Hs as [Hc Hr Hq Ht Hd Hi Hls Hps _].
  assert (Hother : forall q, q <> p -> promises s' !! q = promises s !! q).
  { intros q Hne. rewrite Hpr. by rewrite lookup_insert_ne. }
  assert (Hpend : forall q, promise_state s' q = Some Pending ->
                            q <> p /\ promise_state s q = Some Pending).
  { intros q. unfold promise_state. destruct (decide (q = p)) as [->|Hne].
    - rewrite Hpr, lookup_insert_eq. simpl. congruence.
    - by rewrite Hother. }
  assert (Hsome : forall q, is_Some (promises s !! q) -> is_Some (promises s' !! q)).
  { intros q Hsq. rewrite Hpr, lookup_insert. by case_decide. }
  split; [split|split]; rewrite ?Hn, ?Htc, ?Hrtc, ?Htdm, ?Htr; auto.
  - intros q k Hk. destruct (Hq q k Hk) as (r0 & -> & Hs0 & Hl0). exists r0.
    split; [done|]. split; [by apply Hsome|]. intros [Hne Hpd]%Hpend.
    destruct (Hl0 Hpd). split; apply Hl; by split.
  - intros k x Hk. destruct (Hd k x Hk) as (t0 & q & -> & -> & Hs0 & Hl0). exists t0, q.
    split; [done|]. split; [done|]. split; [by apply Hsome|]. intros [Hne Hpd]%Hpend.
    destruct (Hl0 Hpd) as (? & ? & ?). repeat split; apply Hl; by split.
  - intros reg [Hin Hne]%Hl. pose proof (Hls reg Hin) as Hok.
    unfold reg_ok, request_promise, done_promise in *. rewrite ?Hrtc, ?Htdm.
    destruct (r_listener reg); simpl in Hne; by rewrite Hother.
  - intros q x. rewrite Hpr, lookup_insert. case_decide.
    + intros _. subst q. by apply Hps in Hp.
    + apply Hps.
  - intros q st0. unfold promise_state. intros Hsq Hne.
    rewrite Hother; [done|]. intros ->. rewrite Hp in Hsq. simpl in Hsq. congruence.
Qed.

(** Only its own two listeners mention the promise of a request. *)
Lemma request_mentions s r p reg :
  wf s -> request_promise s r p -> reg ∈ listeners s ->
  listener_promise (r_listener reg) = p ->
  reg = Registration r "success" (LSuccess r p)
  \/ reg = Registration r "error" (LError r p).
Proof.
  intros Hs [Hr Hp] Hin Hlp. pose proof (wf_listeners s Hs reg Hin) as Hok.
  unfold reg_ok, request_promise, done_promise in Hok.
  destruct (r_listener reg); simpl in Hlp; subst p0;
    destruct Hok as (Hreg & Hm & Hpr); simplify_eq; auto.
Qed.

Lemma tx_mentions s t p reg :
  wf s -> done_promise s t p -> reg ∈ listeners s ->
  listener_promise (r_listener reg) = p ->
  reg = Registration t "complete" (LComplete t p)
  \/ reg = Registration t "error" (LTxError t p)
  \/ reg = Registration t "abort" (LTxError t p).
Proof.
  intros Hs [Hr Hp] Hin Hlp. pose proof (wf_listeners s Hs reg Hin) as Hok.
  unfold reg_ok, request_promise, done_promise in Hok.
  destruct (r_listener reg); simpl in Hlp; subst p0;
    destruct Hok as (Hreg & Hm & Hpr); simplify_eq.
  - pose proof (wf_done_inj s Hs _ _ _ Hr Hm). subst. auto.
  - pose proof (wf_done_inj s Hs _ _ _ Hr Hm). subst. destruct Hreg; auto.
Qed.

Lemma run_jobs_frame js s :
  let s' := (run_jobs js s).2 in
  (run_jobs js s).1 = Ret tt /\ same_core s s' /\ engine s' = engine s.
Proof.
  revert s. induction js as [|[[request] v] js IH]; intros s; simpl.
  - by repeat split.
  - unfold bind. simpl. destruct (instance_of v KCursor); simpl.
    + destruct (IH (with_cursorRequestMap
                      (wm_set v request (cursorRequestMap s)) s)) as (-> & Hsame & He).
      split; [done|]. split; [apply Hsame|apply He].
    + apply IH.
Qed.

Lemma drain_frame s :
  let s' := (drain s).2 in
  (drain s).1 = Ret tt /\ same_core (with_jobs [] s) s' /\ engine s' = engine s.
Proof. unfold drain, bind, gets, modify. apply (run_jobs_frame (jobs s) (with_jobs [] s)). Qed.

End Events.

Section Events.
Context `{E : Engine}.

Lemma resolve_pending p v rs s :
  promises s !! p = Some (Promise Pending rs) ->
  resolve p v s =
  (Ret tt, with_jobs (jobs s ++ map (fun r => (r, v)) rs)
             (with_promises (<[p := Promise (Resolved v) []]> (promises s)) s)).
Proof. intros H. unfold resolve, modify. by rewrite H. Qed.

Lemma reject_pending p e rs s :
  promises s !! p = Some (Promise Pending rs) ->
  reject p e s =
  (Ret tt, with_promises (<[p := Promise (Rejected e) []]> (promises s)) s).
Proof. intros H. unfold reject, modify. by rewrite H. Qed.

Lemma registered_true s reg :
  reg ∈ listeners s -> bool_decide (reg ∈ listeners s) = true.
Proof. apply bool_decide_eq_true_2. Qed.

Lemma guarded_ret (m : M unit) s s' : m s = (Ret tt, s') -> guarded m s = (Ret tt, s').
Proof. intros H. unfold guarded. by rewrite H. Qed.

Lemma elem_of_unlisten regs l reg :
  reg ∈ unlisten regs l <-> reg ∈ l /\ reg ∉ regs.
Proof.
  revert l. induction regs as [|x regs IH]; intros l; simpl.
  - rewrite elem_of_nil. tauto.
  - rewrite IH, list_elem_of_filter, elem_of_cons. tauto.
Qed.

Lemma run_complete t p s :
  promises s !! p = Some (Promise Pending []) ->
  run_listener (LComplete t p) s =
  (Ret tt, with_listeners (unlisten (tx_registrations t p) (listeners s))
             (with_promises (<[p := Promise (Resolved VUndefined) []]> (promises s)) s)).
Proof.
  intros Hp. unfold run_listener.
  erewrite bind_eq by (by eapply resolve_pending).
  unfold removeEventListener. repeat (erewrite bind_eq by reflexivity).
  unfold modify. f_equal. unfold_with. f_equal. by rewrite app_nil_r.
Qed.

Lemma run_tx_error t p s :
  promises s !! p = Some (Promise Pending []) ->
  run_listener (LTxError t p) s =
  (Ret tt, with_listeners (unlisten (tx_registrations t p) (listeners s))
             (with_promises
                (<[p := Promise (Rejected (native_get (engine s) t (PStr "error"))) []]>
                   (promises s)) s)).
Proof.
  intros Hp. unfold run_listener, native_read.
  erewrite bind_eq by reflexivity.
  erewrite bind_eq by (by eapply reject_pending).
  unfold removeEventListener. repeat (erewrite bind_eq by reflexivity).
  unfold modify. f_equal.
Qed.

Lemma run_error r p rs s :
  promises s !! p = Some (Promise Pending rs) ->
  run_listener (LError r p) s =
  (Ret tt, with_listeners (unlisten (request_registrations r p) (listeners s))
             (with_promises
                (<[p := Promise (Rejected (native_get (engine s) r (PStr "error"))) []]>
                   (promises s)) s)).
Proof.
  intros Hp. unfold run_listener, native_read.
  erewrite bind_eq by reflexivity.
  erewrite bind_eq by (by eapply reject_pending).
  unfold removeEventListener. repeat (erewrite bind_eq by reflexivity).
  unfold modify. f_equal.
Qed.

Lemma run_success r p rs w s s1 :
  wrap (native_get (engine s) r (PStr "result")) s = (Ret w, s1) ->
  promises s1 !! p = Some (Promise Pending rs) ->
  run_listener (LSuccess r p) s =
  (Ret tt, with_listeners (unlisten (request_registrations r p) (listeners s1))
             (with_jobs (jobs s1 ++ map (fun x => (x, w)) rs)
                (with_promises (<[p := Promise (Resolved w) []]> (promises s1)) s1))).
Proof.
  intros Hw Hp. unfold run_listener, native_read.
  erewrite bind_eq by reflexivity.
  erewrite bind_eq by apply Hw.
  erewrite bind_eq by (by eapply resolve_pending).
  unfold removeEventListener. repeat (erewrite bind_eq by reflexivity).
  unfold modify. f_equal.
Qed.

(** After the callback and the microtask checkpoint the queue is empty and
    nothing but the cursor-request map has moved. *)
Lemma then_drain (m : M unit) s s2 :
  m s = (Ret tt, s2) ->
  exists s', bind (guarded m) (fun _ => drain) s = (Ret tt, s')
    /\ same_core (with_jobs [] s2) s' /\ engine s' = engine s2.
Proof.
  intros Hm. erewrite bind_eq by (by apply guarded_ret).
  destruct (drain_frame s2) as (Hr & Hsame & He).
  destruct (drain s2) as [o s'] eqn:Hd. simpl in *. subst o.
  by exists s'.
Qed.

End Events.

Section Events.
Context `{E : Engine}.

Lemma settled_intro p st regs s s2 s' :
  same_core (with_jobs [] s2) s' ->
  next_id s2 = next_id s -> transformCache s2 = transformCache s ->
  reverseTransformCache s2 = reverseTransformCache s ->
  transactionDoneMap s2 = transactionDoneMap s ->
  idbProxyTraps s2 = idbProxyTraps s ->
  promises s2 = <[p := Promise st []]> (promises s) ->
  listeners s2 = unlisten regs (listeners s) ->
  (forall reg, reg ∈ listeners s ->
     listener_promise (r_listener reg) = p <-> reg ∈ regs) ->
  settled p st s s'.
Proof.
  intros (Hn & Htc & Hrtc & Htdm & Hpr & Hl & Hj & Htr) Hn2 Htc2 Hrtc2 Htdm2 Htr2 Hp2 Hl2 Hregs.
  simpl in *. split; try congruence.
  intros reg. rewrite Hl, Hl2, elem_of_unlisten. split.
  - intros [Hin Hnot]. split; [done|]. intros Hlp. apply Hnot. by apply Hregs.
  - intros [Hin Hne]. split; [done|]. intros Hreg. apply Hne. by apply Hregs.
Qed.

Lemma tx_registrations_iff s t p reg :
  wf s -> done_promise s t p -> reg ∈ listeners s ->
  listener_promise (r_listener reg) = p <-> reg ∈ tx_registrations t p.
Proof.
  intros Hs Hdp Hin. unfold tx_registrations. rewrite !elem_of_cons, elem_of_nil. split.
  - intros Hlp. destruct (tx_mentions s t p reg Hs Hdp Hin Hlp) as [-> | [-> | ->]]; auto.
  - intros [-> | [-> | [-> | []]]]; done.
Qed.

Lemma request_registrations_iff s r p reg :
  wf s -> request_promise s r p -> reg ∈ listeners s ->
  listener_promise (r_listener reg) = p <-> reg ∈ request_registrations r p.
Proof.
  intros Hs Hdp Hin. unfold request_registrations. rewrite !elem_of_cons, elem_of_nil. split.
  - intros Hlp. destruct (request_mentions s r p reg Hs Hdp Hin Hlp) as [-> | ->]; auto.
  - intros [-> | [-> | []]]; done.
Qed.

(** The completion listener of a transaction. *)
Lemma fire_complete t p s :
  wf s -> Registration t "complete" (LComplete t p) ∈ listeners s ->
  exists s', fire t "complete" (LComplete t p) s = (Ret tt, s')
    /\ settled p (Resolved VUndefined) s s' /\ engine s' = engine s.
Proof.
  intros Hs Hin. pose proof (wf_listeners s Hs _ Hin) as [_ Hdp]. simpl in Hdp.
  pose proof Hdp as [Hd Hp].
  unfold fire. erewrite bind_eq by reflexivity. cbn beta. rewrite registered_true by done.
  destruct (then_drain _ s _ (run_complete t p s Hp)) as (s' & -> & Hsame & He).
  exists s'. split; [done|]. split; [|done].
  eapply settled_intro; try done.
  intros reg Hreg. by apply (tx_registrations_iff s).
Qed.

(** The failure listener of a transaction, for its error or abort event. *)
Lemma fire_tx_error t p ty s :
  wf s -> Registration t ty (LTxError t p) ∈ listeners s ->
  exists s', fire t ty (LTxError t p) s = (Ret tt, s')
    /\ settled p (Rejected (native_get (engine s) t (PStr "error"))) s s'
    /\ engine s' = engine s.
Proof.
  intros Hs Hin. pose proof (wf_listeners s Hs _ Hin) as [_ Hdp]. simpl in Hdp.
  pose proof Hdp as [Hd Hp].
  unfold fire. erewrite bind_eq by reflexivity. cbn beta. rewrite registered_true by done.
  destruct (then_drain _ s _ (run_tx_error t p s Hp)) as (s' & -> & Hsame & He).
  exists s'. split; [done|]. split; [|done].
  eapply settled_intro; try done.
  intros reg Hreg. by apply (tx_registrations_iff s).
Qed.

(** The failure listener of a request. *)
Lemma fire_error r p s :
  wf s -> Registration r "error" (LError r p) ∈ listeners s ->
  exists s', fire r "error" (LError r p) s = (Ret tt, s')
    /\ settled p (Rejected (native_get (engine s) r (PStr "error"))) s s'
    /\ engine s' = engine s.
Proof.
  intros Hs Hin. pose proof (wf_listeners s Hs _ Hin) as [_ Hdp]. simpl in Hdp.
  pose proof Hdp as [Hd Hp].
  unfold fire. erewrite bind_eq by reflexivity. cbn beta. rewrite registered_true by done.
  destruct (then_drain _ s _ (run_error r p _ s Hp)) as (s' & -> & Hsame & He).
  exists s'. split; [done|]. split; [|done].
  eapply settled_intro; try done.
  intros reg Hreg. by apply (request_registrations_iff s).
Qed.

(** The success listener of a request whose result [wrap] accepts. *)
Lemma fire_success r p w s s1 :
  wf s -> Registration r "success" (LSuccess r p) ∈ listeners s ->
  wrap (native_get (engine s) r (PStr "result")) s = (Ret w, s1) ->
  exists s', fire r "success" (LSuccess r p) s = (Ret tt, s')
    /\ settled p (Resolved w) s1 s' /\ engine s' = engine s
    /\ wf s' /\ grows s s'
    /\ (instance_of w KCursor = true ->
        wm_get w (cursorRequestMap s') = Some (VNative r)).
Proof.
  intros Hs Hin Hw. pose proof (wf_listeners s Hs _ Hin) as [_ Hdp]. simpl in Hdp.
  pose proof Hdp as [Hd Hp].
  destruct (quiet_wrap (native_get (engine s) r (PStr "result")) s Hs) as (Hs1 & Hg & Hc).
  pose proof (wrap_engine (native_get (engine s) r (PStr "result")) s Hs) as He1.
  rewrite Hw in Hs1, Hg, Hc, He1. simpl in *.
  assert (Hp1 : promises s1 !! p = Some (Promise Pending [RCacheCursor (VNative r)])).
  { rewrite (c_promises _ _ Hc); [done|]. by apply (wf_promises s Hs) in Hp. }
  assert (Hdp1 : request_promise s1 r p).
  { split; [|done]. by apply (g_reverse _ _ Hg). }
  unfold fire. erewrite bind_eq by reflexivity. cbn beta. rewrite registered_true by done.
  pose proof (run_success r p _ w s s1 Hw Hp1) as Hrun.
  unfold bind at 1. rewrite (guarded_ret _ _ _ Hrun).
  unfold drain. erewrite bind_eq by reflexivity. erewrite bind_eq by reflexivity.
  simpl. rewrite (wf_jobs s1 Hs1). simpl. unfold bind. simpl.
  assert (Hset : forall s2 : state,
    same_core (with_jobs []
      (with_listeners (unlisten (request_registrations r p) (listeners s1))
         (with_jobs [(RCacheCursor (VNative r), w)]
            (with_promises (<[p:=Promise (Resolved w) []]> (promises s1)) s1)))) s2 ->
    settled p (Resolved w) s1 s2).
  { intros s2 Hsame. eapply settled_intro; try done.
    intros reg Hreg. by apply (request_registrations_iff s1). }
  assert (Hne : Resolved w <> Pending) by done.
  destruct (instance_of w KCursor) eqn:Hcur; simpl.
  - eexists. split; [done|].
    match goal with |- settled _ _ _ ?x /\ _ =>
      assert (Hst : settled p (Resolved w) s1 x) by (apply Hset; by repeat split) end.
    destruct (wf_settled _ _ _ _ _ Hs1 Hp1 Hne Hst) as [Hw2 Hg2].
    split; [exact Hst|]. split; [exact He1|]. split; [exact Hw2|].
    split; [by eapply grows_trans|]. intros _. simpl. by rewrite decide_True.
  - eexists. split; [done|].
    match goal with |- settled _ _ _ ?x /\ _ =>
      assert (Hst : settled p (Resolved w) s1 x) by (apply Hset; by repeat split) end.
    destruct (wf_settled _ _ _ _ _ Hs1 Hp1 Hne Hst) as [Hw2 Hg2].
    split; [exact Hst|]. split; [exact He1|]. split; [exact Hw2|].
    split; [by eapply grows_trans|]. done.
Qed.

End Events.

Section Events.
Context `{E : Engine}.

Lemma ok_drain : ok drain.
Proof.
  intros s Hs. destruct (drain_frame s) as (_ & Hsame & _).
  assert (Hsame' : same_core s (drain s).2).
  { destruct Hsame as (? & ? & ? & ? & ? & ? & Hj & ?). simpl in *.
    repeat split; try done. rewrite Hj. symmetry. apply (wf_jobs s Hs). }
  split; [by eapply same_core_wf|by apply same_core_grows].
Qed.

Lemma ok_fire target type l : ok (fire target type l).
Proof.
  intros s Hs. unfold fire. erewrite bind_eq by reflexivity. cbn beta.
  case_bool_decide as Hin; [|split; [done|apply grows_refl]]. cbn beta iota.
  pose proof (wf_listeners s Hs _ Hin) as Hok. unfold reg_ok in Hok. simpl in Hok.
  destruct l as [r p|r p|t p|t p].
  - destruct Hok as [[= -> ->] Hrp].
    destruct (wrap (native_get (engine s) r (PStr "result")) s) as [o s1] eqn:Hw.
    destruct (ok_wrap (native_get (engine s) r (PStr "result")) s Hs) as [Hs1 Hg1].
    rewrite Hw in Hs1, Hg1. simpl in Hs1, Hg1.
    destruct o as [w|e|].
    + destruct (fire_success r p w s s1 Hs Hin Hw) as (s' & Hf & _ & _ & Hs' & Hg & _).
      unfold fire in Hf. erewrite bind_eq in Hf by reflexivity. cbn beta in Hf.
      rewrite bool_decide_eq_true_2 in Hf by done. cbn beta iota in Hf. by rewrite Hf.
    + unfold bind, guarded, run_listener, native_read, bind, gets. rewrite Hw.
      destruct (ok_drain s1 Hs1) as [Hs2 Hg2].
      split; [done|by eapply grows_trans].
    + unfold bind, guarded, run_listener, native_read, bind, gets. by rewrite Hw.
  - destruct Hok as [[= -> ->] [Hr Hp]].
    destruct (fire_error r p s Hs Hin) as (s' & Hf & Hst & _).
    unfold fire in Hf. erewrite bind_eq in Hf by reflexivity. cbn beta in Hf.
    rewrite bool_decide_eq_true_2 in Hf by done. cbn beta iota in Hf. rewrite Hf. simpl.
    eapply wf_settled; [exact Hs|exact Hp| |exact Hst]; done.
  - destruct Hok as [[= -> ->] [Hr Hp]].
    destruct (fire_complete t p s Hs Hin) as (s' & Hf & Hst & _).
    unfold fire in Hf. erewrite bind_eq in Hf by reflexivity. cbn beta in Hf.
    rewrite bool_decide_eq_true_2 in Hf by done. cbn beta iota in Hf. rewrite Hf. simpl.
    eapply wf_settled; [exact Hs|exact Hp| |exact Hst]; done.
  - destruct Hok as [Hreg [Hr Hp]].
    assert (target = t) as -> by (destruct Hreg; congruence).
    destruct (fire_tx_error t p type s Hs Hin) as (s' & Hf & Hst & _).
    unfold fire in Hf. erewrite bind_eq in Hf by reflexivity. cbn beta in Hf.
    rewrite bool_decide_eq_true_2 in Hf by done. cbn beta iota in Hf. rewrite Hf. simpl.
    eapply wf_settled; [exact Hs|exact Hp| |exact Hst]; done.
Qed.

Lemma ok_run_listeners target type ls : ok (run_listeners target type ls).
Proof.
  induction ls as [|l ls IH]; simpl.
  - apply ok_ret.
  - apply ok_bind; [apply ok_fire|done].
Qed.

Lemma ok_dispatchEvent target type : ok (dispatchEvent target type).
Proof.
  unfold dispatchEvent. apply ok_bind; [apply ok_gets|].
  intros ls. apply ok_run_listeners.
Qed.

Lemma ok_exec a s : wf s -> wf (exec a s) /\ grows s (exec a s).
Proof.
  intros Hs. destruct a; simpl.
  - by apply ok_wrap.
  - by apply (quiet_ok _ (quiet_js_get v p)).
  - by apply (quiet_ok _ (quiet_call f this args)).
  - by apply ok_dispatchEvent.
  - by apply (quiet_ok _ (quiet_resume g)).
  - assert (Hsame : same_core s (with_engine w s)) by (by repeat split).
    split; [by eapply same_core_wf|by apply same_core_grows].
Qed.

Lemma ok_run acts s : wf s -> wf (run acts s) /\ grows s (run acts s).
Proof.
  revert s. induction acts as [|a acts IH]; intros s Hs; simpl.
  - split; [done|apply grows_refl].
  - destruct (ok_exec a s Hs) as [Hs1 Hg1]. destruct (IH _ Hs1) as [Hs2 Hg2].
    split; [done|by eapply grows_trans].
Qed.

Lemma wf_loaded w : wf (loaded w).
Proof. split; simpl; try done. intros reg Hreg. by apply elem_of_nil in Hreg. Qed.

End Events.

Section Reads.
Context `{E : Engine}.

Lemma base_get_plain recv_get target p receiver s :
  (hkind target = KTransaction -> p <> PStr "done" /\ p <> PStr "store") ->
  base_get recv_get target p receiver s = wrap (native_get (engine s) target p) s.
Proof.
  intros Hp. unfold base_get.
  destruct (decide (hkind target = KTransaction)) as [Ht|Ht].
  - destruct (Hp Ht) as [Hd Hst].
    rewrite (bool_decide_eq_false_2 (p = PStr "done")) by done.
    rewrite (bool_decide_eq_false_2 (p = PStr "store")) by done.
    by rewrite !andb_false_r.
  - rewrite (bool_decide_eq_false_2 (hkind target = KTransaction)) by done. done.
Qed.

Lemma extras_get_skip old target p s :
  potentialDatabaseExtra (engine s) target p = false ->
  extras_get old target p s = old s.
Proof. intros Hp. unfold extras_get, bind, gets. by rewrite Hp. Qed.

Lemma traps_get_plain recv_get t target p receiver s :
  plain_read (engine s) target p ->
  traps_get recv_get t target p receiver s = wrap (native_get (engine s) target p) s.
Proof.
  intros (Hi & Hx & Hb). induction t as [|t IH|t IH]; simpl.
  - by apply base_get_plain.
  - by rewrite extras_get_skip.
  - by rewrite Hi.
Qed.

(** On a transaction every trap set defers to the base set. *)
Lemma traps_get_transaction recv_get t target name receiver s :
  hkind target = KTransaction ->
  traps_get recv_get t target (PStr name) receiver s
  = base_get recv_get target (PStr name) receiver s.
Proof.
  intros Hk. induction t as [|t IH|t IH]; simpl; [done| |].
  - rewrite extras_get_skip; [done|]. unfold potentialDatabaseExtra.
    rewrite bool_decide_eq_false_2 by congruence. done.
  - unfold isIteratorProp. rewrite Hk. simpl.
    destruct (bool_decide (PStr name = PStr "iterate")); done.
Qed.

(** A native function always gets a wrapper of the right kind. *)
Lemma wrap_function_ret f s :
  wf s -> hkind f = KFunction ->
  exists wfn s1, wrap (VNative f) s = (Ret wfn, s1)
    /\ wraps wfn (VNative f)
    /\ wm_get (VNative f) (transformCache s1) = Some wfn
    /\ engine s1 = engine s.
Proof.
  intros Hs Hk.
  assert (Hf : is_function (VNative f) = true) by (simpl; by apply bool_decide_eq_true_2).
  destruct (wm_get (VNative f) (transformCache s)) as [w|] eqn:Hc.
  - exists w, s. split; [by apply wrap_cached; [apply function_not_instance|]|].
    by destruct (wf_cache s Hs _ _ Hc).
  - eexists _, _. split; [by apply wrap_function|].
    split; [by apply function_wrapper_wraps|]. simpl. by rewrite decide_True.
Qed.

(** What the general closure of [wrapFunction] does when called. *)
Lemma invoke_wrapped id f this args s :
  invoke (VWrappedFn id (VNative f)) this args s =
  match native_call f (unwrap this s) args (engine s) with
  | (Ret v, w') => wrap v (with_engine w' s)
  | (Throw e, w') => (Throw e, with_engine w' s)
  | (Unsupported, w') => (Unsupported, with_engine w' s)
  end.
Proof.
  unfold invoke, bind, gets, apply_native.
  by destruct (native_call f (unwrap this s) args (engine s)) as [[v|e|] w'].
Qed.


Lemma wraps_general wfn f :
  wraps wfn (VNative f) -> hkind f = KFunction -> VNative f ∉ cursorAdvanceMethods ->
  exists id, wfn = VWrappedFn id (VNative f).
Proof.
  intros Hw Hk Hn. destruct wfn; simpl in Hw; try done.
  - destruct Hw as [[= ->] Hp]. apply proxyable_kinds in Hp as [_ Hp]. done.
  - destruct Hw as (<- & _ & _). by eexists.
  - destruct Hw as (<- & _ & Hin). done.
Qed.

Lemma wraps_advance wfn f :
  wraps wfn (VNative f) -> hkind f = KFunction -> VNative f ∈ cursorAdvanceMethods ->
  exists id, wfn = VAdvanceFn id (VNative f).
Proof.
  intros Hw Hk Hn. destruct wfn; simpl in Hw; try done.
  - destruct Hw as [[= ->] Hp]. apply proxyable_kinds in Hp as [_ Hp]. done.
  - destruct Hw as (<- & _ & Hin). done.
  - destruct Hw as (<- & _ & _). by eexists.
Qed.

Lemma with_engine_wf w s : wf s -> wf (with_engine w s).
Proof. apply same_core_wf. by repeat split. Qed.

Lemma unwrap_grows s s' v k :
  grows s s' -> wm_get v (reverseTransformCache s) = Some k -> unwrap v s' = k.
Proof. intros Hg Hv. unfold unwrap. by rewrite (g_reverse _ _ Hg _ _ Hv). Qed.

Lemma bind_same {A B} (m m' : M A) (f : A -> M B) s :
  m s = m' s -> bind m f s = bind m' f s.
Proof. intros H. unfold bind. by rewrite H. Qed.

(** Reading a native method off a wrapped handle and calling it: the raw
    function runs on the raw receiver and its result is wrapped. *)
Lemma call_through f this h args s :
  wf s -> hkind f = KFunction -> VNative f ∉ cursorAdvanceMethods ->
  wm_get this (reverseTransformCache s) = Some (VNative h) ->
  bind (wrap (VNative f)) (fun fn => invoke fn this args) s =
  match native_call f (VNative h) args (engine s) with
  | (Ret v, w') => wrap v (with_engine w' (wrap (VNative f) s).2)
  | (Throw e, w') => (Throw e, with_engine w' (wrap (VNative f) s).2)
  | (Unsupported, w') => (Unsupported, with_engine w' (wrap (VNative f) s).2)
  end.
Proof.
  intros Hs Hk Hn Hthis.
  destruct (wrap_function_ret f s Hs Hk) as (wfn & s1 & Hw & Hwr & _ & He).
  destruct (ok_wrap (VNative f) s Hs) as [_ Hg]. rewrite Hw in Hg. simpl in Hg.
  destruct (wraps_general wfn f Hwr Hk Hn) as [id ->].
  erewrite bind_eq by apply Hw. rewrite Hw. cbn [snd].
  rewrite invoke_wrapped, (unwrap_grows s s1 this _ Hg Hthis), He. done.
Qed.

End Reads.

Section Stable.
Context `{E : Engine}.

(** Only functions and proxyable handles are keys of the forward cache. *)
Lemma cached_key s v w :
  wf s -> wm_get v (transformCache s) = Some w ->
  is_function v = true \/ exists h, v = VNative h /\ hkind h ∈ idbProxyableTypes.
Proof.
  intros Hs Hc. destruct (wf_cache s Hs _ _ Hc) as [_ Hw].
  destruct w; simpl in Hw; try done.
  - destruct Hw as [-> Hp]. right. by eexists.
  - destruct Hw as (<- & Hf & _). by left.
  - destruct Hw as (<- & Hf & _). by left.
Qed.

(** A value that is not a request and that [wrap] returns unchanged without
    caching it passes through in every state. *)
Lemma wrap_uncached v w s s1 :
  instance_of v KRequest = false ->
  wrap v s = (Ret w, s1) ->
  wm_get v (transformCache s1) = Some w
  \/ (w = v /\ is_function v = false /\ instanceOfAny v idbProxyableTypes = false
      /\ v <> VNaN).
Proof.
  intros Hr Hw. destruct (wm_get v (transformCache s)) as [w0|] eqn:Hc.
  { rewrite (wrap_cached v w0) in Hw by done. injection Hw as <- <-. by left. }
  destruct (is_function v) eqn:Hf.
  { rewrite wrap_function in Hw by done. injection Hw as <- <-. left.
    simpl. by rewrite decide_True. }
  revert Hw. unfold wrap. rewrite Hr. unfold bind at 1, gets. rewrite Hc.
  unfold transformCachableValue. rewrite Hf.
  unfold bind at 1 2.
  destruct ((if instance_of v KTransaction then cacheDonePromiseForTransaction v else ret ()) s)
    as [[[]|e|] s0]; try done.
  destruct (instanceOfAny v idbProxyableTypes) eqn:Hp.
  - destruct v; try done. unfold bind, fresh, gets, ret. cbn beta iota.
    rewrite strict_ne_true by done. unfold weak_set, modify. simpl.
    intros [= <- <-]. left. simpl. by rewrite decide_True.
  - unfold ret at 1. cbn beta iota.
    destruct (decide (v = VNaN)) as [->|Hv]; [done|].
    rewrite strict_ne_same by done.
    unfold bind, ret. intros [= <- <-]. by right.
Qed.

(** [wrap(NaN)]: the value is returned unchanged by
    [transformCachableValue], yet differs from itself, so [transformCache.set]
    is called with a key that is not an object. *)
Lemma wrap_nan s : wf s -> wrap VNaN s = (Throw TypeError, s).
Proof.
  intros Hs. unfold wrap. cbn [instance_of]. unfold bind at 1, gets.
  destruct (wm_get VNaN (transformCache s)) as [w|] eqn:Hc; [|done].
  by destruct (cached_key s VNaN w Hs Hc) as [?|(h & ? & _)].
Qed.

Lemma wrap_passthrough v s :
  instance_of v KRequest = false -> is_function v = false ->
  instanceOfAny v idbProxyableTypes = false ->
  v <> VNaN ->
  wm_get v (transformCache s) = None ->
  wrap v s = (Ret v, s).
Proof.
  intros Hr Hf Hp Hv Hc. unfold wrap. rewrite Hr. unfold bind at 1, gets. rewrite Hc.
  unfold transformCachableValue. rewrite Hf, Hp.
  assert (Ht : instance_of v KTransaction = false).
  { unfold instanceOfAny, idbProxyableTypes in Hp. simpl in Hp.
    by repeat (apply orb_false_elim in Hp as [? Hp]). }
  rewrite Ht. unfold bind, ret.
  by rewrite strict_ne_same.
Qed.

(** Identity stability for everything but requests: once [wrap] has
    returned [w] for [v], it returns [w] in every later state. *)
Lemma wrap_stable v w s s1 s2 :
  instance_of v KRequest = false ->
  wrap v s = (Ret w, s1) -> wf s2 -> grows s1 s2 ->
  wrap v s2 = (Ret w, s2).
Proof.
  intros Hr Hw Hs2 Hg.
  destruct (wrap_uncached v w s s1 Hr Hw) as [Hc|(-> & Hf & Hp & Hv)].
  - apply wrap_cached; [done|]. by apply (g_cache _ _ Hg).
  - apply wrap_passthrough; try done.
    destruct (wm_get v (transformCache s2)) as [w0|] eqn:Hc; [|done].
    destruct (cached_key s2 v w0 Hs2 Hc) as [Hf'|(h & -> & Hk)]; [congruence|].
    rewrite proxyable_instance, bool_decide_eq_true_2 in Hp; done.
Qed.

End Stable.

Section Dispatch.
Context `{E : Engine}.

(** In a well-formed state only pending promises have listeners. *)
Lemma settled_unregistered s p st reg :
  wf s -> promise_state s p = Some st -> st <> Pending ->
  reg ∈ listeners s -> listener_promise (r_listener reg) <> p.
Proof.
  intros Hs Hp Hst Hin Hlp. destruct (reg_promise s reg Hs Hin) as [rs Hrs].
  rewrite Hlp in Hrs. unfold promise_state in Hp. rewrite Hrs in Hp. simpl in Hp. congruence.
Qed.

(** One target and one event type hold at most one listener per promise. *)
Lemma registered_unique s target type l l' :
  wf s -> Registration target type l ∈ listeners s ->
  Registration target type l' ∈ listeners s ->
  listener_promise l = listener_promise l' -> l = l'.
Proof.
  intros Hs Hl Hl' Hp.
  pose proof (wf_listeners s Hs _ Hl) as Hok. pose proof (wf_listeners s Hs _ Hl') as Hok'.
  unfold reg_ok, request_promise, done_promise in Hok, Hok'. simpl in Hok, Hok'.
  destruct l, l'; simpl in Hp; subst;
    repeat match goal with
           | H : _ /\ _ |- _ => destruct H
           | H : _ \/ _ |- _ => destruct H
           end; simplify_eq; done.
Qed.

(** Every listener of the snapshot that is registered when the dispatch
    starts has fired when it ends, provided each firing settles its own
    promise and leaves the other listeners registered. *)
Lemma run_listeners_all target type (I : state -> Prop) (expect : listener -> pstate) :
  (forall l s, wf s -> I s -> Registration target type l ∈ listeners s ->
     exists s', fire target type l s = (Ret tt, s') /\ wf s' /\ grows s s' /\ I s'
       /\ promise_state s' (listener_promise l) = Some (expect l)
       /\ expect l <> Pending
       /\ forall l', listener_promise l' <> listener_promise l ->
            Registration target type l' ∈ listeners s ->
            Registration target type l' ∈ listeners s') ->
  forall ls s, wf s -> I s ->
    exists s', run_listeners target type ls s = (Ret tt, s') /\ wf s' /\ grows s s' /\ I s'
      /\ forall l, l ∈ ls -> Registration target type l ∈ listeners s ->
           promise_state s' (listener_promise l) = Some (expect l).
Proof.
  intros Hfire ls. induction ls as [|l ls IH]; intros s Hs HI; simpl.
  { exists s. split; [done|]. split; [done|]. split; [apply grows_refl|]. split; [done|].
    intros l Hl. by apply elem_of_nil in Hl. }
  destruct (decide (Registration target type l ∈ listeners s)) as [Hin|Hout].
  - destruct (Hfire l s Hs HI Hin) as (s1 & Hf & Hs1 & Hg1 & HI1 & Hp1 & Hne & Hkeep).
    destruct (IH s1 Hs1 HI1) as (s' & Hrun & Hs' & Hg' & HI' & Hall).
    exists s'. erewrite bind_eq by apply Hf. split; [done|]. split; [done|].
    split; [by eapply grows_trans|]. split; [done|].
    intros l' Hl' Hreg'.
    destruct (decide (listener_promise l' = listener_promise l)) as [Heq|Hdiff].
    + assert (l' = l) as -> by exact (registered_unique s target type l' l Hs Hreg' Hin Heq).
      by apply (g_settled _ _ Hg').
    + apply elem_of_cons in Hl' as [->|Hl']; [done|]. apply Hall; [done|]. by apply Hkeep.
  - assert (Hf : fire target type l s = (Ret tt, s)).
    { unfold fire. erewrite bind_eq by reflexivity. cbn beta.
      by rewrite bool_decide_eq_false_2. }
    destruct (IH s Hs HI) as (s' & Hrun & Hs' & Hg' & HI' & Hall).
    exists s'. erewrite bind_eq by apply Hf. split; [done|]. split; [done|].
    split; [done|]. split; [done|].
    intros l' Hl' Hreg'. apply elem_of_cons in Hl' as [->|Hl']; [done|]. by apply Hall.
Qed.

(** The snapshot a dispatch takes holds every listener registered for the
    target and type. *)
Lemma dispatch_snapshot target type (I : state -> Prop) (expect : listener -> pstate) s l :
  (forall ls s0, wf s0 -> I s0 ->
     exists s', run_listeners target type ls s0 = (Ret tt, s') /\ wf s' /\ grows s0 s' /\ I s'
       /\ forall l, l ∈ ls -> Registration target type l ∈ listeners s0 ->
            promise_state s' (listener_promise l) = Some (expect l)) ->
  wf s -> I s -> Registration target type l ∈ listeners s ->
  exists s', dispatchEvent target type s = (Ret tt, s') /\ wf s' /\ grows s s' /\ I s'
    /\ promise_state s' (listener_promise l) = Some (expect l).
Proof.
  intros Hrun Hs HI Hin. unfold dispatchEvent. erewrite bind_eq by reflexivity. cbn beta.
  destruct (Hrun (r_listener <$>
              filter (fun r => r_target r = target /\ r_type r = type) (listeners s))
              s Hs HI) as (s' & Hr & Hs' & Hg & HI' & Hall).
  exists s'. split; [done|]. split; [done|]. split; [done|]. split; [done|].
  apply Hall; [|done]. apply list_elem_of_fmap.
  exists (Registration target type l). split; [done|].
  apply list_elem_of_filter. by split.
Qed.

End Dispatch.

Section Dispatch.
Context `{E : Engine}.

Lemma settled_state p st s s' : settled p st s s' -> promise_state s' p = Some st.
Proof. intros H. unfold promise_state. by rewrite (st_promises _ _ _ _ H), lookup_insert_eq. Qed.

Lemma settled_keeps p st s s' reg :
  settled p st s s' -> listener_promise (r_listener reg) <> p ->
  reg ∈ listeners s -> reg ∈ listeners s'.
Proof. intros H Hne Hin. by apply (st_listeners _ _ _ _ H). Qed.

(** The success event of a request whose result [wrap] turns into
    [wrapped]: every future of the request that is still pending resolves
    with [wrapped].  [J] is any property of the state that each firing
    keeps. *)
Lemma dispatch_success_keeping (J : state -> Prop) r p wrapped s s1 :
  (forall q s0 s2 s3, wf s0 -> J s0 ->
     Registration r "success" (LSuccess r q) ∈ listeners s0 ->
     wrap (native_get (engine s0) r (PStr "result")) s0 = (Ret wrapped, s2) ->
     settled q (Resolved wrapped) s2 s3 -> J s3) ->
  wf s -> J s -> Registration r "success" (LSuccess r p) ∈ listeners s ->
  instance_of (native_get (engine s) r (PStr "result")) KRequest = false ->
  wrap (native_get (engine s) r (PStr "result")) s = (Ret wrapped, s1) ->
  exists s', dispatchEvent r "success" s = (Ret tt, s') /\ wf s' /\ grows s s'
    /\ engine s' = engine s /\ J s'
    /\ promise_state s' p = Some (Resolved wrapped)
    /\ wrap (native_get (engine s) r (PStr "result")) s' = (Ret wrapped, s').
Proof.
  intros HJ Hs HJs Hin Hreq Hw.
  set (result := native_get (engine s) r (PStr "result")) in *.
  set (I := fun s0 : state =>
              (engine s0 = engine s
               /\ (exists s2, wrap result s0 = (Ret wrapped, s2))
               /\ (promise_state s0 p = Some (Resolved wrapped) ->
                   wrap result s0 = (Ret wrapped, s0)))
              /\ J s0).
  assert (Hpend : promise_state s p = Some Pending).
  { destruct (reg_promise s _ Hs Hin) as [rs Hrs]. unfold promise_state.
    simpl in Hrs. by rewrite Hrs. }
  destruct (dispatch_snapshot r "success" I (fun _ => Resolved wrapped) s (LSuccess r p))
    as (s' & Hd & Hs' & Hg & [(He & _ & Hst') HJ'] & Hp); try done.
  2:{ split; [|done]. split; [done|]. split; [by eexists|]. congruence. }
  2:{ exists s'. repeat (split; [done|]). by apply Hst'. }
  apply run_listeners_all. intros l s0 Hs0 [(He0 & [s2 Hw0] & _) HJ0] Hl.
  pose proof (wf_listeners s0 Hs0 _ Hl) as Hok. unfold reg_ok in Hok. simpl in Hok.
  destruct l as [r0 q|r0 q|t q|t q]; try (destruct Hok as [[= ] _]; fail);
    try (destruct Hok as [[[= ]|[= ]] _]; fail).
  destruct Hok as [[= <-] Hrq].
  assert (Hw0' : wrap (native_get (engine s0) r (PStr "result")) s0 = (Ret wrapped, s2))
    by (by rewrite He0).
  destruct (fire_success r q wrapped s0 s2 Hs0 Hl Hw0')
    as (s3 & Hf & Hst & He3 & Hs3 & Hg3 & _).
  assert (Hstable : wrap result s3 = (Ret wrapped, s3)).
  { eapply wrap_stable; [done|apply Hw0|done|].
    destruct (quiet_wrap result s0 Hs0) as (Hs2 & _ & Hc). rewrite Hw0 in Hs2, Hc.
    simpl in Hs2, Hc.
    assert (Hq : exists rs, promises s2 !! q = Some (Promise Pending rs)).
    { destruct Hrq as [_ Hq]. rewrite (c_promises _ _ Hc); [by eexists|].
      by apply (wf_promises s0 Hs0) in Hq. }
    destruct Hq as [rs Hq].
    by destruct (wf_settled q (Resolved wrapped) rs s2 s3 Hs2 Hq ltac:(done) Hst). }
  exists s3. split; [done|]. split; [done|]. split; [done|].
  split.
  { split; [|exact (HJ q s0 s2 s3 Hs0 HJ0 Hl Hw0' Hst)]. split; [congruence|].
    split; [by exists s3|done]. }
  split; [by apply (settled_state _ _ s2)|]. split; [done|].
  intros l' Hne Hl'. simpl in Hne.
  eapply settled_keeps; [exact Hst|done|].
  destruct (quiet_wrap result s0 Hs0) as (_ & _ & Hc). rewrite Hw0 in Hc. simpl in Hc.
  by apply (c_keep _ _ Hc).
Qed.

Lemma dispatch_success r p wrapped s s1 :
  wf s -> Registration r "success" (LSuccess r p) ∈ listeners s ->
  instance_of (native_get (engine s) r (PStr "result")) KRequest = false ->
  wrap (native_get (engine s) r (PStr "result")) s = (Ret wrapped, s1) ->
  exists s', dispatchEvent r "success" s = (Ret tt, s') /\ wf s' /\ grows s s'
    /\ engine s' = engine s
    /\ promise_state s' p = Some (Resolved wrapped).
Proof.
  intros Hs Hin Hreq Hw.
  destruct (dispatch_success_keeping (fun _ => True) r p wrapped s s1)
    as (s' & ? & ? & ? & ? & _ & ? & _); try done.
  by exists s'.
Qed.

(** The success event of a request leaves the completion future of a
    transaction pending. *)
Lemma dispatch_success_keeps_done r p wrapped s s1 pf :
  wf s -> promises s !! pf = Some (Promise Pending []) ->
  Registration r "success" (LSuccess r p) ∈ listeners s ->
  instance_of (native_get (engine s) r (PStr "result")) KRequest = false ->
  wrap (native_get (engine s) r (PStr "result")) s = (Ret wrapped, s1) ->
  exists s', dispatchEvent r "success" s = (Ret tt, s')
    /\ promise_state s' p = Some (Resolved wrapped)
    /\ promise_state s' pf = Some Pending.
Proof.
  intros Hs Hpf Hin Hreq Hw.
  destruct (dispatch_success_keeping
              (fun s0 => promises s0 !! pf = Some (Promise Pending [])) r p wrapped s s1)
    as (s' & Hd & _ & _ & _ & HJ & Hp & _); try done.
  2:{ exists s'. split; [done|]. split; [done|]. unfold promise_state. by rewrite HJ. }
  intros q s0 s2 s3 Hs0 HJ0 Hq Hw0 Hst.
  destruct (quiet_wrap (native_get (engine s0) r (PStr "result")) s0 Hs0) as (_ & _ & Hc).
  rewrite Hw0 in Hc. simpl in Hc.
  pose proof (wf_listeners s0 Hs0 _ Hq) as [_ [_ Hpq]]. simpl in Hpq.
  rewrite (st_promises _ _ _ _ Hst), lookup_insert_ne by congruence.
  rewrite (c_promises _ _ Hc); [done|]. by apply (wf_promises s0 Hs0) in HJ0.
Qed.

(** A failure event ([error] on a request or a transaction, [abort] on a
    transaction): every pending future listening for it is rejected with
    the target's [error], as it is. *)
Lemma dispatch_failure target type l s :
  wf s -> type = "error" \/ type = "abort" ->
  Registration target type l ∈ listeners s ->
  exists s', dispatchEvent target type s = (Ret tt, s') /\ wf s' /\ grows s s'
    /\ engine s' = engine s
    /\ promise_state s' (listener_promise l)
       = Some (Rejected (native_get (engine s) target (PStr "error"))).
Proof.
  intros Hs Hty Hin.
  set (I := fun s0 : state => engine s0 = engine s).
  destruct (dispatch_snapshot target type I
              (fun _ => Rejected (native_get (engine s) target (PStr "error"))) s l)
    as (s' & Hd & Hs' & Hg & He & Hp); try done.
  2:{ by exists s'. }
  apply run_listeners_all. intros l0 s0 Hs0 He0 Hl.
  pose proof (wf_listeners s0 Hs0 _ Hl) as Hok. unfold reg_ok in Hok. simpl in Hok.
  unfold I in *.
  destruct l0 as [r0 q|r0 q|t q|t q].
  - destruct Hok as [[= -> ->] _]. destruct Hty; discriminate.
  - destruct Hok as [[= <- ->] Hrq].
    destruct (fire_error target q s0 Hs0 Hl) as (s3 & Hf & Hst & He3).
    destruct Hrq as [_ Hq].
    destruct (wf_settled q (Rejected (native_get (engine s0) target (PStr "error"))) _
                s0 s3 Hs0 Hq ltac:(done) Hst) as [Hs3 Hg3].
    exists s3. split; [done|]. split; [done|]. split; [done|]. split; [congruence|].
    split; [rewrite <- He0; by apply (settled_state _ _ s0)|]. split; [done|].
    intros l' Hne Hl'. by eapply settled_keeps.
  - destruct Hok as [[= -> ->] _]. destruct Hty; discriminate.
  - destruct Hok as [Hreg Hrq]. assert (t = target) as -> by (destruct Hreg; congruence).
    destruct (fire_tx_error target q type s0 Hs0 Hl) as (s3 & Hf & Hst & He3).
    destruct Hrq as [_ Hq].
    destruct (wf_settled q (Rejected (native_get (engine s0) target (PStr "error"))) _
                s0 s3 Hs0 Hq ltac:(done) Hst) as [Hs3 Hg3].
    exists s3. split; [done|]. split; [done|]. split; [done|]. split; [congruence|].
    split; [rewrite <- He0; by apply (settled_state _ _ s0)|]. split; [done|].
    intros l' Hne Hl'. by eapply settled_keeps.
Qed.

(** The [complete] event of a transaction resolves its completion future
    with no value. *)
Lemma dispatch_complete t p s :
  wf s -> Registration t "complete" (LComplete t p) ∈ listeners s ->
  exists s', dispatchEvent t "complete" s = (Ret tt, s') /\ wf s' /\ grows s s'
    /\ engine s' = engine s
    /\ promise_state s' p = Some (Resolved VUndefined).
Proof.
  intros Hs Hin.
  set (I := fun s0 : state => engine s0 = engine s).
  destruct (dispatch_snapshot t "complete" I (fun _ => Resolved VUndefined) s (LComplete t p))
    as (s' & Hd & Hs' & Hg & He & Hp); try done.
  2:{ by exists s'. }
  apply run_listeners_all. intros l0 s0 Hs0 He0 Hl.
  pose proof (wf_listeners s0 Hs0 _ Hl) as Hok. unfold reg_ok in Hok. simpl in Hok.
  unfold I in *.
  destruct l0 as [r0 q|r0 q|t0 q|t0 q]; try (destruct Hok as [[= ] _]; fail);
    try (destruct Hok as [[[= ]|[= ]] _]; fail).
  destruct Hok as [[= <-] [_ Hq]].
  destruct (fire_complete t q s0 Hs0 Hl) as (s3 & Hf & Hst & He3).
  destruct (wf_settled q (Resolved VUndefined) _ s0 s3 Hs0 Hq ltac:(done) Hst)
    as [Hs3 Hg3].
  exists s3. split; [done|]. split; [done|]. split; [done|]. split; [congruence|].
  split; [by apply (settled_state _ _ s0)|]. split; [done|].
  intros l' Hne Hl'. by eapply settled_keeps.
Qed.

End Dispatch.

Section Identity.
Context `{E : Engine}.

Lemma wf_reachable w acts : wf (run acts (loaded w)).
Proof. apply ok_run, wf_loaded. Qed.

(** A proxyable handle always gets a wrapper, which the forward cache keeps. *)
Lemma wrap_handle_ret h s :
  wf s -> instanceOfAny (VNative h) idbProxyableTypes = true ->
  exists w s1, wrap (VNative h) s = (Ret w, s1)
    /\ wm_get (VNative h) (transformCache s1) = Some w.
Proof.
  intros Hs Hk. rewrite proxyable_instance in Hk. apply bool_decide_eq_true_1 in Hk.
  destruct (proxyable_kinds h Hk) as [Hr Hf].
  destruct (wm_get (VNative h) (transformCache s)) as [w|] eqn:Hc.
  { exists w, s. split; [|done]. apply wrap_cached; [|done].
    simpl. by apply bool_decide_eq_false_2. }
  destruct (decide (hkind h = KTransaction)) as [Ht|Ht].
  - destruct (wm_get (VNative h) (transactionDoneMap s)) eqn:Hd.
    + eexists _, _. split; [apply wrap_transaction_known; eauto|].
      simpl. by rewrite decide_True.
    + eexists _, _. split; [by apply wrap_transaction|].
      simpl. by rewrite decide_True.
  - eexists _, _. split; [by apply wrap_handle|]. simpl. by rewrite decide_True.
Qed.

(** [wrap] adds at most one key to the reverse cache: the value it returns. *)
Lemma wrap_reverse_key v s x k :
  wf s -> wm_get x (reverseTransformCache (wrap v s).2) = Some k ->
  wm_get x (reverseTransformCache s) = Some k \/ (wrap v s).1 = Ret x.
Proof.
  intros Hs.
  destruct (wrap_cases v s Hs)
    as [-> | [(r & -> & Hr & ->) | [(w & Hc & Hw' & Hn & Ha & Ht & ->)
                                  | (t & -> & Hk & Hc & Hd & ->)]]]; simpl; auto.
  all: case_decide; subst; auto.
Qed.

Lemma wrap_all_reverse_keys vs s x k :
  wf s -> wm_get x (reverseTransformCache (wrap_all vs s).2) = Some k ->
  wm_get x (reverseTransformCache s) = Some k \/ x ∈ (wrap_all vs s).1.
Proof.
  revert s. induction vs as [|v vs IH]; intros s Hs; simpl; auto.
  destruct (ok_wrap v s Hs) as [Hs1 _].
  pose proof (wrap_reverse_key v s x k Hs) as Hkey.
  destruct (wrap v s) as [[w| |] s1]; simpl in *.
  - specialize (IH s1 Hs1). destruct (wrap_all vs s1) as [ws s2]. simpl in *.
    intros Hx. destruct (IH Hx) as [Hold|Hin].
    + destruct (Hkey Hold) as [?|[= ->]]; [by left|]. right. apply elem_of_cons. by left.
    + right. apply elem_of_cons. by right.
  - intros Hx. destruct (IH s1 Hs1 Hx) as [Hold|Hin]; [|by right].
    destruct (Hkey Hold) as [?|?]; [by left|done].
  - intros Hx. destruct (IH s1 Hs1 Hx) as [Hold|Hin]; [|by right].
    destruct (Hkey Hold) as [?|?]; [by left|done].
Qed.

End Identity.

Section TransactionStore.
Context `{E : Engine}.

Lemma cached_proxy s t tx :
  wf s -> wm_get (VNative t) (transformCache s) = Some tx ->
  instanceOfAny (VNative t) idbProxyableTypes = true ->
  exists id chain, tx = VProxy id t chain.
Proof.
  intros Hs Hc Hk. destruct (wf_cache s Hs _ _ Hc) as [_ Hw].
  rewrite proxyable_instance in Hk. apply bool_decide_eq_true_1, proxyable_kinds in Hk.
  destruct tx; simpl in Hw; try done.
  - destruct Hw as [[= ->] _]. by eexists _, _.
  - destruct Hw as (<- & Hf & _). simpl in Hf. apply bool_decide_eq_true_1 in Hf. tauto.
  - destruct Hw as (<- & Hf & _). simpl in Hf. apply bool_decide_eq_true_1 in Hf. tauto.
Qed.

(** In a sorted list without duplicates only the first name can be empty. *)
Lemma second_name_not_empty n0 n1 rest :
  sorted_names (n0 :: n1 :: rest) = true -> String.eqb n1 "" = false.
Proof.
  simpl. intros H. apply andb_true_iff in H as [H _].
  apply String.eqb_neq. intros ->. unfold String.ltb in H. by destruct n0.
Qed.

(** The read of [store] on a wrapped transaction: [undefined] when there is
    a second, non-empty name, else [receiver.objectStore(names[0])]. *)
Lemma store_read id chain t s names :
  wf s -> hkind t = KTransaction ->
  native_get (engine s) t (PStr "objectStoreNames") = VStrings names ->
  js_get (VProxy id t chain) (PStr "store") s =
  if match names with _ :: n1 :: _ => negb (String.eqb n1 "") | _ => false end
  then (Ret VUndefined, s)
  else bind (wrap (native_get (engine s) t (PStr "objectStore")))
         (fun objectStore => invoke objectStore (VProxy id t chain) [first_name names]) s.
Proof.
  intros Hs Hk Hn. unfold js_get, member. rewrite traps_get_transaction by done.
  unfold base_get. rewrite (bool_decide_eq_true_2 (hkind t = KTransaction)) by done.
  rewrite (bool_decide_eq_false_2 (PStr "store" = PStr "done")) by done.
  rewrite (bool_decide_eq_true_2 (PStr "store" = PStr "store")) by done.
  cbn [andb]. unfold native_read at 1.
  erewrite bind_eq by reflexivity. cbn beta. rewrite Hn.
  assert (Hnested : member_nested (VProxy id t chain) (PStr "objectStore") s
                    = wrap (native_get (engine s) t (PStr "objectStore")) s).
  { unfold member_nested, member. rewrite traps_get_transaction by done.
    apply base_get_plain. intros _. done. }
  assert (Hrest : bind (member_nested (VProxy id t chain) (PStr "objectStore"))
      (fun objectStore => bind (native_read t (PStr "objectStoreNames"))
         (fun names0 => bind (js_index names0 0)
            (fun first => invoke objectStore (VProxy id t chain) [first]))) s
    = bind (wrap (native_get (engine s) t (PStr "objectStore")))
        (fun objectStore => invoke objectStore (VProxy id t chain) [first_name names]) s).
  { unfold bind at 1 4. rewrite Hnested.
    pose proof (wrap_engine (native_get (engine s) t (PStr "objectStore")) s Hs) as He.
    destruct (wrap (native_get (engine s) t (PStr "objectStore")) s) as [[fn|e|] s1];
      try done.
    simpl in He. unfold native_read. erewrite bind_eq by reflexivity. cbn beta.
    rewrite He, Hn. unfold js_index. erewrite bind_eq by reflexivity.
    by destruct names. }
  destruct names as [|n0 [|n1 rest]]; unfold js_index at 1;
    erewrite bind_eq by reflexivity; cbn beta; cbn [lookup list_lookup truthy]; try done.
  simpl. by destruct (negb (String.eqb n1 "")).
Qed.

(** C2. Reading [store] on the wrapper of a transaction, whose
    [objectStoreNames] the engine keeps sorted: with exactly one store it
    returns the wrapped handle of that store; with two or more it returns
    [undefined] and changes nothing; with no store at all it does not return
    [undefined] but calls the native [objectStore] with [undefined], and the
    error of that call reaches the caller. *)
Theorem transaction_store_read (w : world) (acts : list action)
    (t f : handle) (tx : value) (names : list string) :
  let s := run acts (loaded w) in
  instance_of (VNative t) KTransaction = true ->
  wm_get (VNative t) (transformCache s) = Some tx ->
  native_get (engine s) t (PStr "objectStoreNames") = VStrings names ->
  sorted_names names = true ->
  native_get (engine s) t (PStr "objectStore") = VNative f ->
  is_function (VNative f) = true ->
  bool_decide (VNative f ∈ cursorAdvanceMethods) = false ->
  (forall n store w',
      names = [n] ->
      native_call f (VNative t) [VStr n] (engine s) = (Ret (VNative store), w') ->
      instanceOfAny (VNative store) idbProxyableTypes = true ->
      exists wrapped s',
        js_get tx (PStr "store") s = (Ret wrapped, s')
        /\ wm_get (VNative store) (transformCache s') = Some wrapped
        /\ unwrap wrapped s' = VNative store)
  /\ (forall n0 n1 rest,
        names = n0 :: n1 :: rest ->
        js_get tx (PStr "store") s = (Ret VUndefined, s))
  /\ (forall e w',
        names = [] ->
        native_call f (VNative t) [VUndefined] (engine s) = (Throw e, w') ->
        exists s', js_get tx (PStr "store") s = (Throw e, s')).
Proof.
  intros s Hk Hc Hnames Hsorted Hos Hf Hadv.
  pose proof (wf_reachable w acts) as Hs. fold s in Hs.
  simpl in Hk, Hf. apply bool_decide_eq_true_1 in Hk, Hf.
  apply bool_decide_eq_false_1 in Hadv.
  destruct (cached_proxy s t tx Hs Hc) as (id & chain & ->).
  { rewrite proxyable_instance. apply bool_decide_eq_true_2. rewrite Hk.
    unfold idbProxyableTypes. rewrite !elem_of_cons. auto 10. }
  destruct (wf_cache s Hs _ _ Hc) as [Hrev _].
  pose proof (store_read id chain t s names Hs Hk Hnames) as Hread.
  rewrite Hos in Hread.
  destruct (ok_wrap (VNative f) s Hs) as [Hs1 Hg1].
  split; [|split].
  - intros n store w' -> Hcall Hstore. unfold first_name in Hread. cbv beta iota in Hread.
    rewrite (call_through f _ t _ s Hs Hf Hadv Hrev), Hcall in Hread.
    destruct (wrap_handle_ret store _ (with_engine_wf w' _ Hs1) Hstore)
      as (wrapped & s' & Hw & Hcached).
    exists wrapped, s'. split; [by rewrite Hread|]. split; [done|].
    destruct (ok_wrap (VNative store) _ (with_engine_wf w' _ Hs1)) as [Hs' _].
    rewrite Hw in Hs'. simpl in Hs'.
    unfold unwrap. by destruct (wf_cache s' Hs' _ _ Hcached) as [-> _].
  - intros n0 n1 rest ->. cbv beta iota in Hread.
    rewrite (second_name_not_empty n0 n1 rest Hsorted) in Hread. exact Hread.
  - intros e w' -> Hcall. unfold first_name in Hread. cbv beta iota in Hread.
    rewrite (call_through f _ t _ s Hs Hf Hadv Hrev), Hcall in Hread.
    by eexists.
Qed.

End TransactionStore.

Lemma transaction_store_read_witness :
  exists wrapped s',
    js_get (VProxy 1 Sample.books_tx SampleStore.chain) (PStr "store") SampleStore.s_books
    = (Ret wrapped, s')
    /\ wm_get (VNative (Handle KObjectStore 5)) (transformCache s') = Some wrapped
    /\ unwrap wrapped s' = VNative (Handle KObjectStore 5).
Proof.
  destruct (@transaction_store_read Sample.indexeddb Sample.w0
              [AWrap (VNative Sample.books_tx)] Sample.books_tx (Sample.fn "objectStore")
              (VProxy 1 Sample.books_tx SampleStore.chain) ["books"]) as [Hone _];
    try reflexivity.
  apply (Hone "books" (Handle KObjectStore 5)
           (Sample.SWorld 6 (Sample.w_scope Sample.w0) [] []
              [("objectStore", VNative Sample.books_tx, [VStr "books"])]));
    reflexivity.
Defined.

(** The failing input of C2: on the wrapper of a transaction without any
    store (an upgrade transaction of a new database) reading [store] throws
    the engine's NotFoundError instead of returning [undefined]. *)
Lemma transaction_store_without_stores_throws :
  wm_get (VNative Sample.upgrade_tx) (transformCache SampleStore.s_upgrade)
  = Some (VProxy 1 Sample.upgrade_tx SampleStore.chain)
  /\ native_get (engine SampleStore.s_upgrade) Sample.upgrade_tx (PStr "objectStoreNames")
     = VStrings []
  /\ (js_get (VProxy 1 Sample.upgrade_tx SampleStore.chain) (PStr "store")
        SampleStore.s_upgrade).1
     = Throw (VError "NotFoundError").
Proof. vm_compute. done. Qed.

Section RequestFutures.
Context `{E : Engine}.

(** A request is never a key of the forward cache. *)
Lemma request_not_cached s r :
  wf s -> hkind r = KRequest -> wm_get (VNative r) (transformCache s) = None.
Proof.
  intros Hs Hk. destruct (wm_get (VNative r) (transformCache s)) as [w|] eqn:Hc; [|done].
  destruct (wf_cache s Hs _ _ Hc) as [_ Hw]. destruct w; simpl in Hw; try done.
  - destruct Hw as [[= ->] Hp]. apply proxyable_kinds in Hp as [Hp _]. done.
  - destruct Hw as (<- & Hf & _). simpl in Hf. apply bool_decide_eq_true_1 in Hf. congruence.
  - destruct Hw as (<- & Hf & _). simpl in Hf. apply bool_decide_eq_true_1 in Hf. congruence.
Qed.

(** C3 (amended). [wrap] of a request is [promisifyRequest] of it: a new
    pending promise with the two listeners registered.  The forward cache is
    left as it was and has no entry for the request, so every later [wrap]
    of the request yields another promise; the reverse cache does record
    the promise, so [unwrap] of the promise is the request. *)
Theorem request_future (w : world) (acts : list action) (r : handle) :
  let s := run acts (loaded w) in
  instance_of (VNative r) KRequest = true ->
  exists p s1,
    wrap (VNative r) s = (Ret (VPromise p), s1)
    /\ promisifyRequest (VNative r) s = (Ret (VPromise p), s1)
    /\ promise_state s1 p = Some Pending
    /\ request_listening s1 r p
    /\ transformCache s1 = transformCache s
    /\ wm_get (VNative r) (transformCache s1) = None
    /\ unwrap (VPromise p) s1 = VNative r
    /\ forall later, exists p' s2,
         wrap (VNative r) (run later s1) = (Ret (VPromise p'), s2) /\ p' <> p.
Proof.
  intros s Hk. simpl in Hk. apply bool_decide_eq_true_1 in Hk.
  pose proof (wf_reachable w acts) as Hs. fold s in Hs.
  exists (next_id s), (promisified r s).
  split; [exact (wrap_request r s Hs Hk)|]. split; [exact (promisifyRequest_native r s Hs)|].
  split; [unfold promise_state; simpl; by rewrite lookup_insert_eq|].
  split; [split; simpl; rewrite elem_of_app, !elem_of_cons; auto|].
  split; [done|]. split; [exact (request_not_cached s r Hs Hk)|].
  split; [unfold unwrap; simpl; by rewrite decide_True|].
  intros later. destruct (wf_promisified r s Hs) as [Hs1 _].
  destruct (ok_run later _ Hs1) as [Hs2 Hg].
  eexists _, _. split; [by apply wrap_request|].
  apply g_next in Hg. simpl in Hg. lia.
Qed.

End RequestFutures.

Lemma request_future_witness :
  exists p s1,
    wrap (VNative (Handle KRequest 9)) Sample.s0 = (Ret (VPromise p), s1)
    /\ promisifyRequest (VNative (Handle KRequest 9)) Sample.s0 = (Ret (VPromise p), s1)
    /\ promise_state s1 p = Some Pending
    /\ request_listening s1 (Handle KRequest 9) p
    /\ transformCache s1 = transformCache Sample.s0
    /\ wm_get (VNative (Handle KRequest 9)) (transformCache s1) = None
    /\ unwrap (VPromise p) s1 = VNative (Handle KRequest 9)
    /\ forall later, exists p' s2,
         wrap (VNative (Handle KRequest 9)) (run later s1) = (Ret (VPromise p'), s2)
         /\ p' <> p.
Proof.
  apply (@request_future Sample.indexeddb Sample.w0 [] (Handle KRequest 9)). reflexivity.
Defined.

(** C3, as stated, fails: after [wrap] of a request the reverse cache maps
    the returned promise back to the request. *)
Lemma request_future_is_in_reverse_cache :
  (wrap (VNative (Handle KRequest 9)) Sample.s0).1 = Ret (VPromise 0)
  /\ wm_get (VPromise 0)
       (reverseTransformCache (wrap (VNative (Handle KRequest 9)) Sample.s0).2)
     = Some (VNative (Handle KRequest 9)).
Proof. vm_compute. done. Qed.

Section Extras.
Context `{E : Engine}.

(** C9. When the raw handle already has property [p], the convenience
    extension is not a candidate for it: its [get] trap and its [has] trap
    both give what the older trap set gives, so the read of [p] on a wrapped
    database is the wrapped native member. *)
Theorem database_extras_defer (oldTraps : traps) (recv_get : value -> prop -> M value)
    (target : handle) (p : prop) (receiver : value) (s : state) :
  native_has (engine s) target p = true ->
  potentialDatabaseExtra (engine s) target p = false
  /\ traps_get recv_get (DatabaseExtras oldTraps) target p receiver s
     = traps_get recv_get oldTraps target p receiver s
  /\ traps_has (DatabaseExtras oldTraps) (engine s) target p
     = traps_has oldTraps (engine s) target p
  /\ (hkind target = KDatabase -> forall id,
        js_get (VProxy id target (IteratorTraps (DatabaseExtras BaseTraps))) p s
        = wrap (native_get (engine s) target p) s
        /\ js_has (VProxy id target (IteratorTraps (DatabaseExtras BaseTraps))) p s
           = Ret true).
Proof.
  intros Hhas.
  assert (Hpot : potentialDatabaseExtra (engine s) target p = false).
  { unfold potentialDatabaseExtra. rewrite Hhas. simpl. by rewrite andb_false_r. }
  split; [done|]. split; [simpl; by rewrite extras_get_skip|].
  split; [simpl; by rewrite Hpot|].
  intros Hk id. split.
  - unfold js_get, member. apply traps_get_plain. split; [|split; [done|]].
    + unfold isIteratorProp. rewrite Hk. simpl.
      by destruct (bool_decide (p = Symbol_asyncIterator)),
                  (bool_decide (p = PStr "iterate")).
    + intros Ht. congruence.
  - unfold js_has. simpl. rewrite Hpot. unfold isIteratorProp, base_has. rewrite Hk, Hhas.
    simpl. by destruct (bool_decide (p = Symbol_asyncIterator)),
                       (bool_decide (p = PStr "iterate")).
Qed.

End Extras.

Lemma database_extras_defer_witness :
  potentialDatabaseExtra (engine Sample.s0) Sample.db (PStr "transaction") = false
  /\ traps_get member_nested (DatabaseExtras BaseTraps) Sample.db (PStr "transaction")
       VUndefined Sample.s0
     = traps_get member_nested BaseTraps Sample.db (PStr "transaction") VUndefined Sample.s0
  /\ traps_has (DatabaseExtras BaseTraps) (engine Sample.s0) Sample.db (PStr "transaction")
     = traps_has BaseTraps (engine Sample.s0) Sample.db (PStr "transaction")
  /\ (hkind Sample.db = KDatabase -> forall id,
        js_get (VProxy id Sample.db (IteratorTraps (DatabaseExtras BaseTraps)))
          (PStr "transaction") Sample.s0
        = wrap (native_get (engine Sample.s0) Sample.db (PStr "transaction")) Sample.s0
        /\ js_has (VProxy id Sample.db (IteratorTraps (DatabaseExtras BaseTraps)))
             (PStr "transaction") Sample.s0
           = Ret true).
Proof.
  apply (@database_extras_defer Sample.indexeddb BaseTraps member_nested Sample.db
           (PStr "transaction") VUndefined Sample.s0).
  reflexivity.
Defined.

Section IndexReads.
Context `{E : Engine}.

Lemma bind_ext {A B} (m : M A) (f g : A -> M B) s :
  (forall a s', f a s' = g a s') -> bind m f s = bind m g s.
Proof. intros H. unfold bind. destruct (m s) as [[a|e|] s']; auto. Qed.

Lemma bind_assoc {A B C} (m : M A) (f : A -> M B) (g : B -> M C) s :
  bind (bind m f) g s = bind m (fun a => bind (f a) g) s.
Proof. unfold bind. by destruct (m s) as [[a|e|] s']. Qed.

(** With an index name that counts as true the method is that read. *)
Lemma index_read_resolution this storeName indexName rest s :
  truthy indexName = true ->
  Forall (fun base =>
            read_method (base +:+ "FromIndex") this (storeName :: indexName :: rest) s
            = index_read_by_hand base this storeName indexName rest s)
    baseReadMethods.
Proof.
  intros Ht. unfold baseReadMethods.
  repeat apply List.Forall_cons; try apply List.Forall_nil;
    unfold read_method, index_read_by_hand;
    match goal with
    | |- context [endsWith ?x ?y] => change (endsWith x y) with true
    end;
    match goal with
    | |- context [slice_end ?x 9] =>
        let v := eval vm_compute in (slice_end x 9) in change (slice_end x 9) with v
    end;
    cbn [hd tl]; rewrite Ht;
    do 3 (apply bind_ext; intros ? ?); apply bind_assoc.
Qed.

(** C5, at its failing input: called with the empty string as index name,
    an index-suffixed method does exactly what the base method does on the
    store; the index is never opened. *)
Theorem index_read_ignores_empty_index_name (this storeName : value)
    (rest : list value) (s : state) :
  Forall (fun base =>
            read_method (base +:+ "FromIndex") this (storeName :: VStr "" :: rest) s
            = read_method base this (storeName :: rest) s)
    baseReadMethods.
Proof.
  unfold baseReadMethods.
  repeat apply List.Forall_cons; try apply List.Forall_nil; reflexivity.
Qed.

End IndexReads.

(** On the sample engine: [getFromIndex("books", "", 5)] calls [get] on the
    store, where the read by hand opens the index named [""] first. *)
Example index_read_empty_name_log :
  let this := VProxy 0 Sample.db (IteratorTraps (DatabaseExtras BaseTraps)) in
  let s := run [AWrap (VNative Sample.db)] Sample.s0 in
  Sample.w_log (engine (call (VReadMethod 1 "getFromIndex") this
                          [VStr "books"; VStr ""; VNum 5] s).2)
  = [("transaction", VNative Sample.db, [VStr "books"]);
     ("objectStore", VNative (Handle KTransaction 5), [VStr "books"]);
     ("get", VNative (Handle KObjectStore 6), [VNum 5])]
  /\ Sample.w_log (engine (index_read_by_hand "get" this (VStr "books") (VStr "")
                            [VNum 5] s).2)
     = [("transaction", VNative Sample.db, [VStr "books"]);
        ("objectStore", VNative (Handle KTransaction 5), [VStr "books"]);
        ("index", VNative (Handle KObjectStore 6), [VStr ""]);
        ("get", VNative (Handle KIndex 7), [VNum 5])].
Proof. vm_compute. done. Qed.

Section Futures.
Context `{E : Engine}.

Lemma unwrap_some v k s :
  unwrap v s = k -> k <> VUndefined -> wm_get v (reverseTransformCache s) = Some k.
Proof.
  unfold unwrap. destruct (wm_get v (reverseTransformCache s)); simpl; congruence.
Qed.

Lemma not_listening s p st r :
  wf s -> promise_state s p = Some st -> st <> Pending ->
  (Registration r "success" (LSuccess r p) ∉ listeners s)
  /\ (Registration r "error" (LError r p) ∉ listeners s).
Proof.
  intros Hs Hp Hst. split; intros Hin;
    by apply (settled_unregistered s p st _ Hs Hp Hst Hin).
Qed.

(** Let [p] be a pending future that [promisifyRequest] made for request
    [r]; its two listeners are registered.  On the success event it resolves
    with what [wrap] returns for the request's result, when [wrap] returns
    (a result that is not itself a request); on the error event it rejects
    with the request's error, unwrapped.  After either event both listeners
    are gone. *)
Theorem request_future_settles (w : world) (acts : list action) (r : handle) (p : nat) :
  let s := run acts (loaded w) in
  unwrap (VPromise p) s = VNative r ->
  promise_state s p = Some Pending ->
  request_listening s r p
  /\ (forall wrapped s1,
        instance_of (native_get (engine s) r (PStr "result")) KRequest = false ->
        wrap (native_get (engine s) r (PStr "result")) s = (Ret wrapped, s1) ->
        exists s', dispatchEvent r "success" s = (Ret tt, s')
          /\ promise_state s' p = Some (Resolved wrapped)
          /\ (Registration r "success" (LSuccess r p) ∉ listeners s')
          /\ (Registration r "error" (LError r p) ∉ listeners s'))
  /\ (exists s', dispatchEvent r "error" s = (Ret tt, s')
        /\ promise_state s' p = Some (Rejected (native_get (engine s) r (PStr "error")))
        /\ (Registration r "success" (LSuccess r p) ∉ listeners s')
        /\ (Registration r "error" (LError r p) ∉ listeners s')).
Proof.
  intros s Hu Hp. pose proof (wf_reachable w acts) as Hs. fold s in Hs.
  apply unwrap_some in Hu; [|done].
  destruct (wf_request s Hs p _ Hu) as (r0 & [= <-] & _ & Hl).
  destruct (Hl Hp) as [Hsucc Herr]. split; [done|]. split.
  - intros wrapped s1 Hreq Hw.
    destruct (dispatch_success r p wrapped s s1 Hs Hsucc Hreq Hw)
      as (s' & Hd & Hs' & _ & _ & Hp').
    exists s'. split; [done|]. split; [done|]. by eapply not_listening.
  - destruct (dispatch_failure r "error" (LError r p) s Hs (or_introl eq_refl) Herr)
      as (s' & Hd & Hs' & _ & _ & Hp').
    exists s'. split; [done|]. split; [done|]. by eapply not_listening.
Qed.

Lemma with_jobs_same s : jobs s = [] -> with_jobs [] s = s.
Proof. destruct s. simpl. by intros ->. Qed.

(** The success listener of a request whose result is NaN: [wrap] throws
    before [resolve] and [unlisten] are reached. *)
Lemma run_success_nan s r p :
  wf s -> native_get (engine s) r (PStr "result") = VNaN ->
  run_listener (LSuccess r p) s = (Throw TypeError, s).
Proof.
  intros Hs Hres. unfold run_listener, native_read.
  erewrite bind_eq by reflexivity. cbn beta. rewrite Hres.
  unfold bind. by rewrite wrap_nan.
Qed.

Lemma fire_success_nan s r l :
  wf s -> native_get (engine s) r (PStr "result") = VNaN ->
  Registration r "success" l ∈ listeners s ->
  fire r "success" l s = (Ret tt, s).
Proof.
  intros Hs Hres Hin. pose proof (wf_listeners s Hs _ Hin) as Hok.
  unfold reg_ok in Hok. simpl in Hok.
  destruct l as [r0 q|r0 q|t q|t q]; try (destruct Hok as [[= ] _]; fail);
    try (destruct Hok as [[[= ]|[= ]] _]; fail).
  destruct Hok as [[= <-] _].
  unfold fire. erewrite bind_eq by reflexivity. cbn beta.
  rewrite registered_true by done. unfold bind, guarded.
  rewrite run_success_nan by done.
  unfold drain, bind, gets, modify. rewrite (wf_jobs s Hs). simpl.
  by rewrite with_jobs_same by apply (wf_jobs s Hs).
Qed.

Lemma run_listeners_nan s r ls :
  wf s -> native_get (engine s) r (PStr "result") = VNaN ->
  (forall l, l ∈ ls -> Registration r "success" l ∈ listeners s) ->
  run_listeners r "success" ls s = (Ret tt, s).
Proof.
  intros Hs Hres. induction ls as [|l ls IH]; intros Hall; simpl; [done|].
  unfold bind. rewrite fire_success_nan; [|done|done|apply Hall, list_elem_of_here].
  apply IH. intros l' Hl'. apply Hall. by apply list_elem_of_further.
Qed.

(** C6, at its failing input: a request whose result is NaN.  [wrap(NaN)]
    throws a TypeError inside the success listener, because NaN differs from
    itself and cannot be a key of [transformCache]; the listener stops
    before [resolve] and [unlisten].  The success event therefore leaves the
    module exactly as it was: the future still pending, both listeners still
    registered. *)
Theorem request_future_stuck_on_nan (w : world) (acts : list action)
    (r : handle) (p : nat) :
  let s := run acts (loaded w) in
  unwrap (VPromise p) s = VNative r ->
  promise_state s p = Some Pending ->
  native_get (engine s) r (PStr "result") = VNaN ->
  request_listening s r p
  /\ wrap (native_get (engine s) r (PStr "result")) s = (Throw TypeError, s)
  /\ run_listener (LSuccess r p) s = (Throw TypeError, s)
  /\ dispatchEvent r "success" s = (Ret tt, s).
Proof.
  intros s Hu Hp Hres. pose proof (wf_reachable w acts) as Hs. fold s in Hs.
  apply unwrap_some in Hu; [|done].
  destruct (wf_request s Hs p _ Hu) as (r0 & [= <-] & _ & Hl).
  split; [by apply Hl|]. split; [rewrite Hres; by apply wrap_nan|].
  split; [by apply run_success_nan|].
  unfold dispatchEvent. erewrite bind_eq by reflexivity. cbn beta.
  apply run_listeners_nan; try done.
  intros l Hin. apply list_elem_of_fmap in Hin as (reg & -> & Hreg).
  apply list_elem_of_filter in Hreg as [[<- <-] Hreg]. by destruct reg.
Qed.

(** C7. [wrap] of a transaction makes its completion future, once: every
    later read of [done] on the wrapper returns that same promise and leaves
    the state alone, and [cacheDonePromiseForTransaction] makes no other.
    While it is pending, the [complete] event resolves it with no value and
    the [error] and [abort] events reject it with the transaction's error. *)
Theorem transaction_done_memoized (w : world) (acts : list action) (t : handle) :
  let s := run acts (loaded w) in
  instance_of (VNative t) KTransaction = true ->
  exists tx s1 p,
    wrap (VNative t) s = (Ret tx, s1)
    /\ forall later,
         let s2 := run later s1 in
         js_get tx (PStr "done") s2 = (Ret (VPromise p), s2)
         /\ cacheDonePromiseForTransaction (VNative t) s2 = (Ret tt, s2)
         /\ (promise_state s2 p = Some Pending ->
             (exists s', dispatchEvent t "complete" s2 = (Ret tt, s')
                /\ promise_state s' p = Some (Resolved VUndefined))
             /\ forall type, type = "error" \/ type = "abort" ->
                  exists s', dispatchEvent t type s2 = (Ret tt, s')
                    /\ promise_state s' p
                       = Some (Rejected (native_get (engine s2) t (PStr "error")))).
Proof.
  intros s Hk. pose proof (wf_reachable w acts) as Hs. fold s in Hs.
  simpl in Hk. apply bool_decide_eq_true_1 in Hk.
  assert (Hprox : instanceOfAny (VNative t) idbProxyableTypes = true).
  { rewrite proxyable_instance. apply bool_decide_eq_true_2. rewrite Hk.
    unfold idbProxyableTypes. rewrite !elem_of_cons. auto 10. }
  destruct (wrap_handle_ret t s Hs Hprox) as (tx & s1 & Hw & Hc).
  destruct (ok_wrap (VNative t) s Hs) as [Hs1 _]. rewrite Hw in Hs1. simpl in Hs1.
  destruct (cached_proxy s1 t tx Hs1 Hc Hprox) as (id & chain & ->).
  destruct (wf_tx_cached s1 Hs1 _ _ Hc Hk) as [x Hx].
  destruct (wf_done s1 Hs1 _ _ Hx) as (t0 & p & [= <-] & -> & _ & _).
  exists (VProxy id t chain), s1, p. split; [done|]. intros later s2.
  destruct (ok_run later s1 Hs1) as [Hs2 Hg]. fold s2 in Hs2, Hg.
  pose proof (g_done _ _ Hg _ _ Hx) as Hx2.
  split; [|split].
  - unfold js_get, member. rewrite traps_get_transaction by done.
    unfold base_get. rewrite !bool_decide_eq_true_2 by done. simpl.
    unfold gets. by rewrite Hx2.
  - apply cacheDone_known. by eexists.
  - intros Hp. destruct (wf_done s2 Hs2 _ _ Hx2) as (t0 & p0 & [= <-] & [= <-] & _ & Hl).
    destruct (Hl Hp) as (Hcomp & Herr & Habort). split.
    + destruct (dispatch_complete t p s2 Hs2 Hcomp) as (s' & Hd & _ & _ & _ & Hp').
      by exists s'.
    + intros type [-> | ->].
      * destruct (dispatch_failure t "error" (LTxError t p) s2 Hs2 (or_introl eq_refl) Herr)
          as (s' & Hd & _ & _ & _ & Hp'). by exists s'.
      * destruct (dispatch_failure t "abort" (LTxError t p) s2 Hs2 (or_intror eq_refl) Habort)
          as (s' & Hd & _ & _ & _ & Hp'). by exists s'.
Qed.

End Futures.

Lemma request_future_settles_witness :
  let r := Handle KRequest 9 in
  let s := run [AWrap (VNative r)] Sample.s0 in
  request_listening s r 0
  /\ (forall wrapped s1,
        instance_of (native_get (engine s) r (PStr "result")) KRequest = false ->
        wrap (native_get (engine s) r (PStr "result")) s = (Ret wrapped, s1) ->
        exists s', dispatchEvent r "success" s = (Ret tt, s')
          /\ promise_state s' 0 = Some (Resolved wrapped)
          /\ (Registration r "success" (LSuccess r 0) ∉ listeners s')
          /\ (Registration r "error" (LError r 0) ∉ listeners s'))
  /\ (exists s', dispatchEvent r "error" s = (Ret tt, s')
        /\ promise_state s' 0 = Some (Rejected (native_get (engine s) r (PStr "error")))
        /\ (Registration r "success" (LSuccess r 0) ∉ listeners s')
        /\ (Registration r "error" (LError r 0) ∉ listeners s')).
Proof.
  apply (@request_future_settles Sample.indexeddb Sample.w0
           [AWrap (VNative (Handle KRequest 9))] (Handle KRequest 9) 0);
    reflexivity.
Defined.

Lemma transaction_done_memoized_witness :
  exists tx s1 p,
    wrap (VNative Sample.books_tx) Sample.s0 = (Ret tx, s1)
    /\ forall later,
         let s2 := run later s1 in
         js_get tx (PStr "done") s2 = (Ret (VPromise p), s2)
         /\ cacheDonePromiseForTransaction (VNative Sample.books_tx) s2 = (Ret tt, s2)
         /\ (promise_state s2 p = Some Pending ->
             (exists s', dispatchEvent Sample.books_tx "complete" s2 = (Ret tt, s')
                /\ promise_state s' p = Some (Resolved VUndefined))
             /\ forall type, type = "error" \/ type = "abort" ->
                  exists s', dispatchEvent Sample.books_tx type s2 = (Ret tt, s')
                    /\ promise_state s' p
                       = Some (Rejected (native_get (engine s2) Sample.books_tx
                                          (PStr "error")))).
Proof.
  apply (@transaction_done_memoized Sample.indexeddb Sample.w0 [] Sample.books_tx).
  reflexivity.
Defined.

Lemma request_future_stuck_on_nan_witness :
  let r := SampleStore.cursor_request in
  let s := SampleStore.s_nan in
  native_get (engine s) r (PStr "result") = VNaN
  /\ dispatchEvent r "success" s = (Ret tt, s)
  /\ promise_state s 0 = Some Pending
  /\ request_listening s r 0.
Proof.
  destruct (@request_future_stuck_on_nan Sample.indexeddb Sample.w0 SampleStore.nan_acts
              SampleStore.cursor_request 0) as (Hl & _ & _ & Hd); try reflexivity.
  split; [reflexivity|]. split; [exact Hd|]. split; [reflexivity|exact Hl].
Defined.

Section Iteration.
Context `{E : Engine}.

Lemma enter_loop_yields cursor s g ev s' :
  enter_loop cursor s = (Ret (g, ev), s') ->
  (g = GDone /\ ev = Finished)
  \/ (exists f, is_facade f /\ facade_of g = Some f /\ ev = Yielded f).
Proof.
  unfold enter_loop. destruct (negb (truthy cursor)); [intros [= <- <- _]; by left|].
  destruct (negb (is_object cursor)); [done|].
  unfold bind, fresh, modify, ret. intros [= <- <- _]. right.
  eexists. split; [by eexists _, _|]. done.
Qed.

(** One step: a generator that holds a facade keeps it or ends, and yields
    nothing else; one that holds none may create one, which it yields. *)
Lemma gen_step_facade g s g' ev s' :
  gen_step g s = (g', ev, s') ->
  match facade_of g with
  | Some f =>
      (g' = GDone \/ facade_of g' = Some f) /\ (forall v, ev = Yielded v -> v = f)
  | None =>
      (facade_of g' = None /\ (g = GDone -> g' = GDone) /\ forall v, ev <> Yielded v)
      \/ (exists f, is_facade f /\ facade_of g' = Some f /\ ev = Yielded f)
  end.
Proof.
  unfold gen_step. destruct (resume g s) as [[[g0 ev0]|e|] s0] eqn:Hr.
  2,3: intros [= <- <- _]; destruct (facade_of g); [split; [by left|done]|left; done].
  intros [= <- <- _]. destruct g as [this args|a|f cursor|f a|]; simpl in *.
  - destruct (instance_of this KCursor).
    + apply enter_loop_yields in Hr as [[-> ->]|?]; [left; done|by right].
    + unfold bind in Hr. destruct (js_get this (PStr "openCursor") s) as [[fn|?|] s1]; try done.
      destruct (invoke fn this args s1) as [[r|?|] s2]; try done.
      unfold ret in Hr. injection Hr as <- <- _. left. done.
  - unfold bind, gets in Hr. destruct (awaited a s) as [[cursor|?|]|]; try done.
    + apply enter_loop_yields in Hr as [[-> ->]|?]; [left; done|by right].
    + injection Hr as <- <- _. left. done.
  - unfold bind at 1, gets in Hr. cbn beta iota in Hr.
    unfold bind at 1 in Hr.
    destruct ((if truthy (or_undefined (wm_get f (advanceResults s)))
               then ret (or_undefined (wm_get f (advanceResults s)))
               else bind (js_get cursor (PStr "continue"))
                      (fun continue => invoke continue cursor [])) s)
      as [[next|?|] s1]; try done.
    injection Hr as <- <- _. split; [by right|done].
  - unfold bind, gets in Hr. destruct (awaited a s) as [[cursor|?|]|]; try done.
    + unfold modify, ret in Hr. destruct (truthy cursor); injection Hr as <- <- _.
      * split; [by right|]. by intros v [= <-].
      * split; [by left|done].
    + injection Hr as <- <- _. split; [by right|done].
  - injection Hr as <- <- _. left. done.
Qed.

Lemma gen_run_done moves s : gen_run moves GDone s = [].
Proof.
  revert s. induction moves as [|move moves IH]; intros s; simpl; [done|]. apply IH.
Qed.

Lemma gen_run_holding moves g s f :
  facade_of g = Some f -> forall y, y ∈ gen_run moves g s -> y = f.
Proof.
  revert g s. induction moves as [|move moves IH]; intros g s Hf y; simpl.
  { intros Hy. by apply elem_of_nil in Hy. }
  destruct (gen_step g (move s)) as [[g' ev] s'] eqn:Hstep.
  apply gen_step_facade in Hstep. rewrite Hf in Hstep. destruct Hstep as [Hg' Hev].
  assert (Hrest : y ∈ gen_run moves g' s' -> y = f).
  { destruct Hg' as [-> | Hg']; [|by apply IH]. rewrite gen_run_done.
    intros Hy. by apply elem_of_nil in Hy. }
  destruct ev; try done. intros [->|Hy]%elem_of_cons; [by apply Hev|by apply Hrest].
Qed.

(** C8. Whatever happens between the steps of one [iterate] generator, all
    the values it yields are one and the same object: the facade created
    when the first cursor arrived. *)
Theorem iterate_yields_one_facade (moves : list (state -> state))
    (this : value) (args : list value) (s : state) :
  exists facade, is_facade facade /\
    forall y, y ∈ gen_run moves (GStart this args) s -> y = facade.
Proof.
  assert (Hnone : forall moves g s, facade_of g = None ->
            exists facade, is_facade facade /\
              forall y, y ∈ gen_run moves g s -> y = facade).
  { clear. intros moves. induction moves as [|move moves IH]; intros g s Hg; simpl.
    { exists (VFacade 0 VUndefined). split; [by eexists _, _|].
      intros y Hy. by apply elem_of_nil in Hy. }
    destruct (gen_step g (move s)) as [[g' ev] s'] eqn:Hstep.
    apply gen_step_facade in Hstep. rewrite Hg in Hstep.
    destruct Hstep as [(Hg' & _ & Hev)|(f & Hfac & Hg' & ->)].
    - destruct (IH g' s' Hg') as (facade & Hfac & Hall).
      exists facade. split; [done|]. destruct ev; try done. by destruct (Hev v).
    - exists f. split; [done|]. intros y [->|Hy]%elem_of_cons; [done|].
      by eapply gen_run_holding. }
  by apply Hnone.
Qed.

End Iteration.

(** A run over three positions of the sample cursor: the generator yields
    three times, the one facade each time, and then ends. *)
Example iterate_sample_run :
  let facade := VFacade 2 (VProxy 1 SampleStore.first_cursor SampleStore.chain) in
  @gen_run Sample.indexeddb
    [id; id; SampleStore.arrive; id; SampleStore.arrive; id; SampleStore.finish; id]
    (GStart (VProxy 1 SampleStore.first_cursor SampleStore.chain) []) SampleStore.s_cursor
  = [facade; facade; facade].
Proof. vm_compute. reflexivity. Qed.

Section Calls.
Context `{E : Engine}.

(** [wrap] of a function touches the caches at that function only. *)
Lemma wrap_function_frame f s :
  wf s -> hkind f = KFunction ->
  transactionDoneMap (wrap (VNative f) s).2 = transactionDoneMap s
  /\ forall k, k <> VNative f ->
       wm_get k (transformCache (wrap (VNative f) s).2) = wm_get k (transformCache s).
Proof.
  intros Hs Hk.
  assert (Hf : is_function (VNative f) = true) by (simpl; by apply bool_decide_eq_true_2).
  destruct (wm_get (VNative f) (transformCache s)) as [w|] eqn:Hc.
  - by rewrite (wrap_cached _ w) by (by apply function_not_instance || done).
  - rewrite wrap_function by done. simpl. split; [done|]. intros k Hne.
    by rewrite decide_False.
Qed.

(** Calling a native method through its wrapper: the raw function runs on
    the raw receiver and [wrap] is applied to what it returned, in a state
    that differs from the first only by the wrapper's cache entry and the
    engine's progress. *)
Lemma call_through_frames f this h args v e' s :
  wf s -> hkind f = KFunction -> VNative f ∉ cursorAdvanceMethods ->
  wm_get this (reverseTransformCache s) = Some (VNative h) ->
  native_call f (VNative h) args (engine s) = (Ret v, e') ->
  exists s1, wf s1 /\ grows s s1 /\ calm s s1 /\ engine s1 = e'
    /\ transactionDoneMap s1 = transactionDoneMap s
    /\ (forall k, k <> VNative f ->
          wm_get k (transformCache s1) = wm_get k (transformCache s))
    /\ bind (wrap (VNative f)) (fun fn => invoke fn this args) s = wrap v s1.
Proof.
  intros Hs Hk Hn Hthis Hcall.
  destruct (quiet_wrap (VNative f) s Hs) as (Hs1 & Hg & Hc).
  destruct (wrap_function_frame f s Hs Hk) as [Hd Hfr].
  exists (with_engine e' (wrap (VNative f) s).2).
  split; [by apply with_engine_wf|]. split; [by destruct Hg|]. split; [by destruct Hc|].
  split; [done|]. split; [done|]. split; [done|].
  by rewrite (call_through f this h args s Hs Hk Hn Hthis), Hcall.
Qed.

(** Reading a native method off a wrapped handle gives [wrap] of the raw
    member. *)
Lemma method_read id h chain name s :
  isIteratorProp h (PStr name) = false ->
  potentialDatabaseExtra (engine s) h (PStr name) = false ->
  hkind h <> KTransaction ->
  js_get (VProxy id h chain) (PStr name) s = wrap (native_get (engine s) h (PStr name)) s.
Proof.
  intros Hi Hp Ht. unfold js_get, member. apply traps_get_plain. by split; [|split].
Qed.

Lemma cached_reverse s k w :
  wf s -> wm_get k (transformCache s) = Some w ->
  wm_get w (reverseTransformCache s) = Some k.
Proof. intros Hs Hc. by destruct (wf_cache s Hs _ _ Hc). Qed.

Lemma transaction_proxyable t :
  hkind t = KTransaction -> instanceOfAny (VNative t) idbProxyableTypes = true.
Proof.
  intros Hk. rewrite proxyable_instance. apply bool_decide_eq_true_2. rewrite Hk.
  unfold idbProxyableTypes. rewrite !elem_of_cons. auto 10.
Qed.

End Calls.

Section Writes.
Context `{E : Engine}.

(** The closure [getMethod] makes for a write method, called on a wrapped
    database with a store name: it opens a read-write transaction, calls the
    native method on the transaction's sole store, and returns the
    transaction's completion future, not the future of the write's request. *)
Lemma write_closure_returns_done (w : world) (acts : list action)
    (name n : string) (storeName : value) (args : list value) (m : nat)
    (d ftx t fos st fw req : handle) (dbp : value) (e1 e2 e3 : world) :
  let s := run acts (loaded w) in
  bool_decide (name ∈ writeMethods) = true ->
  (* the wrapped database and its native [transaction] method *)
  instance_of (VNative d) KDatabase = true ->
  wm_get (VNative d) (transformCache s) = Some dbp ->
  native_has (engine s) d (PStr "transaction") = true ->
  native_get (engine s) d (PStr "transaction") = VNative ftx ->
  is_function (VNative ftx) = true ->
  bool_decide (VNative ftx ∈ cursorAdvanceMethods) = false ->
  native_call ftx (VNative d) [storeName; VStr "readwrite"] (engine s)
    = (Ret (VNative t), e1) ->
  (* the new transaction and its sole store *)
  instance_of (VNative t) KTransaction = true ->
  wm_get (VNative t) (transformCache s) = None ->
  wm_get (VNative t) (transactionDoneMap s) = None ->
  native_get e1 t (PStr "objectStoreNames") = VStrings [n] ->
  native_get e1 t (PStr "objectStore") = VNative fos ->
  is_function (VNative fos) = true ->
  bool_decide (VNative fos ∈ cursorAdvanceMethods) = false ->
  native_call fos (VNative t) [VStr n] e1 = (Ret (VNative st), e2) ->
  (* the store and its native write method, which returns a request *)
  instance_of (VNative st) KObjectStore = true ->
  native_get e2 st (PStr name) = VNative fw ->
  is_function (VNative fw) = true ->
  bool_decide (VNative fw ∈ cursorAdvanceMethods) = false ->
  native_call fw (VNative st) args e2 = (Ret (VNative req), e3) ->
  instance_of (VNative req) KRequest = true ->
  exists p q s',
    call (VWriteMethod m name) dbp (storeName :: args) s = (Ret (VPromise p), s')
    /\ engine s' = e3
    /\ wm_get (VNative t) (transactionDoneMap s') = Some (VPromise p)
    /\ promise_state s' p = Some Pending
    /\ unwrap (VPromise q) s' = VNative req /\ q <> p
    /\ (forall e4 wrapped s1,
          let s4 := with_engine e4 s' in
          instance_of (native_get e4 req (PStr "result")) KRequest = false ->
          wrap (native_get e4 req (PStr "result")) s4 = (Ret wrapped, s1) ->
          exists s5, dispatchEvent req "success" s4 = (Ret tt, s5)
            /\ promise_state s5 q = Some (Resolved wrapped)
            /\ promise_state s5 p = Some Pending)
    /\ (forall e4, exists s5,
          dispatchEvent t "complete" (with_engine e4 s') = (Ret tt, s5)
          /\ promise_state s5 p = Some (Resolved VUndefined)).
Proof.
  intros s Hname Hd Hdbp Hhas Hgtx Hftx Hatx Hctx Ht Htc Htd Hnames Hgos Hfos Haos Hcos
    Hst Hgw Hfw Haw Hcw Hreq.
  pose proof (wf_reachable w acts) as Hs. fold s in Hs.
  simpl in Hd, Ht, Hst, Hreq, Hftx, Hfos, Hfw.
  apply bool_decide_eq_true_1 in Hd, Ht, Hst, Hreq, Hftx, Hfos, Hfw, Hname.
  apply bool_decide_eq_false_1 in Hatx, Haos, Haw.
  (* the wrapped database *)
  assert (Hdprox : instanceOfAny (VNative d) idbProxyableTypes = true).
  { rewrite proxyable_instance. apply bool_decide_eq_true_2. rewrite Hd.
    unfold idbProxyableTypes. rewrite !elem_of_cons. auto 10. }
  destruct (cached_proxy s d dbp Hs Hdbp Hdprox) as (idd & chaind & ->).
  pose proof (cached_reverse s _ _ Hs Hdbp) as Hdrev.
  (* this.transaction(storeName, 'readwrite') *)
  assert (Hread1 : js_get (VProxy idd d chaind) (PStr "transaction") s = wrap (VNative ftx) s).
  { rewrite method_read, Hgtx; try done; [|congruence].
    unfold potentialDatabaseExtra. rewrite Hhas. simpl. by rewrite andb_false_r. }
  destruct (call_through_frames ftx _ d [storeName; VStr "readwrite"] _ e1 s
              Hs Hftx Hatx Hdrev Hctx) as (s1 & Hs1 & Hg1 & Hc1 & He1 & Hd1 & Hf1 & Hcall1).
  assert (Htc1 : wm_get (VNative t) (transformCache s1) = None).
  { rewrite Hf1; [done|]. intros [= ->]. congruence. }
  assert (Htd1 : wm_get (VNative t) (transactionDoneMap s1) = None) by (by rewrite Hd1).
  pose proof (wrap_transaction t s1 Hs1 Ht Htc1 Htd1) as Hwt.
  set (p := next_id s1) in *.
  set (txp := VProxy (S p) t (idbProxyTraps s1)) in *.
  set (s2 := cached_as (VNative t) txp (done_added t s1)) in *.
  destruct (quiet_wrap (VNative t) s1 Hs1) as (Hs2 & Hg2 & Hc2).
  rewrite Hwt in Hs2, Hg2, Hc2. simpl in Hs2, Hg2, Hc2.
  assert (He2 : engine s2 = e1) by done.
  assert (Hp2 : promises s2 !! p = Some (Promise Pending [])).
  { simpl. by rewrite lookup_insert_eq. }
  assert (Hdone2 : wm_get (VNative t) (transactionDoneMap s2) = Some (VPromise p)).
  { simpl. by rewrite decide_True. }
  assert (Hrev2 : wm_get txp (reverseTransformCache s2) = Some (VNative t)).
  { simpl. by rewrite decide_True. }
  (* tx.store *)
  pose proof (store_read (S p) (idbProxyTraps s1) t s2 [n] Hs2 Ht) as Hstore.
  rewrite He2 in Hstore. specialize (Hstore Hnames). rewrite Hgos in Hstore.
  unfold first_name in Hstore. cbv beta iota in Hstore. fold txp in Hstore.
  assert (Hcos2 : native_call fos (VNative t) [VStr n] (engine s2) = (Ret (VNative st), e2))
    by (by rewrite He2).
  destruct (call_through_frames fos txp t [VStr n] _ e2 s2 Hs2 Hfos Haos Hrev2 Hcos2)
    as (s3 & Hs3 & Hg3 & Hc3 & He3 & _ & _ & Hcall3).
  assert (Hstprox : instanceOfAny (VNative st) idbProxyableTypes = true).
  { rewrite proxyable_instance. apply bool_decide_eq_true_2. rewrite Hst.
    unfold idbProxyableTypes. rewrite !elem_of_cons. auto 10. }
  destruct (wrap_handle_ret st s3 Hs3 Hstprox) as (stp & s4 & Hwst & Hcst).
  destruct (quiet_wrap (VNative st) s3 Hs3) as (Hs4 & Hg4 & Hc4).
  pose proof (wrap_engine (VNative st) s3 Hs3) as He4.
  rewrite Hwst in Hs4, Hg4, Hc4, He4. simpl in Hs4, Hg4, Hc4, He4.
  destruct (cached_proxy s4 st stp Hs4 Hcst Hstprox) as (ids & chains & ->).
  pose proof (cached_reverse s4 _ _ Hs4 Hcst) as Hsrev.
  (* tx.store[name](...args) *)
  assert (He4' : engine s4 = e2) by congruence.
  assert (Hread4 : js_get (VProxy ids st chains) (PStr name) s4 = wrap (VNative fw) s4).
  { rewrite method_read, He4', Hgw; try done.
    - unfold isIteratorProp. rewrite Hst. simpl.
      unfold writeMethods in Hname. rewrite !elem_of_cons, elem_of_nil in Hname.
      destruct Hname as [->|[->|[->|[->|[]]]]]; done.
    - unfold potentialDatabaseExtra. rewrite bool_decide_eq_false_2 by congruence. done.
    - congruence. }
  assert (Hcw4 : native_call fw (VNative st) args (engine s4) = (Ret (VNative req), e3))
    by (by rewrite He4').
  destruct (call_through_frames fw _ st args _ e3 s4 Hs4 Hfw Haw Hsrev Hcw4)
    as (s5 & Hs5 & Hg5 & Hc5 & He5 & _ & _ & Hcall5).
  pose proof (wrap_request req s5 Hs5 Hreq) as Hwreq.
  set (q := next_id s5) in *.
  destruct (quiet_wrap (VNative req) s5 Hs5) as (Hs6 & Hg6 & Hc6).
  rewrite Hwreq in Hs6, Hg6, Hc6. simpl in Hs6, Hg6, Hc6.
  set (s6 := promisified req s5) in *.
  (* the state at the end, compared with the state after wrap(tx) *)
  assert (Hg26 : grows s2 s6).
  { eapply grows_trans; [exact Hg3|]. eapply grows_trans; [exact Hg4|].
    eapply grows_trans; [exact Hg5|exact Hg6]. }
  assert (Hn23 : next_id s2 <= next_id s3) by apply Hg3.
  assert (Hn34 : next_id s3 <= next_id s4) by apply Hg4.
  assert (Hn45 : next_id s4 <= next_id s5) by apply Hg5.
  assert (Hpn : p < next_id s2) by (simpl; lia).
  assert (Hp6 : promises s6 !! p = Some (Promise Pending [])).
  { rewrite (c_promises _ _ Hc6) by lia. rewrite (c_promises _ _ Hc5) by lia.
    rewrite (c_promises _ _ Hc4) by lia. by rewrite (c_promises _ _ Hc3) by lia. }
  pose proof (g_done _ _ Hg26 _ _ Hdone2) as Hdone6.
  (* the call *)
  assert (Hcall : call (VWriteMethod m name) (VProxy idd d chaind) (storeName :: args) s
                  = (Ret (VPromise p), s6)).
  { unfold call, write_method. cbn [hd tl].
    rewrite <- bind_assoc. unfold bind at 1.
    rewrite (bind_same _ _ _ _ Hread1), Hcall1, Hwt.
    unfold bind at 1. rewrite Hstore, Hcall3, Hwst.
    rewrite <- bind_assoc. unfold bind at 1.
    rewrite (bind_same _ _ _ _ Hread4), Hcall5, Hwreq.
    unfold txp, js_get, member. rewrite traps_get_transaction by done.
    unfold base_get. rewrite !bool_decide_eq_true_2 by done. cbn [andb].
    unfold gets. fold s6. by rewrite Hdone6. }
  exists p, q, s6. split; [done|]. split; [done|]. split; [done|].
  split; [unfold promise_state; by rewrite Hp6|].
  split; [unfold unwrap; simpl; by rewrite decide_True|].
  split; [lia|]. split.
  - intros e4 wrapped s7 s4' Hnr Hw7.
    assert (Hs4' : wf s4') by (by apply with_engine_wf).
    assert (Hreg : Registration req "success" (LSuccess req q) ∈ listeners s4').
    { simpl. rewrite elem_of_app, !elem_of_cons. auto. }
    destruct (dispatch_success_keeps_done req q wrapped s4' s7 p Hs4' Hp6 Hreg Hnr Hw7)
      as (s8 & Hd8 & Hq8 & Hp8).
    by exists s8.
  - intros e4.
    assert (Hs4' : wf (with_engine e4 s6)) by (by apply with_engine_wf).
    destruct (wf_done _ Hs4' _ _ Hdone6) as (t0 & p0 & [= <-] & [= <-] & _ & Hl).
    destruct Hl as (Hcomp & _ & _).
    { unfold promise_state. change (promises (with_engine e4 s6)) with (promises s6).
      by rewrite Hp6. }
    destruct (dispatch_complete t p _ Hs4' Hcomp) as (s8 & Hd8 & _ & _ & _ & Hp8).
    by exists s8.
Qed.

End Writes.

Section CursorAdvance.
Context `{E : Engine}.




End CursorAdvance.

#[global] Hint Resolve quiet_invoke quiet_js_index quiet_native_read quiet_getMethod
  quiet_member_nested quiet_facade_get quiet_js_get quiet_read_method quiet_write_method
  quiet_facade_advance quiet_call quiet_enter_loop quiet_resume : quiet.

Section Frames.
Context `{E : Engine}.

Lemma same_tables_refl s : same_tables s s.
Proof. by repeat split. Qed.

Lemma same_tables_trans s1 s2 s3 :
  same_tables s1 s2 -> same_tables s2 s3 -> same_tables s1 s3.
Proof.
  intros (H1 & H2 & H3 & H4 & H5 & H6) (G1 & G2 & G3 & G4 & G5 & G6).
  repeat split; congruence.
Qed.

Lemma frame_ret {A} (a : A) : frame (ret a).
Proof. intros s. apply same_tables_refl. Qed.

Lemma frame_throw {A} e : frame (@throw _ A e).
Proof. intros s. apply same_tables_refl. Qed.

Lemma frame_unsupported {A} : frame (@unsupported _ A).
Proof. intros s. apply same_tables_refl. Qed.

Lemma frame_gets {A} (f : state -> A) : frame (gets f).
Proof. intros s. apply same_tables_refl. Qed.

Lemma frame_bind {A B} (m : M A) (f : A -> M B) :
  frame m -> (forall a, frame (f a)) -> frame (bind m f).
Proof.
  intros Hm Hf s. unfold bind. pose proof (Hm s) as H1.
  destruct (m s) as [[a|e|] s1]; simpl in *; auto.
  eapply same_tables_trans; [exact H1|apply Hf].
Qed.

Lemma frame_modify (f : state -> state) :
  (forall s, same_tables s (f s)) -> frame (modify f).
Proof. intros Hf s. apply Hf. Qed.

Lemma frame_fresh : frame fresh.
Proof. intros s. by repeat split. Qed.

Lemma frame_guarded (m : M unit) : frame m -> frame (guarded m).
Proof.
  intros Hm s. pose proof (Hm s) as H1. unfold guarded.
  by destruct (m s) as [[a|e|] s1].
Qed.

Lemma frame_apply_native func this args : frame (apply_native func this args).
Proof.
  intros s. unfold apply_native. destruct func; try apply same_tables_refl.
  destruct (native_call h this args (engine s)) as [r w]. by repeat split.
Qed.

End Frames.

Create HintDb frame.
#[global] Hint Resolve frame_ret frame_throw frame_unsupported frame_gets frame_fresh
  frame_apply_native : frame.

Ltac frame_steps :=
  repeat first
    [ progress eauto with frame
    | apply frame_bind; [|intros ?]
    | apply frame_guarded
    | apply frame_modify; intros ?; by repeat split
    | match goal with
      | |- frame (if ?b then _ else _) => destruct b
      | |- frame (match ?x with _ => _ end) => destruct x
      end ].

Section Frames2.
Context `{E : Engine}.

Lemma frame_addEventListener t ty l : frame (addEventListener t ty l).
Proof.
  unfold addEventListener. apply frame_modify. intros s.
  case_bool_decide; by repeat split.
Qed.

Lemma frame_removeEventListener t ty l : frame (removeEventListener t ty l).
Proof. unfold removeEventListener. frame_steps. Qed.

Lemma frame_resolve p v : frame (resolve p v).
Proof.
  unfold resolve. apply frame_modify. intros s.
  destruct (promises s !! p) as [[[] ?]|]; by repeat split.
Qed.

Lemma frame_reject p v : frame (reject p v).
Proof.
  unfold reject. apply frame_modify. intros s.
  destruct (promises s !! p) as [[[] ?]|]; by repeat split.
Qed.

Lemma frame_native_read h p : frame (native_read h p).
Proof. unfold native_read. frame_steps. Qed.

Lemma frame_run_job j : frame (run_job j).
Proof. unfold run_job. destruct j as [[] v]. frame_steps. Qed.

Lemma frame_run_jobs js : frame (run_jobs js).
Proof.
  induction js as [|j js IH]; simpl; [apply frame_ret|].
  apply frame_bind; [apply frame_run_job|done].
Qed.

Lemma frame_drain : frame drain.
Proof.
  unfold drain. apply frame_bind; [apply frame_gets|]. intros js.
  apply frame_bind; [apply frame_modify; intros ?; by repeat split|].
  intros _. apply frame_run_jobs.
Qed.

Lemma frame_js_index v i : frame (js_index v i).
Proof. unfold js_index. frame_steps. Qed.

(** A proxy that [wrap] makes carries the trap chain of that moment. *)
Lemma wrap_proxy_traps v s id h t :
  wf s -> (wrap v s).1 = Ret (VProxy id h t) -> wraps (VProxy id h t) v ->
  wm_get v (transformCache s) = None -> t = idbProxyTraps s.
Proof.
  intros Hs Hw [-> Hk] Hc.
  destruct (decide (hkind h = KTransaction)) as [Ht|Ht].
  - destruct (wm_get (VNative h) (transactionDoneMap s)) eqn:Hd.
    + rewrite wrap_transaction_known in Hw by done. by injection Hw as _ <-.
    + rewrite wrap_transaction in Hw by done. by injection Hw as _ <-.
  - rewrite wrap_handle in Hw by done. by injection Hw as _ <-.
Qed.

End Frames2.

#[global] Hint Resolve frame_addEventListener frame_removeEventListener frame_resolve
  frame_reject frame_native_read frame_drain frame_js_index : frame.

Create HintDb inv.

(** Invariants of the tables: a property that the four table updates of the
    library keep is kept by everything the library does. *)
Section Induction.
Context `{E : Engine}.
Variable P : state -> Prop.
Hypothesis P_same : forall s s', same_tables s s' -> P s -> P s'.
Hypothesis P_promisified : forall r s,
  wf s -> hkind r = KRequest -> P s -> P (promisified r s).
Hypothesis P_cached_as : forall v w s,
  wf s -> wm_get v (transformCache s) = None -> wraps w v ->
  ~ allocated (next_id s) w ->
  (forall id h t, w = VProxy id h t -> t = idbProxyTraps s) ->
  P s -> P (cached_as v w s).
Hypothesis P_method : forall name m s,
  truthy (or_undefined (sm_get name (cachedMethods s))) = false ->
  method_for name m ->
  P s -> P (with_cachedMethods ((name, m) :: cachedMethods s) s).
Hypothesis P_facade_method : forall name id s,
  truthy (or_undefined (sm_get name (methodMap s))) = false ->
  name ∈ advanceMethodProps ->
  P s -> P (with_methodMap ((name, VFacadeFn id name) :: methodMap s) s).
Hypothesis P_original : forall id c s,
  P s ->
  P (with_proxiedCursorToOriginal
       (wm_set (VFacade id c) c (proxiedCursorToOriginal s)) s).

Lemma inv_frame {A} (m : M A) : frame m -> inv P m.
Proof. intros Hm s _ HP. eapply P_same; [apply Hm|done]. Qed.

Lemma inv_bind {A B} (m : M A) (f : A -> M B) :
  ok m -> inv P m -> (forall a, inv P (f a)) -> inv P (bind m f).
Proof.
  intros Ho Hm Hf s Hs HP. unfold bind.
  destruct (Ho s Hs) as [Hs1 _]. pose proof (Hm s Hs HP) as HP1.
  destruct (m s) as [[a|e|] s1]; simpl in *; auto.
  by apply Hf.
Qed.

Lemma inv_then_frame {A B} (m : M A) (f : A -> M B) :
  inv P m -> (forall a, frame (f a)) -> inv P (bind m f).
Proof.
  intros Hm Hf s Hs HP. unfold bind. pose proof (Hm s Hs HP) as HP1.
  destruct (m s) as [[a|e|] s1]; simpl in *; auto.
  eapply P_same; [apply Hf|done].
Qed.

Lemma inv_guarded (m : M unit) : inv P m -> inv P (guarded m).
Proof.
  intros Hm s Hs HP. pose proof (Hm s Hs HP) as H1. unfold guarded.
  by destruct (m s) as [[a|e|] s1].
Qed.

Lemma inv_wrap v : inv P (wrap v).
Proof.
  intros s Hs HP.
  destruct (wrap_cases v s Hs)
    as [-> | [(r & -> & Hr & ->) | [(w & Hc & Hw' & Hn & Ha & Ht & Hwr)
                                  | (t & -> & Hk & Hc & Hd & ->)]]]; simpl.
  - done.
  - by apply P_promisified.
  - rewrite Hwr. simpl. apply P_cached_as; try done.
    intros id h t ->. eapply wrap_proxy_traps; [done| |done|done]. by rewrite Hwr.
  - destruct (wf_done_added t s Hs) as [Hs1 _]; [done..|].
    apply P_cached_as; try done.
    + split; [done|]. rewrite Hk. unfold idbProxyableTypes. rewrite !elem_of_cons. auto 10.
    + simpl. lia.
    + by intros id h t' [= _ _ <-].
    + eapply P_same; [|exact HP]. by repeat split.
Qed.

Lemma inv_ret {A} (a : A) : inv P (ret a).
Proof. apply inv_frame, frame_ret. Qed.

Lemma inv_throw {A} e : inv P (@throw _ A e).
Proof. apply inv_frame, frame_throw. Qed.

Lemma inv_unsupported {A} : inv P (@unsupported _ A).
Proof. apply inv_frame, frame_unsupported. Qed.

Lemma inv_gets {A} (f : state -> A) : inv P (gets f).
Proof. apply inv_frame, frame_gets. Qed.

Lemma inv_apply_native func this args : inv P (apply_native func this args).
Proof. apply inv_frame, frame_apply_native. Qed.

Hint Resolve inv_ret inv_throw inv_unsupported inv_gets inv_apply_native inv_wrap : inv.

Ltac inv_steps :=
  repeat first
    [ progress eauto with inv
    | apply inv_frame; solve [frame_steps]
    | apply inv_bind; [solve [apply quiet_ok; quiet_steps]| |intros ?]
    | match goal with
      | |- inv _ (if ?b then _ else _) => destruct b
      | |- inv _ (match ?x with _ => _ end) => destruct x
      end ].

Lemma inv_invoke f this args : inv P (invoke f this args).
Proof. unfold invoke. inv_steps. Qed.

Hint Resolve inv_invoke : inv.

Lemma inv_base_get recv_get target p receiver :
  (forall v q, quiet (recv_get v q)) -> (forall v q, inv P (recv_get v q)) ->
  inv P (base_get recv_get target p receiver).
Proof.
  intros Hq Hr. unfold base_get. inv_steps.
Qed.

Lemma inv_extras_get old target p : inv P old -> inv P (extras_get old target p).
Proof.
  intros Ho s Hs HP. unfold extras_get, bind, gets. cbn beta iota.
  destruct (negb (potentialDatabaseExtra (engine s) target p)); [by apply Ho|].
  destruct p as [name|n]; [|by apply Ho].
  destruct (truthy (or_undefined (sm_get name (cachedMethods s)))) eqn:Ht; [done|].
  unfold getMethod. case_bool_decide as Hr; [|case_bool_decide as Hw].
  - simpl. apply (P_method name (VReadMethod (next_id s) name) (with_next_id (S (next_id s)) s)).
    + exact Ht.
    + left. by eexists.
    + eapply P_same; [|exact HP]. by repeat split.
  - simpl. apply (P_method name (VWriteMethod (next_id s) name) (with_next_id (S (next_id s)) s)).
    + exact Ht.
    + right. by eexists.
    + eapply P_same; [|exact HP]. by repeat split.
  - simpl. by apply Ho.
Qed.

Lemma inv_traps_get recv_get t target p receiver :
  (forall v q, quiet (recv_get v q)) -> (forall v q, inv P (recv_get v q)) ->
  inv P (traps_get recv_get t target p receiver).
Proof.
  intros Hq Hr. induction t; simpl.
  - by apply inv_base_get.
  - by apply inv_extras_get.
  - inv_steps.
Qed.

Lemma inv_member recv_get v p :
  (forall v q, quiet (recv_get v q)) -> (forall v q, inv P (recv_get v q)) ->
  inv P (member recv_get v p).
Proof. intros Hq Hr. unfold member. destruct v; inv_steps. by apply inv_traps_get. Qed.

Lemma inv_member_nested v p : inv P (member_nested v p).
Proof.
  apply inv_member; intros; [apply quiet_unsupported|apply inv_unsupported].
Qed.

Lemma inv_member_top v p : inv P (member member_nested v p).
Proof. apply inv_member; [apply quiet_member_nested|apply inv_member_nested]. Qed.

Hint Resolve inv_member_nested inv_member_top : inv.

Lemma inv_facade_get target p : inv P (facade_get target p).
Proof.
  intros s Hs HP. unfold facade_get.
  destruct p as [name|n]; [|by apply inv_member_top].
  case_bool_decide as Hn; [|by apply inv_member_top].
  unfold bind, gets. cbn beta iota.
  destruct (truthy (or_undefined (sm_get name (methodMap s)))) eqn:Ht; [done|].
  simpl. apply (P_facade_method name (next_id s) (with_next_id (S (next_id s)) s)); try done.
  eapply P_same; [|exact HP]. by repeat split.
Qed.

Hint Resolve inv_facade_get : inv.

Lemma inv_js_get v p : inv P (js_get v p).
Proof. unfold js_get. destruct v; inv_steps. Qed.

Hint Resolve inv_js_get : inv.

Lemma inv_read_method name this args : inv P (read_method name this args).
Proof. unfold read_method. inv_steps. Qed.

Lemma inv_write_method name this args : inv P (write_method name this args).
Proof. unfold write_method. inv_steps. Qed.

Lemma inv_facade_advance name this args : inv P (facade_advance name this args).
Proof. unfold facade_advance. inv_steps. Qed.

Hint Resolve inv_read_method inv_write_method inv_facade_advance : inv.

Lemma inv_call f this args : inv P (call f this args).
Proof. unfold call. destruct f; inv_steps. Qed.

Lemma inv_enter_loop cursor : inv P (enter_loop cursor).
Proof.
  intros s Hs HP. unfold enter_loop.
  destruct (negb (truthy cursor)); [done|]. destruct (negb (is_object cursor)); [done|].
  simpl. apply (P_original (next_id s) cursor (with_next_id (S (next_id s)) s)).
  eapply P_same; [|exact HP]. by repeat split.
Qed.

Hint Resolve inv_enter_loop : inv.

Lemma inv_resume g : inv P (resume g).
Proof. unfold resume. destruct g; inv_steps. Qed.

Lemma inv_run_listener l : inv P (run_listener l).
Proof.
  unfold run_listener. destruct l.
  - apply inv_bind; [apply quiet_ok; quiet_steps|apply inv_gets|intros result].
    apply inv_then_frame; [apply inv_wrap|intros w]. frame_steps.
  - apply inv_frame. frame_steps.
  - apply inv_frame. frame_steps.
  - apply inv_frame. frame_steps.
Qed.

Lemma inv_fire target type l : inv P (fire target type l).
Proof.
  unfold fire. apply inv_bind; [apply ok_gets|apply inv_gets|intros registered].
  destruct registered; [|apply inv_ret].
  apply inv_then_frame; [apply inv_guarded, inv_run_listener|intros _; apply frame_drain].
Qed.

Lemma inv_run_listeners target type ls : inv P (run_listeners target type ls).
Proof.
  induction ls as [|l ls IH]; simpl; [apply inv_ret|].
  apply inv_bind; [apply ok_fire|apply inv_fire|done].
Qed.

Lemma inv_dispatchEvent target type : inv P (dispatchEvent target type).
Proof.
  unfold dispatchEvent. apply inv_bind; [apply ok_gets|apply inv_gets|].
  intros ls. apply inv_run_listeners.
Qed.

Lemma inv_exec a s : wf s -> P s -> P (exec a s).
Proof.
  intros Hs HP. destruct a; simpl.
  - by apply inv_wrap.
  - by apply inv_js_get.
  - by apply inv_call.
  - by apply inv_dispatchEvent.
  - by apply inv_resume.
  - eapply P_same; [|exact HP]. by repeat split.
Qed.

(** The induction principle: [P] holds in every state reached from one
    where it holds. *)
Lemma inv_run acts s : wf s -> P s -> P (run acts s).
Proof.
  revert s. induction acts as [|a acts IH]; intros s Hs HP; simpl; [done|].
  apply IH; [by apply ok_exec|by apply inv_exec].
Qed.

End Induction.

Section TableInvariants.
Context `{E : Engine}.

Lemma mirrored_run acts s : wf s -> mirrored s -> mirrored (run acts s).
Proof.
  apply (inv_run mirrored).
  - intros s1 s2 (Hc & Hr & _) H w k. rewrite Hc, Hr. apply H.
  - intros r s1 Hs Hr H w k. unfold promisified. cbn [reverseTransformCache transformCache wm_get wm_set].
    case_decide as Hw; [|apply H]. intros [= <-]. right. by exists (next_id s1), r.
  - intros v w s1 Hs Hc Hw Hn _ H x k. unfold cached_as.
    cbn [reverseTransformCache transformCache wm_get wm_set].
    case_decide as Hx.
    + intros [= <-]. left. subst x. by rewrite decide_True.
    + intros Hk. destruct (H x k Hk) as [Hf|Hp]; [|by right].
      left. rewrite decide_False; [done|]. intros ->. congruence.
  - intros name m s1 _ _ H. exact H.
  - intros name id s1 _ _ H. exact H.
  - intros id c s1 H. exact H.
Qed.

Lemma chained_run acts s : wf s -> chained s -> chained (run acts s).
Proof.
  apply (inv_run chained).
  - intros s1 s2 (Hc & _ & _ & _ & _ & Ht) H. unfold chained. rewrite Hc, Ht. exact H.
  - intros r s1 _ _ H. exact H.
  - intros v w s1 Hs Hc Hw Hn Ht [H1 H2]. split; [exact H1|].
    intros k id h t. unfold cached_as. cbn [transformCache wm_get wm_set].
    case_decide as Hk; [|apply H2]. intros [= ->]. rewrite <- H1. by eapply Ht.
  - intros name m s1 _ _ H. exact H.
  - intros name id s1 _ _ H. exact H.
  - intros id c s1 H. exact H.
Qed.

Lemma method_for_truthy name m : method_for name m -> truthy m = true.
Proof. by intros [(id & -> & _)|(id & -> & _)]. Qed.

Lemma methods_from_run s0 acts s :
  wf s -> methods_from s0 s -> methods_from s0 (run acts s).
Proof.
  apply (inv_run (methods_from s0)).
  - intros s1 s2 (_ & _ & Hm & _) H. unfold methods_from. rewrite Hm. exact H.
  - intros r s1 _ _ H. exact H.
  - intros v w s1 _ _ _ _ _ H. exact H.
  - intros name m s1 Ht Hm [H1 H2]. split.
    + intros name' m'. cbn [cachedMethods with_cachedMethods sm_get].
      case_decide as Hn; [intros [= <-]; by subst|apply H1].
    + intros name' m' H0 Hf. cbn [cachedMethods with_cachedMethods sm_get].
      case_decide as Hn; [|by apply H2]. subst name'.
      rewrite (H2 _ _ H0 Hf) in Ht. simpl in Ht.
      by rewrite (method_for_truthy _ _ Hf) in Ht.
  - intros name id s1 _ _ H. exact H.
  - intros id c s1 H. exact H.
Qed.

Lemma facade_methods_from_run s0 acts s :
  wf s -> facade_methods_from s0 s -> facade_methods_from s0 (run acts s).
Proof.
  apply (inv_run (facade_methods_from s0)).
  - intros s1 s2 (_ & _ & _ & Hm & _) H. unfold facade_methods_from. rewrite Hm. exact H.
  - intros r s1 _ _ H. exact H.
  - intros v w s1 _ _ _ _ _ H. exact H.
  - intros name m s1 _ _ H. exact H.
  - intros name id s1 Ht Hn [H1 H2]. split.
    + intros name' m'. cbn [methodMap with_methodMap sm_get].
      case_decide as Hn'; [intros [= <-]; subst; by eexists|apply H1].
    + intros name' id' H0. cbn [methodMap with_methodMap sm_get].
      case_decide as Hn'; [|by apply H2]. subst name'.
      by rewrite (H2 _ _ H0) in Ht.
  - intros id c s1 H. exact H.
Qed.

Lemma originals_from_run s0 acts s :
  wf s -> originals_from s0 s -> originals_from s0 (run acts s).
Proof.
  apply (inv_run (originals_from s0)).
  - intros s1 s2 (_ & _ & _ & _ & Hm & _) H. unfold originals_from. rewrite Hm. exact H.
  - intros r s1 _ _ H. exact H.
  - intros v w s1 _ _ _ _ _ H. exact H.
  - intros name m s1 _ _ H. exact H.
  - intros name id s1 _ _ H. exact H.
  - intros id c s1 [H1 H2]. split.
    + intros k x. cbn [proxiedCursorToOriginal with_proxiedCursorToOriginal wm_get wm_set].
      case_decide as Hk; [intros [= <-]; by eexists|apply H1].
    + intros k x H0. cbn [proxiedCursorToOriginal with_proxiedCursorToOriginal wm_get wm_set].
      case_decide as Hk; [|by apply H2]. subst k.
      apply H2 in H0. apply H1 in H0 as [id' [= _ ->]]. done.
Qed.

(** In every state the module reaches, the three tables hold what the
    library put there. *)
Lemma tables_reachable w acts :
  let s := run acts (loaded w) in
  mirrored s /\ methods_from s s /\ facade_methods_from s s /\ originals_from s s
  /\ chained s.
Proof.
  intros s. pose proof (wf_loaded w) as Hw. split; [|split; [|split; [|split]]].
  - apply mirrored_run; [done|]. intros x k Hx. done.
  - destruct (methods_from_run (loaded w) acts (loaded w) Hw) as [H1 _]; [by split|].
    split; [exact H1|auto].
  - destruct (facade_methods_from_run (loaded w) acts (loaded w) Hw) as [H1 _]; [by split|].
    split; [exact H1|auto].
  - destruct (originals_from_run (loaded w) acts (loaded w) Hw) as [H1 _]; [by split|].
    split; [exact H1|auto].
  - apply chained_run; [done|]. by split.
Qed.

End TableInvariants.

Section Helpers.
Context `{E : Engine}.

Lemma cached_not_request s k w :
  wf s -> wm_get k (transformCache s) = Some w -> instance_of k KRequest = false.
Proof.
  intros Hs Hc. destruct (cached_key s k w Hs Hc) as [Hf|(h & -> & Hh)].
  - by apply function_not_instance.
  - simpl. apply bool_decide_eq_false_2. by destruct (proxyable_kinds h Hh).
Qed.

Lemma proxyable_kind h k :
  hkind h = k -> k ∈ idbProxyableTypes -> instanceOfAny (VNative h) idbProxyableTypes = true.
Proof. intros <- Hk. rewrite proxyable_instance. by apply bool_decide_eq_true_2. Qed.

(** [wrap] of a native function only adds the pair to the two caches. *)
Lemma wrap_function_shape f s :
  wf s -> hkind f = KFunction ->
  (wrap (VNative f) s).2 = s
  \/ (wrap (VNative f) s).2
     = cached_as (VNative f) (function_wrapper (next_id s) (VNative f)) s.
Proof.
  intros Hs Hf. destruct (wm_get (VNative f) (transformCache s)) as [x|] eqn:Hc.
  - left. rewrite (wrap_cached _ x); [done| |done].
    simpl. apply bool_decide_eq_false_2. congruence.
  - right. rewrite wrap_function; [done| |done]. simpl. by apply bool_decide_eq_true_2.
Qed.

Lemma wrap_function_keeps f s :
  wf s -> hkind f = KFunction ->
  promises (wrap (VNative f) s).2 = promises s
  /\ listeners (wrap (VNative f) s).2 = listeners s
  /\ engine (wrap (VNative f) s).2 = engine s.
Proof.
  intros Hs Hf. by destruct (wrap_function_shape f s Hs Hf) as [-> | ->].
Qed.

(** Reading a native method off a wrapper. *)
Lemma plain_method_read id h chain name s :
  isIteratorProp h (PStr name) = false ->
  potentialDatabaseExtra (engine s) h (PStr name) = false ->
  name ∉ ["done"; "store"] ->
  js_get (VProxy id h chain) (PStr name) s = wrap (native_get (engine s) h (PStr name)) s.
Proof.
  intros Hi Hp Hn. unfold js_get, member. apply traps_get_plain.
  split; [done|]. split; [done|]. intros _.
  rewrite !elem_of_cons, elem_of_nil in Hn. split; intros [= ->]; tauto.
Qed.

Lemma run_app (a b : list action) (s : state) : run (a ++ b) s = run b (run a s).
Proof. unfold run. apply foldl_app. Qed.

Lemma database_not_iterator d p : hkind d = KDatabase -> isIteratorProp d p = false.
Proof.
  intros Hd. unfold isIteratorProp. rewrite Hd.
  rewrite (bool_decide_eq_false_2 (KDatabase ∈ [KIndex; KObjectStore; KCursor])).
  - rewrite (bool_decide_eq_false_2 (KDatabase ∈ [KIndex; KObjectStore])).
    + by rewrite !andb_false_r.
    + rewrite !elem_of_cons, elem_of_nil. intros [?|[?|[]]]; discriminate.
  - rewrite !elem_of_cons, elem_of_nil. intros [?|[?|[?|[]]]]; discriminate.
Qed.

Lemma extra_candidate s d name :
  hkind d = KDatabase -> native_has (engine s) d (PStr name) = false ->
  potentialDatabaseExtra (engine s) d (PStr name) = true.
Proof.
  intros Hd Hn. unfold potentialDatabaseExtra. rewrite Hn.
  by rewrite bool_decide_eq_true_2.
Qed.

(** The read of a convenience method that is in [cachedMethods]. *)
Lemma extras_read_cached s d id name m :
  hkind d = KDatabase -> native_has (engine s) d (PStr name) = false ->
  sm_get name (cachedMethods s) = Some m -> method_for name m ->
  js_get (VProxy id d full_chain) (PStr name) s = (Ret m, s).
Proof.
  intros Hd Hn Hc Hm. unfold js_get, member, full_chain. cbn [traps_get].
  rewrite database_not_iterator by done.
  unfold extras_get, bind, gets. rewrite extra_candidate by done. cbn [negb].
  rewrite Hc. change (or_undefined (Some m)) with m.
  by rewrite (method_for_truthy _ _ Hm).
Qed.

(** The first read of a convenience method. *)
Lemma extras_read_new s d id name :
  hkind d = KDatabase -> native_has (engine s) d (PStr name) = false ->
  sm_get name (cachedMethods s) = None ->
  name ∈ (readMethods ++ writeMethods)%list ->
  exists m, method_for name m
    /\ js_get (VProxy id d full_chain) (PStr name) s
       = (Ret m, with_cachedMethods ((name, m) :: cachedMethods s)
                   (with_next_id (S (next_id s)) s)).
Proof.
  intros Hd Hn Hc Hin. unfold js_get, member, full_chain. cbn [traps_get].
  rewrite database_not_iterator by done.
  unfold extras_get, bind, gets. rewrite extra_candidate by done. cbn [negb].
  rewrite Hc. change (truthy (or_undefined None)) with false. cbv iota. unfold getMethod.
  apply elem_of_app in Hin.
  case_bool_decide as Hr.
  - exists (VReadMethod (next_id s) name). split; [left; by eexists|done].
  - destruct Hin as [?|Hw]; [done|]. rewrite bool_decide_eq_true_2 by done.
    exists (VWriteMethod (next_id s) name). split; [right; by eexists|done].
Qed.

(** [this.transaction(...targs)] on a wrapped database, when the engine
    returns a transaction the module has not seen: the transaction is
    wrapped and its completion future is made. *)
Lemma open_transaction s d idd chaind ftx t targs e1 :
  wf s -> hkind d = KDatabase ->
  wm_get (VNative d) (transformCache s) = Some (VProxy idd d chaind) ->
  native_has (engine s) d (PStr "transaction") = true ->
  native_get (engine s) d (PStr "transaction") = VNative ftx ->
  hkind ftx = KFunction -> VNative ftx ∉ cursorAdvanceMethods ->
  native_call ftx (VNative d) targs (engine s) = (Ret (VNative t), e1) ->
  hkind t = KTransaction ->
  wm_get (VNative t) (transformCache s) = None ->
  wm_get (VNative t) (transactionDoneMap s) = None ->
  exists s1, wf s1 /\ grows s s1 /\ calm s s1 /\ engine s1 = e1
    /\ bind (js_get (VProxy idd d chaind) (PStr "transaction"))
         (fun f => invoke f (VProxy idd d chaind) targs) s
       = (Ret (VProxy (S (next_id s1)) t (idbProxyTraps s1)),
          cached_as (VNative t) (VProxy (S (next_id s1)) t (idbProxyTraps s1))
            (done_added t s1))
    /\ wf (cached_as (VNative t) (VProxy (S (next_id s1)) t (idbProxyTraps s1))
             (done_added t s1))
    /\ calm s1 (cached_as (VNative t) (VProxy (S (next_id s1)) t (idbProxyTraps s1))
                  (done_added t s1)).
Proof.
  intros Hs Hd Hdbp Hhas Hgtx Hftx Hatx Hctx Ht Htc Htd.
  pose proof (cached_reverse s _ _ Hs Hdbp) as Hdrev.
  assert (Hread1 : js_get (VProxy idd d chaind) (PStr "transaction") s = wrap (VNative ftx) s).
  { rewrite method_read, Hgtx; try done; [|congruence].
    unfold potentialDatabaseExtra. rewrite Hhas. simpl. by rewrite andb_false_r. }
  destruct (call_through_frames ftx _ d targs _ e1 s
              Hs Hftx Hatx Hdrev Hctx) as (s1 & Hs1 & Hg1 & Hc1 & He1 & Hd1 & Hf1 & Hcall1).
  assert (Htc1 : wm_get (VNative t) (transformCache s1) = None).
  { rewrite Hf1; [done|]. intros [= ->]. congruence. }
  assert (Htd1 : wm_get (VNative t) (transactionDoneMap s1) = None) by (by rewrite Hd1).
  pose proof (wrap_transaction t s1 Hs1 Ht Htc1 Htd1) as Hwt.
  destruct (quiet_wrap (VNative t) s1 Hs1) as (Hs2 & Hg2 & Hc2).
  rewrite Hwt in Hs2, Hg2, Hc2. simpl in Hs2, Hg2, Hc2.
  exists s1. split; [done|]. split; [done|]. split; [done|]. split; [done|].
  split; [|by split].
  by rewrite (bind_same _ _ _ _ Hread1), Hcall1.
Qed.



(** What the success listener of a request does to [cursorRequestMap]. *)
Lemma fire_success_map r p w s s1 :
  wf s -> Registration r "success" (LSuccess r p) ∈ listeners s ->
  wrap (native_get (engine s) r (PStr "result")) s = (Ret w, s1) ->
  cursorRequestMap (fire r "success" (LSuccess r p) s).2
  = if instance_of w KCursor then wm_set w (VNative r) (cursorRequestMap s)
    else cursorRequestMap s.
Proof.
  intros Hs Hin Hw. pose proof (wf_listeners s Hs _ Hin) as [_ Hdp]. simpl in Hdp.
  pose proof Hdp as [Hd Hp].
  destruct (quiet_wrap (native_get (engine s) r (PStr "result")) s Hs) as (Hs1 & Hg & Hc).
  rewrite Hw in Hs1, Hg, Hc. simpl in Hs1, Hg, Hc.
  assert (Hp1 : promises s1 !! p = Some (Promise Pending [RCacheCursor (VNative r)])).
  { rewrite (c_promises _ _ Hc); [done|]. by apply (wf_promises s Hs) in Hp. }
  unfold fire. erewrite bind_eq by reflexivity. cbn beta. rewrite registered_true by done.
  pose proof (run_success r p _ w s s1 Hw Hp1) as Hrun.
  unfold bind at 1. rewrite (guarded_ret _ _ _ Hrun).
  unfold drain. erewrite bind_eq by reflexivity. erewrite bind_eq by reflexivity.
  simpl. rewrite (wf_jobs s1 Hs1). simpl. unfold bind. simpl.
  rewrite <- (c_cursor _ _ Hc).
  by destruct (instance_of w KCursor).
Qed.

(** The success event of a request, with the map of cursor requests. *)
Lemma dispatch_success_map r p wrapped s s1 :
  wf s -> Registration r "success" (LSuccess r p) ∈ listeners s ->
  instance_of (native_get (engine s) r (PStr "result")) KRequest = false ->
  wrap (native_get (engine s) r (PStr "result")) s = (Ret wrapped, s1) ->
  exists s', dispatchEvent r "success" s = (Ret tt, s') /\ wf s'
    /\ promise_state s' p = Some (Resolved wrapped)
    /\ (instance_of wrapped KCursor = true ->
        wm_get wrapped (cursorRequestMap s') = Some (VNative r))
    /\ (instance_of wrapped KCursor = false ->
        cursorRequestMap s' = cursorRequestMap s).
Proof.
  intros Hs Hin Hreq Hw.
  set (result := native_get (engine s) r (PStr "result")) in *.
  set (I := fun s0 : state =>
              engine s0 = engine s
              /\ (exists s2, wrap result s0 = (Ret wrapped, s2))
              /\ (instance_of wrapped KCursor = true ->
                  promise_state s0 p = Some (Resolved wrapped) ->
                  wm_get wrapped (cursorRequestMap s0) = Some (VNative r))
              /\ (instance_of wrapped KCursor = false ->
                  cursorRequestMap s0 = cursorRequestMap s)).
  assert (Hpend : promise_state s p = Some Pending).
  { destruct (reg_promise s _ Hs Hin) as [rs Hrs]. unfold promise_state.
    simpl in Hrs. by rewrite Hrs. }
  destruct (dispatch_snapshot r "success" I (fun _ => Resolved wrapped) s (LSuccess r p))
    as (s' & Hd & Hs' & Hg & (He & _ & Hcur & Hnot) & Hp); try done.
  2:{ split; [done|]. split; [by eexists|]. split; [congruence|done]. }
  2:{ exists s'. repeat (split; [done|]). split; [|done]. intros Hk. by apply Hcur. }
  apply run_listeners_all. intros l s0 Hs0 (He0 & [s2 Hw0] & Hcur0 & Hnot0) Hl.
  pose proof (wf_listeners s0 Hs0 _ Hl) as Hok. unfold reg_ok in Hok. simpl in Hok.
  destruct l as [r0 q|r0 q|t q|t q]; try (destruct Hok as [[= ] _]; fail);
    try (destruct Hok as [[[= ]|[= ]] _]; fail).
  destruct Hok as [[= <-] Hrq].
  assert (Hw0' : wrap (native_get (engine s0) r (PStr "result")) s0 = (Ret wrapped, s2))
    by (by rewrite He0).
  pose proof (fire_success_map r q wrapped s0 s2 Hs0 Hl Hw0') as Hmap.
  destruct (fire_success r q wrapped s0 s2 Hs0 Hl Hw0')
    as (s3 & Hf & Hst & He3 & Hs3 & Hg3 & Hc3).
  rewrite Hf in Hmap. simpl in Hmap.
  assert (Hstable : wrap result s3 = (Ret wrapped, s3)).
  { eapply wrap_stable; [done|apply Hw0|done|].
    destruct (quiet_wrap result s0 Hs0) as (Hs2 & _ & Hc). rewrite Hw0 in Hs2, Hc.
    simpl in Hs2, Hc.
    assert (Hq : exists rs, promises s2 !! q = Some (Promise Pending rs)).
    { destruct Hrq as [_ Hq]. rewrite (c_promises _ _ Hc); [by eexists|].
      by apply (wf_promises s0 Hs0) in Hq. }
    destruct Hq as [rs Hq].
    by destruct (wf_settled q (Resolved wrapped) rs s2 s3 Hs2 Hq ltac:(done) Hst). }
  exists s3. split; [done|]. split; [done|]. split; [done|].
  split.
  { split; [congruence|]. split; [by exists s3|]. split.
    - intros Hk _. by apply Hc3.
    - intros Hk. rewrite Hmap, Hk. by apply Hnot0. }
  split; [by apply (settled_state _ _ s2)|]. split; [done|].
  intros l' Hne Hl'. simpl in Hne.
  eapply settled_keeps; [exact Hst|done|].
  destruct (quiet_wrap result s0 Hs0) as (_ & _ & Hc). rewrite Hw0 in Hc. simpl in Hc.
  by apply (c_keep _ _ Hc).
Qed.

Lemma pending_request_listening s p r :
  wf s -> unwrap (VPromise p) s = VNative r -> promise_state s p = Some Pending ->
  request_listening s r p.
Proof.
  intros Hs Hu Hp. apply unwrap_some in Hu; [|done].
  destruct (wf_request s Hs p _ Hu) as (r0 & [= <-] & _ & Hl). by apply Hl.
Qed.

End Helpers.

Section WriteMethods.
Context `{E : Engine}.

Lemma write_not_read name : name ∈ writeMethods -> name ∉ readMethods.
Proof.
  unfold writeMethods. rewrite !elem_of_cons, elem_of_nil.
  intros [->|[->|[->|[->|[]]]]];
    match goal with |- ?x ∉ ?l => by apply (bool_decide_eq_false_1 (x ∈ l)) end.
Qed.

(** The read of a convenience method on a wrapped database: the closure
    for the name, from [cachedMethods] or made now; nothing else changes. *)
Lemma extras_read s d id name :
  (forall n m, sm_get n (cachedMethods s) = Some m -> method_for n m) ->
  hkind d = KDatabase -> native_has (engine s) d (PStr name) = false ->
  name ∈ (readMethods ++ writeMethods)%list ->
  exists m s0, method_for name m
    /\ js_get (VProxy id d full_chain) (PStr name) s = (Ret m, s0)
    /\ sm_get name (cachedMethods s0) = Some m
    /\ engine s0 = engine s
    /\ transformCache s0 = transformCache s
    /\ transactionDoneMap s0 = transactionDoneMap s.
Proof.
  intros Hm Hd Hn Hin. destruct (sm_get name (cachedMethods s)) as [m|] eqn:Hcm.
  - exists m, s. pose proof (Hm _ _ Hcm) as Hf.
    rewrite (extras_read_cached s d id name m) by done. auto 10.
  - destruct (extras_read_new s d id name Hd Hn Hcm Hin) as (m & Hf & ->).
    eexists m, _. split; [done|]. split; [done|].
    split; [simpl; by rewrite decide_True|]. done.
Qed.

(** C4. A convenience write method ([put], [add], [delete] or [clear]) that
    the raw database does not have, read off a wrapped database and called
    with a store name: the engine is asked, in this order, for a [readwrite]
    transaction on the store, for the transaction's sole store, and for the
    write itself; the call returns the completion future of that
    transaction, not the future of the write.  For a transaction the module
    had not seen, that future is pending when the call returns, stays
    pending through the success event of the write, and resolves on the
    transaction's [complete] event. *)
Theorem write_method_returns_done (w : world) (acts : list action)
    (name n : string) (storeName : value) (args : list value)
    (d ftx t fos st fw req : handle) (dbp : value) (e1 e2 e3 : world) :
  let s := run acts (loaded w) in
  bool_decide (name ∈ writeMethods) = true ->
  (* the wrapped database, which has no native member of that name, and its
     native [transaction] method *)
  instance_of (VNative d) KDatabase = true ->
  wm_get (VNative d) (transformCache s) = Some dbp ->
  native_has (engine s) d (PStr name) = false ->
  native_has (engine s) d (PStr "transaction") = true ->
  native_get (engine s) d (PStr "transaction") = VNative ftx ->
  is_function (VNative ftx) = true ->
  bool_decide (VNative ftx ∈ cursorAdvanceMethods) = false ->
  native_call ftx (VNative d) [storeName; VStr "readwrite"] (engine s)
    = (Ret (VNative t), e1) ->
  (* the new transaction and its sole store *)
  instance_of (VNative t) KTransaction = true ->
  wm_get (VNative t) (transformCache s) = None ->
  wm_get (VNative t) (transactionDoneMap s) = None ->
  native_get e1 t (PStr "objectStoreNames") = VStrings [n] ->
  native_get e1 t (PStr "objectStore") = VNative fos ->
  is_function (VNative fos) = true ->
  bool_decide (VNative fos ∈ cursorAdvanceMethods) = false ->
  native_call fos (VNative t) [VStr n] e1 = (Ret (VNative st), e2) ->
  (* the store and its native write method, which returns a request *)
  instance_of (VNative st) KObjectStore = true ->
  native_get e2 st (PStr name) = VNative fw ->
  is_function (VNative fw) = true ->
  bool_decide (VNative fw ∈ cursorAdvanceMethods) = false ->
  native_call fw (VNative st) args e2 = (Ret (VNative req), e3) ->
  instance_of (VNative req) KRequest = true ->
  exists p q s',
    (let* method := js_get dbp (PStr name) in call method dbp (storeName :: args)) s
    = (Ret (VPromise p), s')
    /\ engine s' = e3
    /\ wm_get (VNative t) (transactionDoneMap s') = Some (VPromise p)
    /\ promise_state s' p = Some Pending
    /\ unwrap (VPromise q) s' = VNative req /\ q <> p
    /\ (forall e4 wrapped s1,
          let s4 := with_engine e4 s' in
          instance_of (native_get e4 req (PStr "result")) KRequest = false ->
          wrap (native_get e4 req (PStr "result")) s4 = (Ret wrapped, s1) ->
          exists s5, dispatchEvent req "success" s4 = (Ret tt, s5)
            /\ promise_state s5 q = Some (Resolved wrapped)
            /\ promise_state s5 p = Some Pending)
    /\ (forall e4, exists s5,
          dispatchEvent t "complete" (with_engine e4 s') = (Ret tt, s5)
          /\ promise_state s5 p = Some (Resolved VUndefined)).
Proof.
  intros s Hname Hd Hdbp Hnhas Hhas Hgtx Hftx Hatx Hctx Ht Htc Htd Hnames Hgos Hfos Haos
    Hcos Hst Hgw Hfw Haw Hcw Hreq.
  pose proof (wf_reachable w acts) as Hs. fold s in Hs.
  destruct (tables_reachable w acts) as (_ & [Hm _] & _ & _ & [_ Hch]). fold s in Hm, Hch.
  pose proof Hname as Hname'. apply bool_decide_eq_true_1 in Hname'.
  pose proof Hd as Hd'. simpl in Hd'. apply bool_decide_eq_true_1 in Hd'.
  assert (Hprox : instanceOfAny (VNative d) idbProxyableTypes = true).
  { eapply proxyable_kind; [done|]. unfold idbProxyableTypes. rewrite !elem_of_cons. auto. }
  destruct (cached_proxy s d dbp Hs Hdbp Hprox) as (id & chain & ->).
  pose proof (Hch _ _ _ _ Hdbp) as ->.
  destruct (extras_read s d id name Hm Hd' Hnhas)
    as (m & s0 & Hf & Hget & _ & He0 & Hc0 & Hd0).
  { apply elem_of_app. by right. }
  destruct Hf as [(i & -> & Hr)|(i & -> & _)]; [by destruct (write_not_read name Hname')|].
  assert (Hs0 : s0 = run (acts ++ [AGet (VProxy id d full_chain) (PStr name)]) (loaded w)).
  { rewrite run_app. change (s0 = (js_get (VProxy id d full_chain) (PStr name) s).2).
    by rewrite Hget. }
  destruct (write_closure_returns_done w
              (acts ++ [AGet (VProxy id d full_chain) (PStr name)])
              name n storeName args i d ftx t fos st fw req (VProxy id d full_chain) e1 e2 e3)
    as (p & q & s' & Hcall & Hrest); try done;
    try (rewrite <- Hs0; rewrite ?He0, ?Hc0, ?Hd0; done).
  exists p, q, s'. split; [|exact Hrest].
  unfold bind. rewrite Hget. rewrite <- Hs0 in Hcall. exact Hcall.
Qed.

End WriteMethods.

Lemma write_method_returns_done_witness :
  let dbp := VProxy 0 Sample.db SampleStore.chain in
  let t := Handle KTransaction 5 in
  let req := Handle KRequest 7 in
  exists p q s',
    (let* method := js_get dbp (PStr "put") in
     call method dbp [VStr "books"; VStr "Middlemarch"]) SampleStore.s_db
    = (Ret (VPromise p), s')
    /\ Sample.w_log (engine s')
       = [("transaction", VNative Sample.db, [VStr "books"; VStr "readwrite"]);
          ("objectStore", VNative t, [VStr "books"]);
          ("put", VNative (Handle KObjectStore 6), [VStr "Middlemarch"])]
    /\ wm_get (VNative t) (transactionDoneMap s') = Some (VPromise p)
    /\ promise_state s' p = Some Pending
    /\ unwrap (VPromise q) s' = VNative req /\ q <> p
    /\ (forall e4, exists s5,
          dispatchEvent t "complete" (with_engine e4 s') = (Ret tt, s5)
          /\ promise_state s5 p = Some (Resolved VUndefined)).
Proof.
  pose (e1 := (Sample.s_call (Sample.fn "transaction") (VNative Sample.db)
                 [VStr "books"; VStr "readwrite"] Sample.w0).2).
  pose (e2 := (Sample.s_call (Sample.fn "objectStore") (VNative (Handle KTransaction 5))
                 [VStr "books"] e1).2).
  pose (e3 := (Sample.s_call (Sample.fn "put") (VNative (Handle KObjectStore 6))
                 [VStr "Middlemarch"] e2).2).
  destruct (@write_method_returns_done Sample.indexeddb Sample.w0
              [AWrap (VNative Sample.db)] "put" "books" (VStr "books")
              [VStr "Middlemarch"]
              Sample.db (Sample.fn "transaction") (Handle KTransaction 5)
              (Sample.fn "objectStore") (Handle KObjectStore 6) (Sample.fn "put")
              (Handle KRequest 7) (VProxy 0 Sample.db SampleStore.chain) e1 e2 e3)
    as (p & q & s' & Hcall & He & Hdone & Hp & Hq & Hne & _ & Hcomplete);
    try reflexivity.
  exists p, q, s'. split; [exact Hcall|]. split; [by rewrite He|]. auto 10.
Defined.

Section AdvanceMethods.
Context `{E : Engine}.




End AdvanceMethods.



Section ReverseFrames.
Context `{E : Engine}.

Lemma rframe_frame {A} (m : M A) : frame m -> rframe m.
Proof. intros Hm s. by destruct (Hm s) as (_ & ? & _). Qed.

Lemma rframe_ret {A} (a : A) : rframe (ret a).
Proof. done. Qed.

Lemma rframe_throw {A} e : rframe (@throw _ A e).
Proof. done. Qed.

Lemma rframe_unsupported {A} : rframe (@unsupported _ A).
Proof. done. Qed.

Lemma rframe_gets {A} (f : state -> A) : rframe (gets f).
Proof. done. Qed.

Lemma rframe_bind {A B} (m : M A) (f : A -> M B) :
  rframe m -> (forall a, rframe (f a)) -> rframe (bind m f).
Proof.
  intros Hm Hf s. unfold bind. pose proof (Hm s) as H1.
  destruct (m s) as [[a|e|] s1]; simpl in *; auto.
  by rewrite Hf.
Qed.

Lemma rframe_modify (f : state -> state) :
  (forall s, reverseTransformCache (f s) = reverseTransformCache s) -> rframe (modify f).
Proof. intros Hf s. apply Hf. Qed.

Lemma rframe_guarded (m : M unit) : rframe m -> rframe (guarded m).
Proof.
  intros Hm s. pose proof (Hm s) as H1. unfold guarded.
  by destruct (m s) as [[a|e|] s1].
Qed.

End ReverseFrames.

Create HintDb rframe.
#[global] Hint Resolve rframe_ret rframe_throw rframe_unsupported rframe_gets : rframe.

Ltac rframe_steps :=
  repeat first
    [ progress eauto with rframe
    | apply rframe_frame; solve [frame_steps]
    | apply rframe_bind; [|intros ?]
    | apply rframe_guarded
    | apply rframe_modify; intros ?; reflexivity
    | match goal with
      | |- rframe (if ?b then _ else _) => destruct b
      | |- rframe (match ?x with _ => _ end) => destruct x
      end ].

Section LoggedRuns.
Context `{E : Engine}.

Lemma sound_lift {A} (m : M A) : rframe m -> sound (lift m) m.
Proof.
  intros Hm. split.
  - intros s l. unfold lift. simpl. by destruct (m s).
  - intros [s l] Hs Hc v k. unfold lift. simpl in *. pose proof (Hm s) as Hr.
    destruct (m s) as [o s1]. simpl in *. intros Hv. rewrite Hr in Hv. by apply (Hc v k).
Qed.

Lemma sound_ret {A} (a : A) : sound (lret a) (ret a).
Proof. split; [done|]. by intros sl _ Hc. Qed.

Lemma sound_bind {A B} (m' : LM A) (m : M A) (f' : A -> LM B) (f : A -> M B) :
  sound m' m -> ok m -> (forall a, sound (f' a) (f a)) ->
  sound (lbind m' f') (bind m f).
Proof.
  intros [He Hc] Ho Hf. split.
  - intros s l. unfold lbind, bind. pose proof (He s l) as H1.
    destruct (m' (s, l)) as [o [s1 l1]]. simpl in H1. rewrite <- H1.
    destruct o as [a|e|]; try done. apply (proj1 (Hf a)).
  - intros [s l] Hs Hcov. unfold lbind. pose proof (He s l) as H1.
    pose proof (Hc (s, l) Hs Hcov) as H2. destruct (Ho s Hs) as [Hs1 _].
    destruct (m' (s, l)) as [o [s1 l1]]. simpl in *. rewrite <- H1 in Hs1. simpl in Hs1.
    destruct o as [a|e|]; try done. by apply (proj2 (Hf a)).
Qed.

Lemma sound_then_lift {A B} (m' : LM A) (m : M A) (f : A -> M B) :
  sound m' m -> (forall a, rframe (f a)) ->
  sound (lbind m' (fun a => lift (f a))) (bind m f).
Proof.
  intros [He Hc] Hf. split.
  - intros s l. unfold lbind, bind. pose proof (He s l) as H1.
    destruct (m' (s, l)) as [o [s1 l1]]. simpl in H1. rewrite <- H1.
    destruct o as [a|e|]; try done. apply (proj1 (sound_lift _ (Hf a))).
  - intros [s l] Hs Hcov. unfold lbind.
    pose proof (Hc (s, l) Hs Hcov) as H2.
    destruct (m' (s, l)) as [o [s1 l1]]. simpl in *.
    destruct o as [a|e|]; try done.
    unfold lift. simpl. pose proof (Hf a s1) as Hr.
    destruct (f a s1) as [o2 s2]. simpl in *. intros v k Hv. simpl in Hv.
    rewrite Hr in Hv. by apply (H2 v k).
Qed.

Lemma sound_guarded (m' : LM unit) (m : M unit) :
  sound m' m -> sound (guarded_logged m') (guarded m).
Proof.
  intros [He Hc]. split.
  - intros s l. unfold guarded_logged, guarded. pose proof (He s l) as H1.
    destruct (m' (s, l)) as [o [s1 l1]]. simpl in H1. rewrite <- H1. by destruct o.
  - intros sl Hs Hcov. unfold guarded_logged. pose proof (Hc sl Hs Hcov) as H2.
    by destruct (m' sl) as [[a|e|] sl1].
Qed.

Lemma sound_wrap v : sound (wrap_logged v) (wrap v).
Proof.
  split.
  - intros s l. unfold wrap_logged. simpl. by destruct (wrap v s) as [[x|e|] s1].
  - intros [s l] Hs Hcov x k. unfold wrap_logged. simpl in *.
    pose proof (wrap_reverse_key v s x k Hs) as Hkey.
    destruct (wrap v s) as [[x0|e|] s1]; simpl in *; intros Hx;
      destruct (Hkey Hx) as [Hold|Hnew]; try done.
    + apply elem_of_app. left. by eapply Hcov.
    + injection Hnew as ->. apply elem_of_app. right. apply list_elem_of_here.
    + by eapply Hcov.
    + by eapply Hcov.
Qed.

End LoggedRuns.

Create HintDb sound.
#[global] Hint Resolve sound_ret sound_wrap : sound.

Ltac sound_steps :=
  repeat first
    [ progress eauto with sound
    | apply sound_lift; solve [rframe_steps]
    | apply sound_bind; [|solve [apply quiet_ok; quiet_steps]|intros ?]
    | match goal with
      | |- sound (if ?b then _ else _) (if ?b then _ else _) => destruct b
      | |- sound (match ?x with _ => _ end) (match ?x with _ => _ end) => destruct x
      end ].

Section LoggedLibrary.
Context `{E : Engine}.

Lemma rframe_getMethod name : rframe (getMethod name).
Proof. unfold getMethod. rframe_steps. Qed.

Hint Resolve rframe_getMethod : rframe.

Lemma rframe_invoke_plain f this args :
  (forall id g, f <> VAdvanceFn id g) -> (forall id g, f <> VWrappedFn id g) ->
  rframe (invoke f this args).
Proof.
  intros Ha Hw. unfold invoke. destruct f; rframe_steps.
  - by destruct (Hw id f).
  - by destruct (Ha id f).
Qed.

Lemma sound_invoke f this args : sound (invoke_logged f this args) (invoke f this args).
Proof.
  destruct f; try (apply sound_lift; apply rframe_invoke_plain; intros; discriminate).
  - unfold invoke_logged, invoke. sound_steps.
  - unfold invoke_logged, invoke. sound_steps.
Qed.

Hint Resolve sound_invoke : sound.

Lemma sound_base_get recv_get' recv_get target p receiver :
  (forall v q, sound (recv_get' v q) (recv_get v q)) ->
  (forall v q, quiet (recv_get v q)) ->
  sound (base_get_logged recv_get' target p receiver) (base_get recv_get target p receiver).
Proof. intros Hr Hq. unfold base_get_logged, base_get. sound_steps. Qed.

Lemma sound_extras_get old' old target p :
  sound old' old -> sound (extras_get_logged old' target p) (extras_get old target p).
Proof. intros Ho. unfold extras_get_logged, extras_get. sound_steps. Qed.

Lemma sound_traps_get recv_get' recv_get t target p receiver :
  (forall v q, sound (recv_get' v q) (recv_get v q)) ->
  (forall v q, quiet (recv_get v q)) ->
  sound (traps_get_logged recv_get' t target p receiver)
    (traps_get recv_get t target p receiver).
Proof.
  intros Hr Hq. induction t; simpl.
  - by apply sound_base_get.
  - by apply sound_extras_get.
  - sound_steps.
Qed.

Lemma sound_member recv_get' recv_get v p :
  (forall v q, sound (recv_get' v q) (recv_get v q)) ->
  (forall v q, quiet (recv_get v q)) ->
  sound (member_logged recv_get' v p) (member recv_get v p).
Proof.
  intros Hr Hq. unfold member_logged, member.
  destruct v; try (apply sound_lift; rframe_steps).
  by apply sound_traps_get.
Qed.

Lemma sound_member_nested v p : sound (member_nested_logged v p) (member_nested v p).
Proof.
  apply sound_member; intros; [apply sound_lift; rframe_steps|apply quiet_unsupported].
Qed.

Lemma sound_member_top v p :
  sound (member_logged member_nested_logged v p) (member member_nested v p).
Proof. apply sound_member; [apply sound_member_nested|apply quiet_member_nested]. Qed.

Hint Resolve sound_member_top : sound.

Lemma sound_facade_get target p : sound (facade_get_logged target p) (facade_get target p).
Proof.
  unfold facade_get_logged. destruct p as [name|n].
  - case_bool_decide as Hn.
    + apply sound_lift. unfold facade_get. rewrite bool_decide_eq_true_2 by done.
      rframe_steps.
    + unfold facade_get. rewrite bool_decide_eq_false_2 by done. apply sound_member_top.
  - apply sound_member_top.
Qed.

Hint Resolve sound_facade_get : sound.

Lemma sound_js_get v p : sound (js_get_logged v p) (js_get v p).
Proof. unfold js_get_logged, js_get. destruct v; sound_steps. Qed.

Hint Resolve sound_js_get : sound.

Lemma sound_read_method name this args :
  sound (read_method_logged name this args) (read_method name this args).
Proof. unfold read_method_logged, read_method. cbv zeta. sound_steps. Qed.

Lemma sound_write_method name this args :
  sound (write_method_logged name this args) (write_method name this args).
Proof. unfold write_method_logged, write_method. cbv zeta. sound_steps. Qed.

Lemma sound_facade_advance name this args :
  sound (facade_advance_logged name this args) (facade_advance name this args).
Proof. unfold facade_advance_logged, facade_advance. sound_steps. Qed.

Hint Resolve sound_read_method sound_write_method sound_facade_advance : sound.

Lemma sound_call f this args : sound (call_logged f this args) (call f this args).
Proof. unfold call_logged, call. destruct f; sound_steps. Qed.

Lemma rframe_drain : rframe drain.
Proof. apply rframe_frame, frame_drain. Qed.

Lemma sound_run_listener l : sound (run_listener_logged l) (run_listener l).
Proof.
  destruct l; try (apply sound_lift; unfold run_listener; rframe_steps).
  unfold run_listener_logged, run_listener.
  apply sound_bind; [sound_steps|apply quiet_ok; quiet_steps|intros result].
  apply sound_then_lift; [apply sound_wrap|intros w]. rframe_steps.
Qed.

Lemma sound_fire target type l : sound (fire_logged target type l) (fire target type l).
Proof.
  unfold fire_logged, fire.
  apply sound_bind; [sound_steps|apply ok_gets|intros registered].
  destruct registered; [|apply sound_ret].
  apply sound_then_lift; [apply sound_guarded, sound_run_listener|].
  intros _. apply rframe_drain.
Qed.

Lemma sound_run_listeners target type ls :
  sound (run_listeners_logged target type ls) (run_listeners target type ls).
Proof.
  induction ls as [|l ls IH]; simpl; [apply sound_ret|].
  apply sound_bind; [apply sound_fire|apply ok_fire|done].
Qed.

Lemma sound_dispatchEvent target type :
  sound (dispatchEvent_logged target type) (dispatchEvent target type).
Proof.
  unfold dispatchEvent_logged, dispatchEvent.
  apply sound_bind; [sound_steps|apply ok_gets|]. intros ls. apply sound_run_listeners.
Qed.

Lemma rframe_enter_loop cursor : rframe (enter_loop cursor).
Proof. unfold enter_loop. rframe_steps. Qed.

Lemma sound_resume g : sound (resume_logged g) (resume g).
Proof.
  destruct g; try (apply sound_lift; unfold resume; pose proof rframe_enter_loop;
                   rframe_steps).
  - unfold resume_logged, resume. destruct (instance_of this KCursor).
    + apply sound_lift, rframe_enter_loop.
    + sound_steps.
  - unfold resume_logged, resume. sound_steps.
Qed.

(** One action: the logged run does what the plain run does, and keeps the
    keys of the reverse cache in the log. *)
Lemma exec_logged_sound a s l :
  wf s -> covered (s, l) ->
  (exec_logged a (s, l)).1 = exec a s /\ covered (exec_logged a (s, l)).
Proof.
  intros Hs Hc.
  assert (Hm : forall A (m' : LM A) (m : M A), sound m' m ->
            (m' (s, l)).2.1 = (m s).2 /\ covered (m' (s, l)).2).
  { intros A m' m [He Hcov]. split; [by rewrite <- (He s l)|by apply Hcov]. }
  destruct a; simpl.
  - apply Hm, sound_wrap.
  - apply Hm, sound_js_get.
  - apply Hm, sound_call.
  - apply Hm, sound_dispatchEvent.
  - apply Hm, sound_resume.
  - done.
Qed.

Lemma run_logged_sound acts s l :
  wf s -> covered (s, l) ->
  (run_logged acts (s, l)).1 = run acts s /\ covered (run_logged acts (s, l)).
Proof.
  revert s l. induction acts as [|a acts IH]; intros s l Hs Hc; simpl; [done|].
  destruct (exec_logged_sound a s l Hs Hc) as [He Hc1].
  destruct (exec_logged a (s, l)) as [s1 l1] eqn:Hx. simpl in He. subst s1.
  apply IH; [by apply ok_exec|done].
Qed.

(** In every state the module reaches, [unwrap] is [undefined] on every
    value that no call of [wrap] has returned. *)
Lemma unwrap_produced w acts :
  (run_logged acts (loaded w, [])).1 = run acts (loaded w)
  /\ forall v, v ∉ produced acts w -> unwrap v (run acts (loaded w)) = VUndefined.
Proof.
  destruct (run_logged_sound acts (loaded w) [] (wf_loaded w)) as [He Hc].
  { intros v k Hv. done. }
  split; [done|]. intros v Hv. unfold unwrap.
  destruct (wm_get v (reverseTransformCache (run acts (loaded w)))) as [k|] eqn:Hk; [|done].
  exfalso. apply Hv. unfold produced. eapply Hc. rewrite He. exact Hk.
Qed.

End LoggedLibrary.

Section Identity.
Context `{E : Engine}.

(** C1. For every raw handle of a wrappable kind (database, object store,
    index, cursor or transaction), in any state the module can reach, [wrap]
    returns a wrapper; every later [wrap] of the same handle returns that
    same wrapper, and [unwrap] of the wrapper is the handle.  In any state
    the module can reach, after reads, calls, events and iteration steps,
    [unwrap] of a value that no call of [wrap] has returned, the library's
    own calls included, is [undefined]; the logged run that collects those
    values reaches the same state as the plain run. *)
Theorem wrap_identity_stable (w : world) (acts : list action) (h : handle) :
  instanceOfAny (VNative h) idbProxyableTypes = true ->
  (exists wrapped s1,
      wrap (VNative h) (run acts (loaded w)) = (Ret wrapped, s1)
      /\ forall later,
           wrap (VNative h) (run later s1) = (Ret wrapped, run later s1)
           /\ unwrap wrapped (run later s1) = VNative h)
  /\ (run_logged acts (loaded w, [])).1 = run acts (loaded w)
  /\ (forall v,
        v ∉ produced acts w ->
        unwrap v (run acts (loaded w)) = VUndefined)
  /\ (forall vs v,
        v ∉ (wrap_all vs (loaded w)).1 ->
        unwrap v (wrap_all vs (loaded w)).2 = VUndefined).
Proof.
  intros Hk. split; [|split; [|split]].
  - pose proof (wf_reachable w acts) as Hs.
    destruct (wrap_handle_ret h _ Hs Hk) as (wrapped & s1 & Hw & Hc).
    exists wrapped, s1. split; [done|]. intros later.
    destruct (ok_wrap (VNative h) _ Hs) as [Hs1 _]. rewrite Hw in Hs1. simpl in Hs1.
    destruct (ok_run later s1 Hs1) as [Hs2 Hg].
    pose proof (g_cache _ _ Hg _ _ Hc) as Hc2.
    split.
    + apply wrap_cached; [|done]. rewrite proxyable_instance in Hk.
      apply bool_decide_eq_true_1, proxyable_kinds in Hk as [Hr _].
      simpl. by apply bool_decide_eq_false_2.
    + unfold unwrap. by destruct (wf_cache _ Hs2 _ _ Hc2) as [-> _].
  - apply unwrap_produced.
  - apply unwrap_produced.
  - intros vs v Hv. unfold unwrap.
    destruct (wm_get v (reverseTransformCache (wrap_all vs (loaded w)).2)) eqn:Hx; [|done].
    destruct (wrap_all_reverse_keys vs (loaded w) v _ (wf_loaded w) Hx) as [Hold|Hin]; done.
Qed.

End Identity.

Lemma wrap_identity_stable_witness :
  let acts := [AWrap (VNative Sample.db);
               AGet (VProxy 0 Sample.db SampleStore.chain) (PStr "transaction")] in
  (exists wrapped s1,
      wrap (VNative Sample.db) (run acts Sample.s0) = (Ret wrapped, s1)
      /\ forall later,
           wrap (VNative Sample.db) (run later s1) = (Ret wrapped, run later s1)
           /\ unwrap wrapped (run later s1) = VNative Sample.db)
  /\ (@run_logged Sample.indexeddb acts (Sample.s0, [])).1 = run acts Sample.s0
  /\ (forall v,
        v ∉ @produced Sample.indexeddb acts Sample.w0 ->
        unwrap v (run acts Sample.s0) = VUndefined)
  /\ (forall vs v,
        v ∉ (wrap_all vs Sample.s0).1 ->
        unwrap v (wrap_all vs Sample.s0).2 = VUndefined).
Proof.
  apply (@wrap_identity_stable Sample.indexeddb Sample.w0
           [AWrap (VNative Sample.db);
            AGet (VProxy 0 Sample.db SampleStore.chain) (PStr "transaction")] Sample.db).
  reflexivity.
Defined.

(** The log holds what the library's own [wrap] calls return: after [wrap]
    of the database and a read of its [transaction] method, the wrapper of
    the database and the wrapper function made by the [get] trap. *)
Example produced_by_a_read :
  @produced Sample.indexeddb
    [AWrap (VNative Sample.db);
     AGet (VProxy 0 Sample.db SampleStore.chain) (PStr "transaction")] Sample.w0
  = [VProxy 0 Sample.db SampleStore.chain;
     VWrappedFn 1 (VNative (Sample.fn "transaction"))].
Proof. vm_compute. reflexivity. Qed.

Section Caches.
Context `{E : Engine}.

(** X1. In every state the module reaches the two identity caches mirror
    each other: a cached pair (raw, wrapped) is found in the reverse cache
    as (wrapped, raw), and the raw value is never a request; an entry of
    the reverse cache is either such a pair or maps a future to the request
    it was made for. *)
Theorem caches_mirror (w : world) (acts : list action) :
  let s := run acts (loaded w) in
  (forall k wrapped, wm_get k (transformCache s) = Some wrapped ->
     wm_get wrapped (reverseTransformCache s) = Some k
     /\ instance_of k KRequest = false)
  /\ (forall wrapped k, wm_get wrapped (reverseTransformCache s) = Some k ->
        wm_get k (transformCache s) = Some wrapped
        \/ exists p r, wrapped = VPromise p /\ k = VNative r
                       /\ instance_of k KRequest = true).
Proof.
  intros s. pose proof (wf_reachable w acts) as Hs. fold s in Hs.
  destruct (tables_reachable w acts) as (Hm & _). fold s in Hm. split.
  - intros k wrapped Hc. split; [by eapply cached_reverse|by eapply cached_not_request].
  - intros wrapped k Hr. destruct (Hm _ _ Hr) as [Hc|(p & r & -> & -> & Hk)]; [by left|].
    right. exists p, r. repeat split. simpl. by apply bool_decide_eq_true_2.
Qed.

(** X2. [wrap] of a native function makes one wrapper function for it:
    every later [wrap] of the function returns that same wrapper, and
    [unwrap] of the wrapper is the function. *)
Theorem function_wrapper_stable (w : world) (acts : list action) (f : handle) :
  is_function (VNative f) = true ->
  exists wrapped s1,
    wrap (VNative f) (run acts (loaded w)) = (Ret wrapped, s1)
    /\ is_function wrapped = true
    /\ wrapped <> VNative f
    /\ forall later,
         wrap (VNative f) (run later s1) = (Ret wrapped, run later s1)
         /\ unwrap wrapped (run later s1) = VNative f.
Proof.
  intros Hf. simpl in Hf. apply bool_decide_eq_true_1 in Hf.
  pose proof (wf_reachable w acts) as Hs.
  destruct (wrap_function_ret f _ Hs Hf) as (wfn & s1 & Hw & Hwr & Hc & _).
  destruct (ok_wrap (VNative f) _ Hs) as [Hs1 _]. rewrite Hw in Hs1. simpl in Hs1.
  assert (Hshape : exists id, wfn = VWrappedFn id (VNative f) \/ wfn = VAdvanceFn id (VNative f)).
  { destruct (decide (VNative f ∈ cursorAdvanceMethods)) as [Ha|Ha].
    - destruct (wraps_advance wfn f Hwr Hf Ha) as [id ->]. eauto.
    - destruct (wraps_general wfn f Hwr Hf Ha) as [id ->]. eauto. }
  destruct Hshape as [id Hshape].
  exists wfn, s1. split; [done|]. split; [by destruct Hshape as [-> | ->]|].
  split; [by destruct Hshape as [-> | ->]|]. intros later.
  destruct (ok_run later s1 Hs1) as [Hs2 Hg2].
  pose proof (g_cache _ _ Hg2 _ _ Hc) as Hc2. split.
  - apply wrap_cached; [|done]. simpl. apply bool_decide_eq_false_2. congruence.
  - unfold unwrap. by rewrite (cached_reverse _ _ _ Hs2 Hc2).
Qed.

(** X3. A value that is neither a function, nor a request, nor an instance
    of a wrappable interface, and is not [NaN], passes through [wrap]
    unchanged, and nothing is added to any cache. *)
Theorem wrap_leaves_other_values (w : world) (acts : list action) (v : value) :
  is_function v = false ->
  instance_of v KRequest = false ->
  instanceOfAny v idbProxyableTypes = false ->
  v <> VNaN ->
  wrap v (run acts (loaded w)) = (Ret v, run acts (loaded w)).
Proof.
  intros Hf Hr Hp Hn. pose proof (wf_reachable w acts) as Hs.
  apply wrap_passthrough; try done.
  destruct (wm_get v (transformCache (run acts (loaded w)))) as [x|] eqn:Hc; [|done].
  destruct (cached_key _ _ _ Hs Hc) as [Hf'|(h & -> & Hh)]; [congruence|].
  rewrite proxyable_instance in Hp. by apply bool_decide_eq_false_1 in Hp.
Qed.

(** X13. [wrap] of [NaN] throws a [TypeError] and changes nothing: [NaN] is
    not equal to itself, so [newValue !== value] holds and [wrap] tries to
    use it as a key of [transformCache]. *)
Theorem wrap_nan_throws (w : world) (acts : list action) :
  wrap VNaN (run acts (loaded w)) = (Throw TypeError, run acts (loaded w)).
Proof.
  pose proof (wf_reachable w acts) as Hs. unfold wrap. cbn [instance_of].
  unfold bind at 1, gets.
  destruct (wm_get VNaN (transformCache (run acts (loaded w)))) as [x|] eqn:Hc; [|done].
  by destruct (cached_key _ VNaN x Hs Hc) as [?|(h & ? & _)].
Qed.


End Caches.

Lemma function_wrapper_stable_witness :
  exists wrapped s1,
    wrap (VNative (Sample.fn "put")) (run [] Sample.s0) = (Ret wrapped, s1)
    /\ is_function wrapped = true
    /\ wrapped <> VNative (Sample.fn "put")
    /\ forall later,
         wrap (VNative (Sample.fn "put")) (run later s1) = (Ret wrapped, run later s1)
         /\ unwrap wrapped (run later s1) = VNative (Sample.fn "put").
Proof.
  apply (@function_wrapper_stable Sample.indexeddb Sample.w0 [] (Sample.fn "put")).
  reflexivity.
Defined.

Lemma wrap_leaves_other_values_witness :
  wrap (VStr "Middlemarch") SampleStore.s_books = (Ret (VStr "Middlemarch"), SampleStore.s_books).
Proof.
  apply (@wrap_leaves_other_values Sample.indexeddb Sample.w0
           [AWrap (VNative Sample.books_tx)] (VStr "Middlemarch")); try reflexivity.
  discriminate.
Defined.


Section Methods.
Context `{E : Engine}.

(** X4. A native method read off a wrapper and called on it runs on the raw
    object with the arguments as given.  What it returns is passed to
    [wrap]; what it throws reaches the caller unchanged.  The call itself
    creates no future and registers no listener. *)
Theorem wrapped_method_call (w : world) (acts : list action) (h f : handle)
    (c : value) (name : string) (args : list value) :
  let s := run acts (loaded w) in
  wm_get (VNative h) (transformCache s) = Some c ->
  instanceOfAny (VNative h) idbProxyableTypes = true ->
  isIteratorProp h (PStr name) = false ->
  potentialDatabaseExtra (engine s) h (PStr name) = false ->
  bool_decide (name ∈ ["done"; "store"]) = false ->
  native_get (engine s) h (PStr name) = VNative f ->
  is_function (VNative f) = true ->
  bool_decide (VNative f ∈ cursorAdvanceMethods) = false ->
  let result := (let* fn := js_get c (PStr name) in invoke fn c args) s in
  (forall v e', native_call f (VNative h) args (engine s) = (Ret v, e') ->
     exists s1, result = wrap v s1 /\ engine s1 = e'
       /\ promises s1 = promises s /\ listeners s1 = listeners s)
  /\ (forall e e', native_call f (VNative h) args (engine s) = (Throw e, e') ->
     exists s1, result = (Throw e, s1) /\ engine s1 = e'
       /\ promises s1 = promises s /\ listeners s1 = listeners s).
Proof.
  intros s Hc Hprox Hi Hp Hn Hget Hf Ha result.
  pose proof (wf_reachable w acts) as Hs. fold s in Hs.
  simpl in Hf. apply bool_decide_eq_true_1 in Hf.
  apply bool_decide_eq_false_1 in Ha, Hn.
  destruct (cached_proxy s h c Hs Hc Hprox) as (id & chain & ->).
  pose proof (cached_reverse s _ _ Hs Hc) as Hrev.
  assert (Hread : js_get (VProxy id h chain) (PStr name) s = wrap (VNative f) s).
  { by rewrite plain_method_read, Hget. }
  pose proof (call_through f _ h args s Hs Hf Ha Hrev) as Hcall.
  destruct (wrap_function_keeps f s Hs Hf) as (Hpr & Hl & He).
  assert (Hres : result = bind (wrap (VNative f))
                            (fun fn => invoke fn (VProxy id h chain) args) s).
  { unfold result. by rewrite (bind_same _ _ _ _ Hread). }
  split.
  - intros v e' Hn'. rewrite Hn' in Hcall. eexists. split; [by rewrite Hres, Hcall|].
    by repeat split.
  - intros e e' Hn'. rewrite Hn' in Hcall. eexists. split; [by rewrite Hres, Hcall|].
    by repeat split.
Qed.

End Methods.

Lemma wrapped_method_call_witness :
  let tx := VProxy 1 Sample.books_tx SampleStore.chain in
  exists s1,
    (let* fn := js_get tx (PStr "objectStore") in invoke fn tx [VStr "films"])
      SampleStore.s_books
    = (Throw (VError "NotFoundError"), s1)
    /\ Sample.w_log (engine s1) = [("objectStore", VNative Sample.books_tx, [VStr "films"])]
    /\ promises s1 = promises SampleStore.s_books
    /\ listeners s1 = listeners SampleStore.s_books.
Proof.
  destruct (@wrapped_method_call Sample.indexeddb Sample.w0
              [AWrap (VNative Sample.books_tx)] Sample.books_tx (Sample.fn "objectStore")
              (VProxy 1 Sample.books_tx SampleStore.chain) "objectStore" [VStr "films"])
    as [_ Hthrow]; try reflexivity.
  destruct (Hthrow (VError "NotFoundError")
              (Sample.logged "objectStore" (VNative Sample.books_tx) [VStr "films"] Sample.w0))
    as (s1 & Hr & He & Hp & Hl); [reflexivity|].
  exists s1. split; [exact Hr|]. split; [by rewrite He|]. by split.
Defined.

Section Extras.
Context `{E : Engine}.

(** X5. On a wrapped database, a convenience method name that the raw
    database does not have reads as the closure [getMethod] makes for that
    name, and the [in] test holds for it.  The closure is made once: every
    later read of the name, on this or any other wrapped database, returns
    the same function and changes nothing. *)
Theorem convenience_method_memoized (w : world) (acts : list action)
    (d : handle) (dbp : value) (name : string) :
  let s := run acts (loaded w) in
  instance_of (VNative d) KDatabase = true ->
  wm_get (VNative d) (transformCache s) = Some dbp ->
  bool_decide (name ∈ (readMethods ++ writeMethods)%list) = true ->
  native_has (engine s) d (PStr name) = false ->
  exists m s1,
    js_get dbp (PStr name) s = (Ret m, s1)
    /\ method_for name m
    /\ js_has dbp (PStr name) s = Ret true
    /\ forall later d' dbp',
         let s2 := run later s1 in
         instance_of (VNative d') KDatabase = true ->
         wm_get (VNative d') (transformCache s2) = Some dbp' ->
         native_has (engine s2) d' (PStr name) = false ->
         js_get dbp' (PStr name) s2 = (Ret m, s2).
Proof.
  intros s Hd Hc Hin Hn. simpl in Hd.
  apply bool_decide_eq_true_1 in Hd, Hin.
  pose proof (wf_reachable w acts) as Hs. fold s in Hs.
  destruct (tables_reachable w acts) as (_ & [Hm _] & _ & _ & [_ Hch]). fold s in Hm, Hch.
  assert (Hprox : instanceOfAny (VNative d) idbProxyableTypes = true).
  { eapply proxyable_kind; [done|]. unfold idbProxyableTypes. rewrite !elem_of_cons. auto. }
  destruct (cached_proxy s d dbp Hs Hc Hprox) as (id & chain & ->).
  rewrite (Hch _ _ _ _ Hc) in *.
  assert (Hread : exists m, method_for name m
            /\ js_get (VProxy id d full_chain) (PStr name) s
               = (Ret m, (js_get (VProxy id d full_chain) (PStr name) s).2)
            /\ sm_get name
                 (cachedMethods (js_get (VProxy id d full_chain) (PStr name) s).2) = Some m).
  { destruct (sm_get name (cachedMethods s)) as [m|] eqn:Hcm.
    - exists m. pose proof (Hm _ _ Hcm) as Hf.
      rewrite (extras_read_cached s d id name m) by done. auto.
    - destruct (extras_read_new s d id name Hd Hn Hcm Hin) as (m & Hf & ->).
      exists m. split; [done|]. split; [done|]. simpl. by rewrite decide_True. }
  destruct Hread as (m & Hf & Hget & Hcm).
  set (s1 := (js_get (VProxy id d full_chain) (PStr name) s).2) in *.
  exists m, s1. split; [done|]. split; [done|]. split.
  { unfold js_has, full_chain. cbn [traps_has]. rewrite extra_candidate by done.
    apply elem_of_app in Hin. unfold prop_in.
    destruct Hin as [Hr|Hw].
    - rewrite (bool_decide_eq_true_2 _ Hr). cbn [orb andb]. by rewrite orb_true_r.
    - rewrite (bool_decide_eq_true_2 _ Hw). rewrite orb_true_r. cbn [orb andb].
      by rewrite orb_true_r. }
  intros later d' dbp' s2 Hd' Hc' Hn'. simpl in Hd'. apply bool_decide_eq_true_1 in Hd'.
  assert (Hs1 : s1 = run (acts ++ [AGet (VProxy id d full_chain) (PStr name)]) (loaded w)).
  { by rewrite run_app. }
  assert (Hs2 : s2 = run ((acts ++ [AGet (VProxy id d full_chain) (PStr name)]) ++ later)
                       (loaded w)).
  { rewrite run_app. by rewrite <- Hs1. }
  pose proof (wf_reachable w (acts ++ [AGet (VProxy id d full_chain) (PStr name)])) as Hwf1.
  rewrite <- Hs1 in Hwf1.
  pose proof (wf_reachable w ((acts ++ [AGet (VProxy id d full_chain) (PStr name)]) ++ later))
    as Hwf2.
  destruct (tables_reachable w (acts ++ [AGet (VProxy id d full_chain) (PStr name)]))
    as (_ & Hm1 & _).
  destruct (tables_reachable w ((acts ++ [AGet (VProxy id d full_chain) (PStr name)]) ++ later))
    as (_ & _ & _ & _ & [_ Hch2]).
  rewrite <- Hs1 in Hm1. rewrite <- Hs2 in Hwf2, Hch2.
  destruct (methods_from_run s1 later s1 Hwf1 Hm1) as [_ Hgrow]. fold s2 in Hgrow.
  assert (Hprox' : instanceOfAny (VNative d') idbProxyableTypes = true).
  { eapply proxyable_kind; [done|]. unfold idbProxyableTypes. rewrite !elem_of_cons. auto. }
  destruct (cached_proxy s2 d' dbp' Hwf2 Hc' Hprox') as (id' & chain' & ->).
  rewrite (Hch2 _ _ _ _ Hc') in *.
  apply extras_read_cached; auto.
Qed.

End Extras.

Lemma convenience_method_memoized_witness :
  exists m s1,
    js_get (VProxy 0 Sample.db SampleStore.chain) (PStr "getAllFromIndex") SampleStore.s_db
    = (Ret m, s1)
    /\ method_for "getAllFromIndex" m
    /\ js_has (VProxy 0 Sample.db SampleStore.chain) (PStr "getAllFromIndex") SampleStore.s_db
       = Ret true
    /\ forall later d' dbp',
         let s2 := run later s1 in
         instance_of (VNative d') KDatabase = true ->
         wm_get (VNative d') (transformCache s2) = Some dbp' ->
         native_has (engine s2) d' (PStr "getAllFromIndex") = false ->
         js_get dbp' (PStr "getAllFromIndex") s2 = (Ret m, s2).
Proof.
  apply (@convenience_method_memoized Sample.indexeddb Sample.w0
           [AWrap (VNative Sample.db)] Sample.db (VProxy 0 Sample.db SampleStore.chain)
           "getAllFromIndex"); reflexivity.
Defined.

Section Convenience.
Context `{E : Engine}.

(** The closure of a convenience method, called with several store names:
    the transaction is opened, [tx.store] is [undefined], and the next
    property read throws. *)
Lemma convenience_closure_needs_one_store (w : world) (acts : list action)
    (name n0 n1 : string) (rest : list string) (storeName : value) (args : list value)
    (m : nat) (d ftx t : handle) (dbp : value) (e1 : world) :
  let s := run acts (loaded w) in
  let is_read := bool_decide (name ∈ readMethods) in
  instance_of (VNative d) KDatabase = true ->
  wm_get (VNative d) (transformCache s) = Some dbp ->
  native_has (engine s) d (PStr "transaction") = true ->
  native_get (engine s) d (PStr "transaction") = VNative ftx ->
  is_function (VNative ftx) = true ->
  bool_decide (VNative ftx ∈ cursorAdvanceMethods) = false ->
  native_call ftx (VNative d)
    (if is_read then [storeName] else [storeName; VStr "readwrite"]) (engine s)
    = (Ret (VNative t), e1) ->
  instance_of (VNative t) KTransaction = true ->
  wm_get (VNative t) (transformCache s) = None ->
  wm_get (VNative t) (transactionDoneMap s) = None ->
  native_get e1 t (PStr "objectStoreNames") = VStrings (n0 :: n1 :: rest) ->
  String.eqb n1 "" = false ->
  exists p s',
    call (if is_read then VReadMethod m name else VWriteMethod m name)
      dbp (storeName :: args) s = (Throw TypeError, s')
    /\ engine s' = e1
    /\ wm_get (VNative t) (transactionDoneMap s') = Some (VPromise p)
    /\ promise_state s' p = Some Pending.
Proof.
  intros s is_read Hd Hdbp Hhas Hgtx Hftx Hatx Hctx Ht Htc Htd Hnames Hn1.
  pose proof (wf_reachable w acts) as Hs. fold s in Hs.
  simpl in Hd, Ht, Hftx. apply bool_decide_eq_true_1 in Hd, Ht, Hftx.
  apply bool_decide_eq_false_1 in Hatx.
  assert (Hdprox : instanceOfAny (VNative d) idbProxyableTypes = true).
  { eapply proxyable_kind; [done|]. unfold idbProxyableTypes. rewrite !elem_of_cons. auto. }
  destruct (cached_proxy s d dbp Hs Hdbp Hdprox) as (idd & chaind & ->).
  destruct (open_transaction s d idd chaind ftx t _ e1 Hs Hd Hdbp Hhas Hgtx Hftx Hatx Hctx
              Ht Htc Htd) as (s1 & Hs1 & Hg1 & Hc1 & He1 & Hopen & Hs2 & Hc2).
  set (p := next_id s1) in *.
  set (txp := VProxy (S p) t (idbProxyTraps s1)) in *.
  set (s2 := cached_as (VNative t) txp (done_added t s1)) in *.
  pose proof (store_read (S p) (idbProxyTraps s1) t s2 (n0 :: n1 :: rest) Hs2 Ht) as Hstore.
  change (engine s2) with (engine s1) in Hstore. rewrite He1 in Hstore.
  specialize (Hstore Hnames). rewrite Hn1 in Hstore. cbn [negb] in Hstore.
  fold txp in Hstore.
  exists p, s2. split; [|split; [done|split]].
  - unfold is_read in *. destruct (bool_decide (name ∈ readMethods)).
    + unfold call, read_method. cbv zeta. cbn [hd tl].
      rewrite <- bind_assoc. unfold bind at 1. rewrite Hopen.
      unfold bind at 1. rewrite Hstore.
      destruct (truthy _); reflexivity.
    + unfold call, write_method. cbn [hd tl].
      rewrite <- bind_assoc. unfold bind at 1. rewrite Hopen.
      unfold bind at 1. rewrite Hstore. reflexivity.
  - simpl. by rewrite decide_True.
  - unfold promise_state. simpl. by rewrite lookup_insert_eq.
Qed.


Lemma read_not_write name : name ∈ readMethods -> name ∉ writeMethods.
Proof.
  intros Hr Hw. by destruct (write_not_read name Hw).
Qed.


(** X6. A convenience method that the raw database does not have, read off
    a wrapped database and called with several store names, opens the
    transaction and then fails: [tx.store] is [undefined] on a transaction
    over two or more stores, so the next property read throws a TypeError.
    The transaction stays open with its completion future pending. *)
Theorem convenience_method_needs_one_store (w : world) (acts : list action)
    (name n0 n1 : string) (rest : list string) (storeName : value) (args : list value)
    (d ftx t : handle) (dbp : value) (e1 : world) :
  let s := run acts (loaded w) in
  let is_read := bool_decide (name ∈ readMethods) in
  bool_decide (name ∈ (readMethods ++ writeMethods)%list) = true ->
  instance_of (VNative d) KDatabase = true ->
  wm_get (VNative d) (transformCache s) = Some dbp ->
  native_has (engine s) d (PStr name) = false ->
  native_has (engine s) d (PStr "transaction") = true ->
  native_get (engine s) d (PStr "transaction") = VNative ftx ->
  is_function (VNative ftx) = true ->
  bool_decide (VNative ftx ∈ cursorAdvanceMethods) = false ->
  native_call ftx (VNative d)
    (if is_read then [storeName] else [storeName; VStr "readwrite"]) (engine s)
    = (Ret (VNative t), e1) ->
  instance_of (VNative t) KTransaction = true ->
  wm_get (VNative t) (transformCache s) = None ->
  wm_get (VNative t) (transactionDoneMap s) = None ->
  native_get e1 t (PStr "objectStoreNames") = VStrings (n0 :: n1 :: rest) ->
  sorted_names (n0 :: n1 :: rest) = true ->
  exists p s',
    (let* method := js_get dbp (PStr name) in call method dbp (storeName :: args)) s
    = (Throw TypeError, s')
    /\ engine s' = e1
    /\ wm_get (VNative t) (transactionDoneMap s') = Some (VPromise p)
    /\ promise_state s' p = Some Pending.
Proof.
  intros s is_read Hname Hd Hdbp Hnhas Hhas Hgtx Hftx Hatx Hctx Ht Htc Htd Hnames Hsorted.
  pose proof (wf_reachable w acts) as Hs. fold s in Hs.
  destruct (tables_reachable w acts) as (_ & [Hm _] & _ & _ & [_ Hch]). fold s in Hm, Hch.
  apply bool_decide_eq_true_1 in Hname.
  pose proof Hd as Hd'. simpl in Hd'. apply bool_decide_eq_true_1 in Hd'.
  assert (Hprox : instanceOfAny (VNative d) idbProxyableTypes = true).
  { eapply proxyable_kind; [done|]. unfold idbProxyableTypes. rewrite !elem_of_cons. auto. }
  destruct (cached_proxy s d dbp Hs Hdbp Hprox) as (id & chain & ->).
  pose proof (Hch _ _ _ _ Hdbp) as ->.
  destruct (extras_read s d id name Hm Hd' Hnhas Hname)
    as (m & s0 & Hf & Hget & _ & He0 & Hc0 & Hd0).
  assert (Hs0 : s0 = run (acts ++ [AGet (VProxy id d full_chain) (PStr name)]) (loaded w)).
  { rewrite run_app. change (s0 = (js_get (VProxy id d full_chain) (PStr name) s).2).
    by rewrite Hget. }
  assert (Hm' : exists i, m = if is_read then VReadMethod i name else VWriteMethod i name).
  { unfold is_read. destruct Hf as [(i & -> & Hr)|(i & -> & Hw)]; exists i.
    - by rewrite bool_decide_eq_true_2.
    - rewrite bool_decide_eq_false_2; [done|]. intros Hr. by destruct (read_not_write name Hr). }
  destruct Hm' as [i ->].
  destruct (convenience_closure_needs_one_store w
              (acts ++ [AGet (VProxy id d full_chain) (PStr name)])
              name n0 n1 rest storeName args i d ftx t (VProxy id d full_chain) e1)
    as (p & s' & Hcall & Hrest); try done;
    try (rewrite <- Hs0; rewrite ?He0, ?Hc0, ?Hd0; done).
  { by apply second_name_not_empty with n0 rest. }
  exists p, s'. split; [|exact Hrest].
  unfold bind. rewrite Hget. rewrite <- Hs0 in Hcall. exact Hcall.
Qed.


End Convenience.

Lemma convenience_method_needs_one_store_witness :
  let dbp := VProxy 0 Sample.db SampleStore.chain in
  exists p s',
    (let* method := js_get dbp (PStr "put") in
     call method dbp [VStrings ["authors"; "books"]; VStr "Middlemarch"]) SampleStore.s_db
    = (Throw TypeError, s')
    /\ Sample.w_log (engine s')
       = [("transaction", VNative Sample.db,
           [VStrings ["authors"; "books"]; VStr "readwrite"])]
    /\ wm_get (VNative (Handle KTransaction 5)) (transactionDoneMap s') = Some (VPromise p)
    /\ promise_state s' p = Some Pending.
Proof.
  destruct (@convenience_method_needs_one_store Sample.indexeddb Sample.w0
              [AWrap (VNative Sample.db)] "put" "authors" "books" []
              (VStrings ["authors"; "books"]) [VStr "Middlemarch"]
              Sample.db (Sample.fn "transaction") (Handle KTransaction 5)
              (VProxy 0 Sample.db SampleStore.chain)
              (Sample.s_call (Sample.fn "transaction") (VNative Sample.db)
                 [VStrings ["authors"; "books"]; VStr "readwrite"] Sample.w0).2)
    as (p & s' & Hcall & He & Hdone & Hp); try reflexivity.
  exists p, s'. split; [exact Hcall|]. split; [by rewrite He|]. by split.
Defined.


Section Futures.
Context `{E : Engine}.

(** X8. When a request succeeds with a cursor, the [then] callback of
    [promisifyRequest] records the request for the wrapped cursor in
    [cursorRequestMap], where the cursor's advance methods look it up; when
    the future resolves with anything that is not a cursor the map is left
    as it was. *)
Theorem cursor_request_recorded (w : world) (acts : list action) (r : handle) (p : nat) :
  let s := run acts (loaded w) in
  unwrap (VPromise p) s = VNative r ->
  promise_state s p = Some Pending ->
  (forall hc,
     native_get (engine s) r (PStr "result") = VNative hc ->
     instance_of (VNative hc) KCursor = true ->
     exists c s', dispatchEvent r "success" s = (Ret tt, s')
       /\ promise_state s' p = Some (Resolved c)
       /\ unwrap c s' = VNative hc
       /\ wm_get c (cursorRequestMap s') = Some (VNative r))
  /\ (forall wrapped s1,
        instance_of (native_get (engine s) r (PStr "result")) KRequest = false ->
        wrap (native_get (engine s) r (PStr "result")) s = (Ret wrapped, s1) ->
        instance_of wrapped KCursor = false ->
        exists s', dispatchEvent r "success" s = (Ret tt, s')
          /\ promise_state s' p = Some (Resolved wrapped)
          /\ cursorRequestMap s' = cursorRequestMap s).
Proof.
  intros s Hu Hp. pose proof (wf_reachable w acts) as Hs. fold s in Hs.
  destruct (pending_request_listening s p r Hs Hu Hp) as [Hsucc _].
  split.
  - intros hc Hres Hc.
    pose proof Hc as Hc'. simpl in Hc'. apply bool_decide_eq_true_1 in Hc'.
    assert (Hcprox : instanceOfAny (VNative hc) idbProxyableTypes = true).
    { eapply proxyable_kind; [done|]. unfold idbProxyableTypes. rewrite !elem_of_cons.
      auto 10. }
    assert (Hnr : instance_of (VNative hc) KRequest = false).
    { simpl. apply bool_decide_eq_false_2. congruence. }
    destruct (wrap_handle_ret hc s Hs Hcprox) as (c & s2 & Hw2 & Hc2).
    destruct (ok_wrap (VNative hc) s Hs) as [Hs2 _]. rewrite Hw2 in Hs2. simpl in Hs2.
    destruct (cached_proxy s2 hc c Hs2 Hc2 Hcprox) as (idc & chainc & ->).
    destruct (dispatch_success_map r p (VProxy idc hc chainc) s s2)
      as (s0 & Hd & Hs0 & Hp0 & Hmap & _); try done; try (by rewrite Hres).
    destruct (dispatch_success_keeping (fun _ => True) r p (VProxy idc hc chainc) s s2)
      as (s0' & Hd' & _ & _ & He0 & _ & _ & Hst); try done; try (by rewrite Hres).
    assert (s0' = s0) as -> by congruence.
    rewrite Hres in Hst.
    destruct (wrap_uncached _ _ _ _ Hnr Hst) as [Hc0|(Hno & _)]; [|congruence].
    exists (VProxy idc hc chainc), s0. split; [done|]. split; [done|].
    split; [unfold unwrap; by rewrite (cached_reverse s0 _ _ Hs0 Hc0)|].
    apply Hmap. simpl. by apply bool_decide_eq_true_2.
  - intros wrapped s1 Hreq Hw Hnc.
    destruct (dispatch_success_map r p wrapped s s1 Hs Hsucc Hreq Hw)
      as (s' & Hd & _ & Hp' & _ & Hnot).
    exists s'. auto.
Qed.



End Futures.

Lemma cursor_request_recorded_witness :
  let r := SampleStore.cursor_request in
  let s := run [AWrap (VNative r); @AEngine Sample.indexeddb SampleStore.w_cursor]
             Sample.s0 in
  exists c s', dispatchEvent r "success" s = (Ret tt, s')
    /\ promise_state s' 0 = Some (Resolved c)
    /\ unwrap c s' = VNative SampleStore.first_cursor
    /\ wm_get c (cursorRequestMap s') = Some (VNative r).
Proof.
  destruct (@cursor_request_recorded Sample.indexeddb Sample.w0
              [AWrap (VNative SampleStore.cursor_request);
               @AEngine Sample.indexeddb SampleStore.w_cursor]
              SampleStore.cursor_request 0) as [Hrec _]; try reflexivity.
  apply (Hrec SampleStore.first_cursor); reflexivity.
Defined.



Section Traps.
Context `{E : Engine}.


Lemma store_not_cursor h :
  hkind h = KObjectStore \/ hkind h = KIndex ->
  hkind h <> KCursor /\ hkind h <> KDatabase /\ hkind h <> KTransaction
  /\ hkind h ∈ idbProxyableTypes.
Proof.
  unfold idbProxyableTypes. rewrite !elem_of_cons.
  intros [-> | ->]; repeat split; auto; discriminate.
Qed.

(** X12. Iterating a wrapped object store or index.  Both entry points,
    [Symbol.asyncIterator] and [iterate], read as the one generator function
    and are reported present.  Started on the wrapper, the generator calls
    the native [openCursor] on the raw object with its own arguments and
    waits for the future of the request; when the request succeeds with a
    cursor it yields a facade over the wrapped cursor, and when it succeeds
    with [null] it ends without yielding. *)
Theorem iterate_opens_cursor (w : world) (acts : list action)
    (h f req : handle) (c : value) (args : list value) (e1 : world) :
  let s := run acts (loaded w) in
  bool_decide (hkind h ∈ [KObjectStore; KIndex]) = true ->
  wm_get (VNative h) (transformCache s) = Some c ->
  native_get (engine s) h (PStr "openCursor") = VNative f ->
  is_function (VNative f) = true ->
  bool_decide (VNative f ∈ cursorAdvanceMethods) = false ->
  native_call f (VNative h) args (engine s) = (Ret (VNative req), e1) ->
  instance_of (VNative req) KRequest = true ->
  js_get c Symbol_asyncIterator s = (Ret VIterate, s)
  /\ js_get c (PStr "iterate") s = (Ret VIterate, s)
  /\ js_has c Symbol_asyncIterator s = Ret true
  /\ js_has c (PStr "iterate") s = Ret true
  /\ exists q s1,
       resume (GStart c args) s = (Ret (GAwaitOpen (VPromise q), Waiting), s1)
       /\ engine s1 = e1
       /\ unwrap (VPromise q) s1 = VNative req
       /\ resume (GAwaitOpen (VPromise q)) s1
          = (Ret (GAwaitOpen (VPromise q), Waiting), s1)
       /\ (forall e2 cur,
             native_get e2 req (PStr "result") = VNative cur ->
             instance_of (VNative cur) KCursor = true ->
             exists s3 wrapped facade s4,
               dispatchEvent req "success" (with_engine e2 s1) = (Ret tt, s3)
               /\ resume (GAwaitOpen (VPromise q)) s3
                  = (Ret (GYield facade wrapped, Yielded facade), s4)
               /\ wm_get (VNative cur) (transformCache s4) = Some wrapped
               /\ facade = VFacade (next_id s3) wrapped
               /\ wm_get facade (proxiedCursorToOriginal s4) = Some wrapped
               /\ wm_get wrapped (cursorRequestMap s4) = Some (VNative req))
       /\ (forall e2,
             native_get e2 req (PStr "result") = VNull ->
             exists s3,
               dispatchEvent req "success" (with_engine e2 s1) = (Ret tt, s3)
               /\ resume (GAwaitOpen (VPromise q)) s3 = (Ret (GDone, Finished), s3)).
Proof.
  intros s Hh Hc Hget Hf Ha Hcall Hreq.
  pose proof (wf_reachable w acts) as Hs. fold s in Hs.
  destruct (tables_reachable w acts) as (_ & _ & _ & _ & [_ Hch]). fold s in Hch.
  apply bool_decide_eq_true_1 in Hh. rewrite !elem_of_cons, elem_of_nil in Hh.
  assert (Hk : hkind h = KObjectStore \/ hkind h = KIndex) by tauto. clear Hh.
  destruct (store_not_cursor h Hk) as (Hnc & Hnd & Hnt & Hprox).
  simpl in Hf, Hreq. apply bool_decide_eq_true_1 in Hf, Hreq.
  apply bool_decide_eq_false_1 in Ha.
  assert (Hprox' : instanceOfAny (VNative h) idbProxyableTypes = true).
  { rewrite proxyable_instance. by apply bool_decide_eq_true_2. }
  destruct (cached_proxy s h c Hs Hc Hprox') as (id & chain & ->).
  pose proof (Hch _ _ _ _ Hc) as ->.
  pose proof (cached_reverse s _ _ Hs Hc) as Hrev.
  assert (Hsym : isIteratorProp h Symbol_asyncIterator = true).
  { unfold isIteratorProp. by destruct Hk as [-> | ->]. }
  assert (Hit : isIteratorProp h (PStr "iterate") = true).
  { unfold isIteratorProp. by destruct Hk as [-> | ->]. }
  split; [unfold js_get, member, full_chain; cbn [traps_get]; by rewrite Hsym|].
  split; [unfold js_get, member, full_chain; cbn [traps_get]; by rewrite Hit|].
  split; [unfold js_has, full_chain; cbn [traps_has]; by rewrite Hsym|].
  split; [unfold js_has, full_chain; cbn [traps_has]; by rewrite Hit|].
  (* the generator starts *)
  assert (Hread : js_get (VProxy id h full_chain) (PStr "openCursor") s = wrap (VNative f) s).
  { assert (Hi : isIteratorProp h (PStr "openCursor") = false).
    { unfold isIteratorProp.
      change (bool_decide (PStr "openCursor" = Symbol_asyncIterator)) with false.
      change (bool_decide (PStr "openCursor" = PStr "iterate")) with false.
      reflexivity. }
    assert (Hpd : potentialDatabaseExtra (engine s) h (PStr "openCursor") = false).
    { unfold potentialDatabaseExtra. by rewrite bool_decide_eq_false_2. }
    by rewrite (method_read id h full_chain "openCursor" s Hi Hpd Hnt), Hget. }
  destruct (call_through_frames f _ h args _ e1 s Hs Hf Ha Hrev Hcall)
    as (s0 & Hs0 & Hg0 & Hc0 & He0 & _ & _ & Hcall0).
  pose proof (wrap_request req s0 Hs0 Hreq) as Hwreq.
  set (q := next_id s0) in *. set (s1 := promisified req s0) in *.
  destruct (wf_promisified req s0 Hs0) as [Hs1 Hg1]. fold s1 in Hs1, Hg1.
  assert (Hq1 : promise_state s1 q = Some Pending).
  { unfold promise_state. simpl. by rewrite lookup_insert_eq. }
  exists q, s1. split.
  { unfold resume. cbn [instance_of]. rewrite bool_decide_eq_false_2 by done.
    rewrite <- bind_assoc. unfold bind at 1.
    by rewrite (bind_same _ _ _ _ Hread), Hcall0, Hwreq. }
  split; [done|]. split; [unfold unwrap; simpl; by rewrite decide_True|].
  split; [unfold resume, bind, gets, awaited; by rewrite Hq1|].
  assert (Hreg : forall e2, Registration req "success" (LSuccess req q)
                            ∈ listeners (with_engine e2 s1)).
  { intros e2. simpl. rewrite elem_of_app, !elem_of_cons. auto. }
  split.
  - intros e2 cur Hres Hcur.
    assert (Hs1' : wf (with_engine e2 s1)) by (by apply with_engine_wf).
    simpl in Hcur. apply bool_decide_eq_true_1 in Hcur.
    assert (Hcprox : instanceOfAny (VNative cur) idbProxyableTypes = true).
    { eapply proxyable_kind; [done|]. unfold idbProxyableTypes. rewrite !elem_of_cons. auto 10. }
    destruct (wrap_handle_ret cur _ Hs1' Hcprox) as (wrapped & s2 & Hw2 & Hc2).
    destruct (ok_wrap (VNative cur) _ Hs1') as [Hs2 _]. rewrite Hw2 in Hs2. simpl in Hs2.
    destruct (cached_proxy s2 cur wrapped Hs2 Hc2 Hcprox) as (idc & chainc & ->).
    assert (Hnr : instance_of (VNative cur) KRequest = false).
    { simpl. apply bool_decide_eq_false_2. congruence. }
    destruct (dispatch_success_map req q (VProxy idc cur chainc) (with_engine e2 s1) s2)
      as (s3 & Hd & Hs3 & Hp3 & Hmap & _); try done.
    1,2: change (engine (with_engine e2 s1)) with e2; by rewrite Hres.
    assert (Hst3 : wrap (VNative cur) s3 = (Ret (VProxy idc cur chainc), s3)).
    { destruct (ok_dispatchEvent req "success" _ Hs1') as [_ Hg3].
      rewrite Hd in Hg3. simpl in Hg3.
      destruct (dispatch_success_keeping (fun _ => True) req q (VProxy idc cur chainc)
                  (with_engine e2 s1) s2) as (s3' & Hd' & _ & _ & _ & _ & _ & Hst);
        try done.
      1,2: change (engine (with_engine e2 s1)) with e2; by rewrite Hres.
      change (engine (with_engine e2 s1)) with e2 in Hst. rewrite Hres in Hst.
      assert (s3' = s3) as -> by congruence. done. }
    destruct (wrap_uncached _ _ _ _ Hnr Hst3) as [Hc3|(Hno & _)]; [|congruence].
    eexists s3, (VProxy idc cur chainc), _, _. split; [done|].
    split.
    { unfold resume, bind, gets, awaited. rewrite Hp3. cbn beta iota.
      unfold enter_loop. cbn [truthy is_object negb]. reflexivity. }
    simpl. rewrite decide_True by done.
    split; [done|]. split; [done|]. split; [done|].
    apply Hmap. simpl. by apply bool_decide_eq_true_2.
  - intros e2 Hres.
    assert (Hs1' : wf (with_engine e2 s1)) by (by apply with_engine_wf).
    assert (Hnull : wrap VNull (with_engine e2 s1) = (Ret VNull, with_engine e2 s1)).
    { apply wrap_passthrough; try done.
      destruct (wm_get VNull (transformCache (with_engine e2 s1))) eqn:Hcn; [|done].
      by destruct (cached_key _ _ _ Hs1' Hcn) as [?|(? & ? & _)]. }
    destruct (dispatch_success req q VNull (with_engine e2 s1) (with_engine e2 s1))
      as (s3 & Hd & _ & _ & _ & Hp3); try done.
    1,2: change (engine (with_engine e2 s1)) with e2; by rewrite Hres.
    exists s3. split; [done|].
    unfold resume, bind, gets, awaited. by rewrite Hp3.
Qed.

End Traps.

Lemma iterate_opens_cursor_witness :
  let store := Handle KObjectStore 6 in
  let c := VProxy 0 store SampleStore.chain in
  let s := run [AWrap (VNative store)] Sample.s0 in
  js_get c (PStr "iterate") s = (Ret VIterate, s)
  /\ js_has c Symbol_asyncIterator s = Ret true
  /\ exists q s1,
       resume (GStart c [VNum 5]) s = (Ret (GAwaitOpen (VPromise q), Waiting), s1)
       /\ Sample.w_log (engine s1) = [("openCursor", VNative store, [VNum 5])]
       /\ unwrap (VPromise q) s1 = VNative (Handle KRequest 5).
Proof.
  destruct (@iterate_opens_cursor Sample.indexeddb Sample.w0
              [AWrap (VNative (Handle KObjectStore 6))]
              (Handle KObjectStore 6) (Sample.fn "openCursor") (Handle KRequest 5)
              (VProxy 0 (Handle KObjectStore 6) SampleStore.chain) [VNum 5]
              (Sample.s_call (Sample.fn "openCursor") (VNative (Handle KObjectStore 6))
                 [VNum 5] Sample.w0).2)
    as (_ & Hit & Hsym & _ & q & s1 & Hstart & He & Hu & _); try reflexivity.
  split; [exact Hit|]. split; [exact Hsym|].
  exists q, s1. split; [exact Hstart|]. split; [by rewrite He|]. exact Hu.
Defined.

Section Results.
Context `{E : Engine}.

(** [wrap] returns for every native object that is not a request and for
    every primitive value but NaN. *)
Lemma wrap_native_returns s v :
  wf s -> instance_of v KRequest = false -> v <> VNaN ->
  is_object v = false \/ (exists h, v = VNative h) ->
  exists wrapped s1, wrap v s = (Ret wrapped, s1).
Proof.
  intros Hs Hr Hn Hv.
  destruct (wm_get v (transformCache s)) as [c|] eqn:Hc.
  { exists c, s. by apply wrap_cached. }
  destruct Hv as [Hprim|[h ->]].
  - exists v, s. apply wrap_passthrough; try done; by destruct v.
  - destruct (is_function (VNative h)) eqn:Hf.
    { simpl in Hf. apply bool_decide_eq_true_1 in Hf.
      destruct (wrap_function_ret h s Hs Hf) as (wfn & s1 & Hw & _). by exists wfn, s1. }
    destruct (instanceOfAny (VNative h) idbProxyableTypes) eqn:Hp.
    { destruct (wrap_handle_ret h s Hs Hp) as (c & s1 & Hw & _). by exists c, s1. }
    exists (VNative h), s. by apply wrap_passthrough.
Qed.

(** X15. A pending future of a request whose result is a native object
    other than a request, or a primitive value other than NaN, resolves at
    the success event with [wrap] of the result, and both its listeners are
    removed. *)
Theorem request_future_settles_unless_nan (w : world) (acts : list action)
    (r : handle) (p : nat) :
  let s := run acts (loaded w) in
  let result := native_get (engine s) r (PStr "result") in
  unwrap (VPromise p) s = VNative r ->
  promise_state s p = Some Pending ->
  instance_of result KRequest = false ->
  result <> VNaN ->
  is_object result = false \/ (exists h, result = VNative h) ->
  exists wrapped s1 s',
    wrap result s = (Ret wrapped, s1)
    /\ dispatchEvent r "success" s = (Ret tt, s')
    /\ promise_state s' p = Some (Resolved wrapped)
    /\ (Registration r "success" (LSuccess r p) ∉ listeners s')
    /\ (Registration r "error" (LError r p) ∉ listeners s').
Proof.
  intros s result Hu Hp Hreq Hn Hv. pose proof (wf_reachable w acts) as Hs. fold s in Hs.
  destruct (pending_request_listening s p r Hs Hu Hp) as [Hsucc _].
  destruct (wrap_native_returns s result Hs Hreq Hn Hv) as (wrapped & s1 & Hw).
  destruct (dispatch_success r p wrapped s s1 Hs Hsucc Hreq Hw)
    as (s' & Hd & Hs' & _ & _ & Hp').
  exists wrapped, s1, s'. split; [done|]. split; [done|]. split; [done|].
  by eapply not_listening.
Qed.

End Results.

Lemma request_future_settles_unless_nan_witness :
  let r := SampleStore.cursor_request in
  let s := run [AWrap (VNative r); @AEngine Sample.indexeddb SampleStore.w_end] Sample.s0 in
  exists wrapped s1 s',
    wrap VNull s = (Ret wrapped, s1)
    /\ dispatchEvent r "success" s = (Ret tt, s')
    /\ promise_state s' 0 = Some (Resolved wrapped)
    /\ (Registration r "success" (LSuccess r 0) ∉ listeners s')
    /\ (Registration r "error" (LError r 0) ∉ listeners s').
Proof.
  apply (@request_future_settles_unless_nan Sample.indexeddb Sample.w0
           [AWrap (VNative SampleStore.cursor_request);
            @AEngine Sample.indexeddb SampleStore.w_end]
           SampleStore.cursor_request 0); try reflexivity.
  - discriminate.
  - left. reflexivity.
Defined.
